(** * DoubleHitSpacePointBuilder: a shallow embedding and its properties

    Source: Core/src/Tools/DoubleHitSpacePointBuilder.cpp (ACTS).

    The builder turns pairs of strip hits on two neighbouring sensor
    surfaces into three-dimensional space points.  A C++ [double] is a
    binary64 value of Rocq's primitive floats, so every comparison and
    every arithmetic operation below is the IEEE 754 one the compiled code
    executes when it evaluates every operation in double precision (no
    extended precision, no fused multiply-add); pointers to hits and
    surfaces are records carrying their address, and a null pointer is
    [None]. *)

From Stdlib Require Import Floats List Bool Arith ZArith Lia.
Import ListNotations.

#[local] Set Warnings "-inexact-float".
#[local] Open Scope float_scope.

(** ** Vectors (Acts::Vector3D, Acts::Vector2D) *)

Record Vector3D : Set := mkV3 { vx : float; vy : float; vz : float }.
Record Vector2D : Set := mkV2 { lx : float; ly : float }.

Module V3.

(** [Acts::Vector3D::Zero(3)]. *)
Definition Zero : Vector3D := mkV3 0 0 0.

Definition add (u v : Vector3D) : Vector3D :=
  mkV3 (vx u + vx v) (vy u + vy v) (vz u + vz v).

Definition sub (u v : Vector3D) : Vector3D :=
  mkV3 (vx u - vx v) (vy u - vy v) (vz u - vz v).

(** Scalar times vector, [k * v]. *)
Definition scale (k : float) (v : Vector3D) : Vector3D :=
  mkV3 (k * vx v) (k * vy v) (k * vz v).

(** The dot product, its three products summed from left to right. *)
Definition dot (u v : Vector3D) : float :=
  vx u * vx v + vy u * vy v + vz u * vz v.

Definition cross (u v : Vector3D) : Vector3D :=
  mkV3 (vy u * vz v - vz u * vy v)
       (vz u * vx v - vx u * vz v)
       (vx u * vy v - vy u * vx v).

(** [norm()] and [mag()]: the Euclidean length. *)
Definition norm (v : Vector3D) : float := sqrt (dot v v).

(** [u != v]: some coefficient differs (IEEE comparison, so a NaN
    coefficient differs from everything and -0 equals +0). *)
Definition neq (u v : Vector3D) : bool :=
  negb (vx u =? vx v) || negb (vy u =? vy v) || negb (vz u =? vz v).

End V3.

Declare Scope v3_scope.
Delimit Scope v3_scope with v3.
Infix "+" := V3.add : v3_scope.
Infix "-" := V3.sub : v3_scope.
Infix "*" := V3.scale : v3_scope.

(** ** Configuration (Acts::DoubleHitSpacePointConfig) *)

Record DoubleHitSpacePointConfig : Set := mkConfig {
  diffTheta2 : float;
  diffPhi2 : float;
  diffDist : float;
  stripLengthTolerance : float;
  stripLengthGapTolerance : float;
  vertex : Vector3D;
  clusterFrontHits : bool;
  clusterBackHits : bool;
  usePerpProj : bool
}.

(** ** Hits, surfaces, clusters and candidates *)

(** A sensor surface, as far as the builder reads it: its identity (the
    address the code compares), the bin boundaries of its segmentation
    along the two local axes (the number of bins is one less than the
    number of boundaries) and its local-to-global transform. *)
Record Surface : Type := mkSurface {
  surfaceAddr : nat;
  boundariesX : list float;
  boundariesY : list float;
  localToGlobal : Vector2D -> Vector3D
}.

(** Modelled from the spec: the binning data of the segmentation is not
    part of the builder's source; its boundaries are "ordered ascending,
    length = binCount+1", so [bins()] is the number of boundaries less
    one. *)
Definition binsX (sur : Surface) : nat := length (boundariesX sur) - 1.
Definition binsY (sur : Surface) : nat := length (boundariesY sur) - 1.

(** A hit (Acts::PlanarModuleCluster), reached through a pointer:
    [hitAddr] is the pointer value, [searchLocalX]/[searchLocalY] are
    what the segmentation's [searchLocal] answers for its local
    coordinates along the two axes. *)
Record PlanarModuleCluster : Type := mkHit {
  hitAddr : nat;
  referenceSurface : Surface;
  localCoords : Vector2D;
  globalCoords : Vector3D;
  searchLocalX : nat;
  searchLocalY : nat
}.

(** A cluster: a first hit and a second one that may be null. *)
Definition Cluster : Type :=
  (PlanarModuleCluster * option PlanarModuleCluster)%type.

Record DoubleHitSpacePoint : Type := mkSpacePoint {
  hitModuleFront : Cluster;
  hitModuleBack : Cluster;
  spacePoint : Vector3D
}.

(** ** Solver state (SpacePointParameters) *)

Record SpacePointParameters : Set := mkParams {
  sp_q : Vector3D;
  sp_r : Vector3D;
  sp_s : Vector3D;
  sp_t : Vector3D;
  sp_qs : Vector3D;
  sp_rt : Vector3D;
  sp_qmag : float;
  sp_m : float;
  sp_n : float;
  sp_limit : float;
  sp_limitExtended : float
}.

(** Modelled from the spec: [SpacePointParameters::reset] lives in the
    header.  The state is "reset to defaults for every candidate", the
    limit "defaults to 1", and the code tests [n == 0.] for "not
    calculated previously"; vectors and the remaining scalars are zero. *)
Definition reset (_ : SpacePointParameters) : SpacePointParameters :=
  mkParams V3.Zero V3.Zero V3.Zero V3.Zero V3.Zero V3.Zero 0 0 0 1 0.

Definition set_m (p : SpacePointParameters) (x : float) :=
  mkParams (sp_q p) (sp_r p) (sp_s p) (sp_t p) (sp_qs p) (sp_rt p)
           (sp_qmag p) x (sp_n p) (sp_limit p) (sp_limitExtended p).
Definition set_n (p : SpacePointParameters) (x : float) :=
  mkParams (sp_q p) (sp_r p) (sp_s p) (sp_t p) (sp_qs p) (sp_rt p)
           (sp_qmag p) (sp_m p) x (sp_limit p) (sp_limitExtended p).
Definition set_limit (p : SpacePointParameters) (x : float) :=
  mkParams (sp_q p) (sp_r p) (sp_s p) (sp_t p) (sp_qs p) (sp_rt p)
           (sp_qmag p) (sp_m p) (sp_n p) x (sp_limitExtended p).
Definition set_qmag (p : SpacePointParameters) (x : float) :=
  mkParams (sp_q p) (sp_r p) (sp_s p) (sp_t p) (sp_qs p) (sp_rt p)
           x (sp_m p) (sp_n p) (sp_limit p) (sp_limitExtended p).
Definition set_limitExtended (p : SpacePointParameters) (x : float) :=
  mkParams (sp_q p) (sp_r p) (sp_s p) (sp_t p) (sp_qs p) (sp_rt p)
           (sp_qmag p) (sp_m p) (sp_n p) (sp_limit p) x.
Definition set_qr (p : SpacePointParameters) (q r : Vector3D) :=
  mkParams q r (sp_s p) (sp_t p) (sp_qs p) (sp_rt p)
           (sp_qmag p) (sp_m p) (sp_n p) (sp_limit p) (sp_limitExtended p).
Definition set_st (p : SpacePointParameters) (s t qs rt : Vector3D) :=
  mkParams (sp_q p) (sp_r p) s t qs rt
           (sp_qmag p) (sp_m p) (sp_n p) (sp_limit p) (sp_limitExtended p).

(** ** Strip Endpoint Resolver *)

(** [endsOfStrip]: top and bottom end of the strip of a hit, in global
    coordinates.  An index outside a boundary vector reads 0 here. *)
Definition endsOfStrip (hit : PlanarModuleCluster) : Vector3D * Vector3D :=
  let sur := referenceSurface hit in
  let bX := fun i => nth i (boundariesX sur) 0 in
  let bY := fun i => nth i (boundariesY sur) 0 in
  let binX := searchLocalX hit in
  let binY := searchLocalY hit in
  let '(topLocal, bottomLocal) :=
    if bX (binX + 1)%nat - bX binX <? bY (binY + 1)%nat - bY binY
    then (mkV2 ((bX binX + bX (binX + 1)%nat) / 2) (bY (binY + 1)%nat),
          mkV2 ((bX binX + bX (binX + 1)%nat) / 2) (bY binY))
    else (mkV2 (bX binX) ((bY binY + bY (binY + 1)%nat) / 2),
          mkV2 (bX (binX + 1)%nat) ((bY binY + bY (binY + 1)%nat) / 2)) in
  (localToGlobal sur topLocal, localToGlobal sur bottomLocal).

(** Coefficient-wise mean of two vectors, as [endsOfCluster] and
    [clusterPoint] write it. *)
Definition mean3 (u v : Vector3D) : Vector3D :=
  mkV3 ((vx u + vx v) / 2) ((vy u + vy v) / 2) ((vz u + vz v) / 2).

Definition endsOfCluster (cluster : Cluster) : Vector3D * Vector3D :=
  let ends1 := endsOfStrip (fst cluster) in
  match snd cluster with
  | Some second =>
      let ends2 := endsOfStrip second in
      (mean3 (fst ends1) (fst ends2), mean3 (snd ends1) (snd ends2))
  | None => ends1
  end.

Definition clusterPoint (cluster : Cluster) : Vector3D :=
  let pos1 := globalCoords (fst cluster) in
  match snd cluster with
  | Some second => mean3 pos1 (globalCoords second)
  | None => pos1
  end.

(** ** Space-Point Solver *)

(** [calcPerpProj]: the parameter of the point of closest approach on the
    first strip, or 1 when the denominator is too small. *)
Definition calcPerpProj (a c q r : Vector3D) : float :=
  let ac := (c - a)%v3 in
  let qr := V3.dot q r in
  let denom := V3.dot q q - qr * qr in
  if 10e-7 <? abs denom
  then (V3.dot ac r * qr - V3.dot ac q * V3.dot r r) / denom
  else 1.

(** [recoverSpacePoint]: the state is passed by reference, so the model
    returns it next to the answer. *)
Definition recoverSpacePoint (spaPoPa : SpacePointParameters)
    (cfg : DoubleHitSpacePointConfig) : bool * SpacePointParameters :=
  if stripLengthGapTolerance cfg <=? 0 then (false, spaPoPa) else
  let spaPoPa := set_qmag spaPoPa (V3.norm (sp_q spaPoPa)) in
  let spaPoPa := set_limitExtended spaPoPa
        (sp_limit spaPoPa + stripLengthGapTolerance cfg / sp_qmag spaPoPa) in
  if sp_limitExtended spaPoPa <? abs (sp_m spaPoPa) then (false, spaPoPa) else
  let spaPoPa :=
    if sp_n spaPoPa =? 0
    then set_n spaPoPa
           (- V3.dot (sp_t spaPoPa) (sp_qs spaPoPa)
              / V3.dot (sp_r spaPoPa) (sp_qs spaPoPa))
    else spaPoPa in
  if sp_limitExtended spaPoPa <? abs (sp_n spaPoPa) then (false, spaPoPa) else
  let secOnFirstScale :=
    V3.dot (sp_q spaPoPa) (sp_r spaPoPa)
    / (sp_qmag spaPoPa * sp_qmag spaPoPa) in
  if (1 <? sp_m spaPoPa) && (1 <? sp_n spaPoPa) then
    let mOvershoot := sp_m spaPoPa - 1 in
    let nOvershoot := (sp_n spaPoPa - 1) * secOnFirstScale in
    let biggerOvershoot :=
      if nOvershoot <? mOvershoot then mOvershoot else nOvershoot in
    let spaPoPa := set_m spaPoPa (sp_m spaPoPa - biggerOvershoot) in
    let spaPoPa :=
      set_n spaPoPa (sp_n spaPoPa - biggerOvershoot / secOnFirstScale) in
    ((abs (sp_m spaPoPa) <? sp_limit spaPoPa)
       && (abs (sp_n spaPoPa) <? sp_limit spaPoPa), spaPoPa)
  else if (sp_m spaPoPa <? -1) && (sp_n spaPoPa <? -1) then
    let mOvershoot := - (sp_m spaPoPa + 1) in
    let nOvershoot := - (sp_n spaPoPa + 1) * secOnFirstScale in
    let biggerOvershoot :=
      if nOvershoot <? mOvershoot then mOvershoot else nOvershoot in
    let spaPoPa := set_m spaPoPa (sp_m spaPoPa + biggerOvershoot) in
    let spaPoPa :=
      set_n spaPoPa (sp_n spaPoPa + biggerOvershoot / secOnFirstScale) in
    ((abs (sp_m spaPoPa) <? sp_limit spaPoPa)
       && (abs (sp_n spaPoPa) <? sp_limit spaPoPa), spaPoPa)
  else (false, spaPoPa).

(** C++ conversions between [bool] and [double]. *)
Definition bool_to_double (b : bool) : float := if b then 1 else 0.
Definition double_to_bool (x : float) : bool := negb (x =? 0).

Definition set_spacePoint (hits : DoubleHitSpacePoint) (p : Vector3D) :=
  mkSpacePoint (hitModuleFront hits) (hitModuleBack hits) p.

(** The vertex-based part of the loop body of [calculateSpacePoints], in
    three pieces.  First [s], [t], the cross products, [m] and the limit. *)
Definition vertexParameters (dhCfg : DoubleHitSpacePointConfig)
    (spaPoPa : SpacePointParameters) (ends1 ends2 : Vector3D * Vector3D)
    : SpacePointParameters :=
  let s := (fst ends1 + snd ends1 - 2 * vertex dhCfg)%v3 in
  let t := (fst ends2 + snd ends2 - 2 * vertex dhCfg)%v3 in
  let spaPoPa := set_st spaPoPa s t (V3.cross (sp_q spaPoPa) s)
                        (V3.cross (sp_r spaPoPa) t) in
  let spaPoPa := set_m spaPoPa
        (- V3.dot (sp_s spaPoPa) (sp_rt spaPoPa)
           / V3.dot (sp_q spaPoPa) (sp_rt spaPoPa)) in
  if (sp_limit spaPoPa =? 1) && negb (stripLengthTolerance dhCfg =? 0)
  then set_limit spaPoPa (1 + stripLengthTolerance dhCfg)
  else spaPoPa.

(** Then the condition "m and n can be resolved in the limit"; [n] is
    assigned inside the condition, and only once [m] has passed. *)
Definition resolveInLimit (spaPoPa : SpacePointParameters)
    : bool * SpacePointParameters :=
  if abs (sp_m spaPoPa) <=? sp_limit spaPoPa then
    let spaPoPa := set_n spaPoPa
          (- V3.dot (sp_t spaPoPa) (sp_qs spaPoPa)
             / V3.dot (sp_r spaPoPa) (sp_qs spaPoPa)) in
    (abs (sp_n spaPoPa) <=? sp_limit spaPoPa, spaPoPa)
  else (false, spaPoPa).

(** The point stored on success, [0.5 * (top + bottom + m * q)]. *)
Definition storedPoint (ends1 : Vector3D * Vector3D)
    (spaPoPa : SpacePointParameters) : Vector3D :=
  (0.5 * (fst ends1 + snd ends1 + sp_m spaPoPa * sp_q spaPoPa))%v3.

(** Last the store, or the recovery and the store. *)
Definition vertexSolve (dhCfg : DoubleHitSpacePointConfig)
    (spaPoPa : SpacePointParameters) (ends1 ends2 : Vector3D * Vector3D)
    (hits : DoubleHitSpacePoint)
    : SpacePointParameters * DoubleHitSpacePoint :=
  let spaPoPa := vertexParameters dhCfg spaPoPa ends1 ends2 in
  let '(inLimit, spaPoPa) := resolveInLimit spaPoPa in
  if inLimit then (spaPoPa, set_spacePoint hits (storedPoint ends1 spaPoPa))
  else
    let '(recovered, spaPoPa) := recoverSpacePoint spaPoPa dhCfg in
    if recovered
    then (spaPoPa, set_spacePoint hits (storedPoint ends1 spaPoPa))
    else (spaPoPa, hits).

(** The loop body of [calculateSpacePoints] after its test for an
    already calculated point: the attempt to solve one candidate. *)
Definition solveAttempt (dhCfg : DoubleHitSpacePointConfig)
    (spaPoPa : SpacePointParameters) (hits : DoubleHitSpacePoint)
    : SpacePointParameters * DoubleHitSpacePoint :=
  let ends1 := endsOfCluster (hitModuleFront hits) in
  let ends2 := endsOfCluster (hitModuleBack hits) in
  let spaPoPa := reset spaPoPa in
  let spaPoPa := set_qr spaPoPa (fst ends1 - snd ends1)%v3
                                (fst ends2 - snd ends2)%v3 in
  if usePerpProj dhCfg then
    (* resultPerpProj = calcPerpProj(...) <= 0. : the comparison binds
       tighter than the assignment *)
    let resultPerpProj :=
      bool_to_double
        (calcPerpProj (fst ends1) (fst ends2) (sp_q spaPoPa) (sp_r spaPoPa)
           <=? 0) in
    if double_to_bool resultPerpProj
    then (spaPoPa,
          set_spacePoint hits (fst ends1 + resultPerpProj * sp_q spaPoPa)%v3)
    else vertexSolve dhCfg spaPoPa ends1 ends2 hits
  else vertexSolve dhCfg spaPoPa ends1 ends2 hits.

(** One turn of the loop of [calculateSpacePoints] over the storage. *)
Definition calculateSpacePoints_body (dhCfg : DoubleHitSpacePointConfig)
    (spaPoPa : SpacePointParameters) (hits : DoubleHitSpacePoint)
    : SpacePointParameters * DoubleHitSpacePoint :=
  if V3.neq (spacePoint hits) V3.Zero then (spaPoPa, hits)
  else solveAttempt dhCfg spaPoPa hits.

Fixpoint calculateSpacePoints_loop (dhCfg : DoubleHitSpacePointConfig)
    (spaPoPa : SpacePointParameters) (storage : list DoubleHitSpacePoint)
    : list DoubleHitSpacePoint :=
  match storage with
  | [] => []
  | hits :: rest =>
      let '(spaPoPa', hits') := calculateSpacePoints_body dhCfg spaPoPa hits in
      hits' :: calculateSpacePoints_loop dhCfg spaPoPa' rest
  end.

(** ** Hit Clusterer *)

Definition Bins : Type := list (list (option PlanarModuleCluster)).

(** [v[i] = x]; nothing is written when [i] is outside [v] (out of
    bounds in the source). *)
Fixpoint assign {A : Type} (v : list A) (i : nat) (x : A) : list A :=
  match v, i with
  | [], _ => []
  | _ :: v', O => x :: v'
  | y :: v', S i' => y :: assign v' i' x
  end.

Definition getBin (bins : Bins) (iX iY : nat) : option PlanarModuleCluster :=
  nth iY (nth iX bins []) None.

Definition setBin (bins : Bins) (iX iY : nat) (hit : PlanarModuleCluster) : Bins :=
  match nth_error bins iX with
  | Some column => assign bins iX (assign column iY (Some hit))
  | None => bins
  end.

Definition binOfHit (hit : PlanarModuleCluster) : nat * nat :=
  (searchLocalX hit, searchLocalY hit).

(** The filling loop of [sortHits]: a hit of another surface empties the
    matrix and ends the function. *)
Fixpoint sortHits_fill (surface : nat) (hits : list PlanarModuleCluster)
    (bins : Bins) : Bins :=
  match hits with
  | [] => bins
  | hit :: rest =>
      if negb (surfaceAddr (referenceSurface hit) =? surface)%nat then []
      else
        let bin := binOfHit hit in
        sortHits_fill surface rest (setBin bins (fst bin) (snd bin) hit)
  end.

(** [sortHits].  The source reads [hits[0]] first; on an empty vector
    (which [addHits] never passes) the model answers the empty matrix. *)
Definition sortHits (hits : list PlanarModuleCluster) : Bins :=
  match hits with
  | [] => []
  | hit0 :: _ =>
      let surface := surfaceAddr (referenceSurface hit0) in
      let bins := repeat (repeat None (binsY (referenceSurface hit0)))
                         (binsX (referenceSurface hit0)) in
      sortHits_fill surface hits bins
  end.

(** State of the scan of [clusterSpacePoints]: the pair under
    construction and the clusters stored so far. *)
Record ScanState : Type := mkScan {
  cl_first : option PlanarModuleCluster;
  cl_second : option PlanarModuleCluster;
  clusters : list Cluster
}.

(** The body of the inner loops; [isLast] is the test
    [iX == bins.size() - 1] (resp. [iY == bins[0].size() - 1]) and
    [cell] is [bins[iX][iY]]. *)
Definition scanCell (isLast : bool) (cell : option PlanarModuleCluster)
    (st : ScanState) : ScanState :=
  match cell, cl_first st with
  | Some hit, None =>
      if isLast
      then mkScan (Some hit) None (clusters st ++ [(hit, None)])
      else mkScan (Some hit) (cl_second st) (clusters st)
  | _, Some first =>
      mkScan cell cell (clusters st ++ [(first, cell)])
  | None, None => st
  end.

(** The scan with the outer loop over [iY] (more bins along X). *)
Definition scanAlongX (bins : Bins) (nX nY : nat) (st : ScanState) : ScanState :=
  fold_left (fun st iY =>
    fold_left (fun st iX =>
      scanCell (iX =? nX - 1)%nat (getBin bins iX iY) st) (seq 0 nX) st)
    (seq 0 nY) st.

(** The scan with the outer loop over [iX]. *)
Definition scanAlongY (bins : Bins) (nX nY : nat) (st : ScanState) : ScanState :=
  fold_left (fun st iX =>
    fold_left (fun st iY =>
      scanCell (iY =? nY - 1)%nat (getBin bins iX iY) st) (seq 0 nY) st)
    (seq 0 nX) st.

Definition clusterSpacePoints (hits : list PlanarModuleCluster)
    (performClustering : bool) : list Cluster :=
  match hits with
  | [hit] => [(hit, None)]
  | _ =>
      if performClustering then
        let bins := sortHits hits in
        match bins with
        | [] => []
        | column0 :: _ =>
            let nX := length bins in
            let nY := length column0 in
            let st := mkScan None None [] in
            clusters (if (nY <? nX)%nat
                      then scanAlongX bins nX nY st
                      else scanAlongY bins nX nY st)
        end
      else map (fun hit => (hit, None)) hits
  end.

(** ** Cluster Matcher *)

(** [std::numeric_limits<double>::max()]. *)
Definition DBL_MAX : float := 0x1.fffffffffffffp1023.

Section Builder.

(** The azimuthal and polar angle of a vector ([phi()], [theta()] of
    the vector type; they are not part of the builder's source). *)
Variables phi theta : Vector3D -> float.

(** The default-constructed configuration, used when no configuration
    is passed, and the default-constructed solver state (both come from
    the header). *)
Variable defaultConfig : DoubleHitSpacePointConfig.
Variable defaultParameters : SpacePointParameters.

Definition differenceOfHits (pos1 pos2 : Vector3D)
    (cfg : DoubleHitSpacePointConfig) : float :=
  if diffDist cfg <? V3.norm (pos1 - pos2)%v3 then -1 else
  let phi1 := phi (pos1 - vertex cfg)%v3 in
  let theta1 := theta (pos1 - vertex cfg)%v3 in
  let phi2 := phi (pos2 - vertex cfg)%v3 in
  let theta2 := theta (pos2 - vertex cfg)%v3 in
  let diffTheta2' := (theta1 - theta2) * (theta1 - theta2) in
  if diffTheta2 cfg <? diffTheta2' then -1 else
  let diffPhi2' := (phi1 - phi2) * (phi1 - phi2) in
  if diffPhi2 cfg <? diffPhi2' then -1 else
  diffTheta2' + diffPhi2'.

Definition withDefault (cfg : option DoubleHitSpacePointConfig) :=
  match cfg with
  | Some c => c
  | None => defaultConfig
  end.

(** The inner loop of [addHits] from index [iClustersBack] on, over the
    back clusters still to visit. *)
Fixpoint scanBack (dhCfg : DoubleHitSpacePointConfig)
    (clusterPointFront : Vector3D) (back : list Cluster)
    (iClustersBack : nat) (diffMin : float) (clusterMin : nat)
    : float * nat :=
  match back with
  | [] => (diffMin, clusterMin)
  | cluster :: rest =>
      let currentDiff :=
        differenceOfHits clusterPointFront (clusterPoint cluster) dhCfg in
      if (currentDiff <? diffMin) && (0 <=? currentDiff)
      then scanBack dhCfg clusterPointFront rest (S iClustersBack)
                    currentDiff iClustersBack
      else scanBack dhCfg clusterPointFront rest (S iClustersBack)
                    diffMin clusterMin
  end.

(** Modelled from the spec: the default-constructed candidate of the
    header; its position starts as the "unset" value, which the solver
    tests against the zero vector. *)
Definition newSpacePoint (front back : Cluster) : DoubleHitSpacePoint :=
  mkSpacePoint front back V3.Zero.

(** The outer loop of [addHits]. *)
Fixpoint matchFront (dhCfg : DoubleHitSpacePointConfig)
    (clustersFront clustersBack : list Cluster)
    (spacePoints : list DoubleHitSpacePoint) : list DoubleHitSpacePoint :=
  match clustersFront with
  | [] => spacePoints
  | front :: rest =>
      let clusterMin :=
        snd (scanBack dhCfg (clusterPoint front) clustersBack 0 DBL_MAX
                      (length clustersBack)) in
      matchFront dhCfg rest clustersBack
        match nth_error clustersBack clusterMin with
        | Some back => spacePoints ++ [newSpacePoint front back]
        | None => spacePoints
        end
  end.

Definition addHits (spacePoints : list DoubleHitSpacePoint)
    (hitsFront hitsBack : list PlanarModuleCluster)
    (cfg : option DoubleHitSpacePointConfig) : list DoubleHitSpacePoint :=
  match hitsFront, hitsBack with
  | [], _ | _, [] => spacePoints
  | _, _ =>
      let dhCfg := withDefault cfg in
      let clustersFront := clusterSpacePoints hitsFront (clusterFrontHits dhCfg) in
      match clustersFront with
      | [] => spacePoints
      | _ =>
          let clustersBack := clusterSpacePoints hitsBack (clusterBackHits dhCfg) in
          match clustersBack with
          | [] => spacePoints
          | _ => matchFront dhCfg clustersFront clustersBack spacePoints
          end
      end
  end.

Definition calculateSpacePoints (spacePointStorage : list DoubleHitSpacePoint)
    (cfg : option DoubleHitSpacePointConfig) : list DoubleHitSpacePoint :=
  calculateSpacePoints_loop (withDefault cfg) defaultParameters
                            spacePointStorage.

End Builder.

(** ** Derived notions used by the statements below *)

(** The strip ends of a candidate: [(a, b)] on the front surface and
    [(c, d)] on the back surface, top end first. *)
Definition frontEnds (hits : DoubleHitSpacePoint) : Vector3D * Vector3D :=
  endsOfCluster (hitModuleFront hits).
Definition backEnds (hits : DoubleHitSpacePoint) : Vector3D * Vector3D :=
  endsOfCluster (hitModuleBack hits).

(** The strip axes [q = a - b] and [r = c - d]. *)
Definition frontAxis (hits : DoubleHitSpacePoint) : Vector3D :=
  (fst (frontEnds hits) - snd (frontEnds hits))%v3.
Definition backAxis (hits : DoubleHitSpacePoint) : Vector3D :=
  (fst (backEnds hits) - snd (backEnds hits))%v3.

(** The closest-approach parameter [calculateSpacePoints] asks for. *)
Definition lambdaOf (hits : DoubleHitSpacePoint) : float :=
  calcPerpProj (fst (frontEnds hits)) (fst (backEnds hits))
               (frontAxis hits) (backAxis hits).

(** What one call makes of one candidate (the solver state is reset
    before it is read, so the incoming state does not matter). *)
Definition freshParameters : SpacePointParameters :=
  reset (mkParams V3.Zero V3.Zero V3.Zero V3.Zero V3.Zero V3.Zero 0 0 0 0 0).

Definition solveCandidate (dhCfg : DoubleHitSpacePointConfig)
    (hits : DoubleHitSpacePoint) : DoubleHitSpacePoint :=
  snd (calculateSpacePoints_body dhCfg freshParameters hits).

(** The solver state of a candidate when the vertex-based check is
    reached: reset, axes, then [vertexParameters]. *)
Definition vertexState (dhCfg : DoubleHitSpacePointConfig)
    (hits : DoubleHitSpacePoint) : SpacePointParameters :=
  vertexParameters dhCfg
    (set_qr freshParameters (frontAxis hits) (backAxis hits))
    (frontEnds hits) (backEnds hits).

Definition with_usePerpProj (cfg : DoubleHitSpacePointConfig) (b : bool) :=
  mkConfig (diffTheta2 cfg) (diffPhi2 cfg) (diffDist cfg)
           (stripLengthTolerance cfg) (stripLengthGapTolerance cfg)
           (vertex cfg) (clusterFrontHits cfg) (clusterBackHits cfg) b.

(** A double that is neither zero, nor infinite, nor a NaN. *)
Definition finite_nonzero (x : float) : bool :=
  is_finite x && negb (is_zero x).

(** The scaling factor of [recoverSpacePoint] and its two operands. *)
Definition qmagOf (spaPoPa : SpacePointParameters) : float :=
  V3.norm (sp_q spaPoPa).
Definition secOnFirstScale (spaPoPa : SpacePointParameters) : float :=
  V3.dot (sp_q spaPoPa) (sp_r spaPoPa) / (qmagOf spaPoPa * qmagOf spaPoPa).

(** The limit after which recovery gives up, and the [n] recovery works
    with (computed when the state still holds [n == 0]). *)
Definition limitExtendedOf (spaPoPa : SpacePointParameters)
    (cfg : DoubleHitSpacePointConfig) : float :=
  sp_limit spaPoPa + stripLengthGapTolerance cfg / qmagOf spaPoPa.
Definition nOf (spaPoPa : SpacePointParameters) : float :=
  if sp_n spaPoPa =? 0
  then - V3.dot (sp_t spaPoPa) (sp_qs spaPoPa)
         / V3.dot (sp_r spaPoPa) (sp_qs spaPoPa)
  else sp_n spaPoPa.

(** A recovery "reaches a correction branch" when none of the early
    exits is taken and both parameters overshoot on the same side. *)
Definition reachesCorrection (spaPoPa : SpacePointParameters)
    (cfg : DoubleHitSpacePointConfig) : bool :=
  negb (stripLengthGapTolerance cfg <=? 0)
  && negb (limitExtendedOf spaPoPa cfg <? abs (sp_m spaPoPa))
  && negb (limitExtendedOf spaPoPa cfg <? abs (nOf spaPoPa))
  && (((1 <? sp_m spaPoPa) && (1 <? nOf spaPoPa))
      || ((sp_m spaPoPa <? -1) && (nOf spaPoPa <? -1))).

(** Both scans of [clusterSpacePoints] are one walk over lines of
    cells: [cell o i] is the cell [i] of line [o], a line has [nInner]
    cells and there are [nOuter] lines. *)
Definition scanLines (cell : nat -> nat -> option PlanarModuleCluster)
    (nInner nOuter : nat) (st : ScanState) : ScanState :=
  fold_left (fun st o =>
    fold_left (fun st i =>
      scanCell (i =? nInner - 1)%nat (cell o i) st) (seq 0 nInner) st)
    (seq 0 nOuter) st.

(** A hit is a member of a cluster, and of some cluster of a list. *)
Definition member (hit : PlanarModuleCluster) (cluster : Cluster) : Prop :=
  fst cluster = hit \/ snd cluster = Some hit.
Definition covered (hit : PlanarModuleCluster) (cls : list Cluster) : Prop :=
  exists cluster, In cluster cls /\ member hit cluster.

Definition clusterSize (cluster : Cluster) : nat :=
  match snd cluster with
  | Some _ => 2
  | None => 1
  end.

(** The addresses of the hits of a cluster. *)
Definition clusterAddrs (cluster : Cluster) : nat * option nat :=
  (hitAddr (fst cluster), option_map hitAddr (snd cluster)).

(** In how many clusters of a list the hit at address [addr] occurs. *)
Definition occurrences (addr : nat) (cls : list Cluster) : nat :=
  length (filter (fun cluster =>
            (hitAddr (fst cluster) =? addr)%nat
            || match snd cluster with
               | Some second => (hitAddr second =? addr)%nat
               | None => false
               end) cls).

(** All hits lie on the surface of [hit0]. *)
Definition onSurfaceOf (hit0 : PlanarModuleCluster)
    (hits : list PlanarModuleCluster) : Prop :=
  Forall (fun hit => surfaceAddr (referenceSurface hit)
                     = surfaceAddr (referenceSurface hit0)) hits.

(** The bins of all hits are inside the matrix made for [hit0]. *)
Definition insideBinsOf (hit0 : PlanarModuleCluster)
    (hits : list PlanarModuleCluster) : Prop :=
  Forall (fun hit => (searchLocalX hit < binsX (referenceSurface hit0))%nat
                     /\ (searchLocalY hit < binsY (referenceSurface hit0))%nat)
         hits.

(** The second hit sits in the bin that follows the bin of the first
    hit along the scan line, unless the first hit sits in the last bin of
    its line.  A surface with more bins along X is scanned along X. *)
Definition nextBinOrLineEnd (hit0 first second : PlanarModuleCluster) : Prop :=
  let sur := referenceSurface hit0 in
  if (binsY sur <? binsX sur)%nat
  then searchLocalX first = (binsX sur - 1)%nat
       \/ (searchLocalX second = S (searchLocalX first)
           /\ searchLocalY second = searchLocalY first)
  else searchLocalY first = (binsY sur - 1)%nat
       \/ (searchLocalY second = S (searchLocalY first)
           /\ searchLocalX second = searchLocalX first).

(** ** Concrete strips, for the examples *)

Module Fixture.

(** A surface with one bin, narrow along local x and long along local
    y, whose strip runs from [bottom] (local y = 0) to [top]
    (local y = 1). *)
Definition stripSurface (addr : nat) (top bottom : Vector3D) : Surface :=
  mkSurface addr [0; 0.5] [0; 1]
    (fun l => (bottom + ly l * (top - bottom))%v3).

Definition stripHit (addr : nat) (sur : Surface) : PlanarModuleCluster :=
  mkHit addr sur (mkV2 0.25 0.5) (localToGlobal sur (mkV2 0.25 0.5)) 0 0.

(** An unsolved candidate with front strip [a]-[b] and back strip
    [c]-[d]. *)
Definition candidate (a b c d : Vector3D) : DoubleHitSpacePoint :=
  mkSpacePoint (stripHit 1 (stripSurface 1 a b), None)
               (stripHit 2 (stripSurface 2 c d), None) V3.Zero.

Definition config (v : Vector3D) (tolerance gapTolerance : float)
    (perpProj : bool) : DoubleHitSpacePointConfig :=
  mkConfig 1 1 100 tolerance gapTolerance v true true perpProj.

Definition parameters : SpacePointParameters :=
  mkParams V3.Zero V3.Zero V3.Zero V3.Zero V3.Zero V3.Zero 0 0 0 1 0.

(** Front strip along x from (-3,0,0) to (1,0,0), back strip along y
    at x = 1.5, z = 1: closest-approach parameter -0.125. *)
Definition perpAccepted : DoubleHitSpacePoint :=
  candidate (mkV3 1 0 0) (mkV3 (-3) 0 0) (mkV3 1.5 0.5 1) (mkV3 1.5 (-0.5) 1).

(** Front strip along x from (-1,0,0) to (1,0,0), back strip along y
    at x = 0.5, z = 1: closest-approach parameter +1; seen from the
    vertex (0,0,-1) the strips cross at (0.25,0,0), with m = 0.25. *)
Definition perpRejected : DoubleHitSpacePoint :=
  candidate (mkV3 1 0 0) (mkV3 (-1) 0 0) (mkV3 0.5 1 1) (mkV3 0.5 (-1) 1).

(** As before with the back strip at x = 0: seen from the vertex
    (0,0,-1) the strips cross at the coordinate origin. *)
Definition crossingAtOrigin : DoubleHitSpacePoint :=
  candidate (mkV3 1 0 0) (mkV3 (-1) 0 0) (mkV3 0 1 1) (mkV3 0 (-1) 1).

(** Front strip along x, back strip along the diagonal of the plane
    z = 1; seen from the vertex (0,0,-1) they cross at m = 1.25 and
    n = 1.75. *)
Definition overshooting : DoubleHitSpacePoint :=
  candidate (mkV3 1 0 0) (mkV3 (-1) 0 0)
            (mkV3 1.75 (-0.75) 1) (mkV3 (-0.25) (-2.75) 1).


Definition vertexBelow : Vector3D := mkV3 0 0 (-1).

(** A surface at address [addr] with [nX] by [nY] bins of width 1. *)
Fixpoint boundaries (n : nat) (from : float) : list float :=
  match n with
  | O => [from]
  | S n' => from :: boundaries n' (from + 1)
  end.

Definition gridSurface (addr nX nY : nat) : Surface :=
  mkSurface addr (boundaries nX 0) (boundaries nY 0)
            (fun l => mkV3 (lx l) (ly l) 0).

(** The hit at address [addr] in bin ([binX], [binY]) of [sur]. *)
Definition binHit (addr : nat) (sur : Surface) (binX binY : nat)
    : PlanarModuleCluster :=
  mkHit addr sur (mkV2 0 0) V3.Zero binX binY.

(** Stand-ins for the two angles of a vector in the examples. *)
Definition flatPhi (v : Vector3D) : float := vy v.
Definition flatTheta (v : Vector3D) : float := vx v.

(** Back strips whose centres are at distance 1 and 200 from the
    centre of the front strip of [crossingAtOrigin]. *)
Definition nearBack : Cluster :=
  (stripHit 2 (stripSurface 2 (mkV3 0 1 1) (mkV3 0 (-1) 1)), None).
Definition farBack : Cluster :=
  (stripHit 3 (stripSurface 3 (mkV3 0 1 200) (mkV3 0 (-1) 200)), None).

(** A front strip of length 2^501 along x and a back strip that leaves
    the direction of y by 2^-599 only; seen from [farVertex] they cross
    at m = 1.25 and n = 1.5. *)
Definition underflowing : DoubleHitSpacePoint :=
  candidate (mkV3 0x1p500 0 0) (mkV3 (-0x1p500) 0 0)
            (mkV3 0x1p-600 (-0.5) 1) (mkV3 (-0x1p-600) (-2.5) 1).

Definition farVertex : Vector3D := mkV3 0x1.4p501 0 (-1).

(** Front strip along x, back strip along y at x = 2.5: perpendicular
    axes; seen from the vertex (0,0,-1) they cross at m = 1.25 and
    n = 1.5. *)
Definition perpendicular : DoubleHitSpacePoint :=
  candidate (mkV3 1 0 0) (mkV3 (-1) 0 0)
            (mkV3 2.5 (-0.5) 1) (mkV3 2.5 (-2.5) 1).

End Fixture.

(** * Properties *)

(** ** Order facts on doubles *)

Module FloatFacts.

Lemma Prim2SF_one : Prim2SF 1 = S754_finite false 4503599627370496 (-52).
Proof. vm_compute. reflexivity. Qed.

Lemma Prim2SF_minus_one :
  Prim2SF (-1) = S754_finite true 4503599627370496 (-52).
Proof. vm_compute. reflexivity. Qed.

Lemma Prim2SF_zero : Prim2SF 0 = S754_zero false.
Proof. vm_compute. reflexivity. Qed.

Lemma Prim2SF_infinity : Prim2SF infinity = S754_infinity false.
Proof. vm_compute. reflexivity. Qed.

(** Comparison of doubles is antisymmetric, NaN included. *)
Lemma SFcompare_antisym (x y : spec_float) :
  SFcompare y x = option_map CompOpp (SFcompare x y).
Proof.
  destruct x as [sx|sx| |sx mx ex], y as [sy|sy| |sy my ey];
    try destruct sx; try destruct sy; try reflexivity.
  - unfold SFcompare, option_map. f_equal.
    rewrite (Z.compare_antisym ey ex).
    destruct (ey ?= ex)%Z; try reflexivity.
    cbn [CompOpp]. rewrite CompOpp_involutive.
    apply (Pos.compare_cont_antisym my mx Eq).
  - unfold SFcompare, option_map. f_equal.
    rewrite (Z.compare_antisym ey ex).
    destruct (ey ?= ex)%Z; try reflexivity.
    cbn [CompOpp]. symmetry.
    apply (Pos.compare_cont_antisym mx my Eq).
Qed.


Lemma ltb_true_leb_false (x y : float) :
  (x <? y) = true -> (y <=? x) = false.
Proof.
  rewrite FloatAxioms.leb_spec, FloatAxioms.ltb_spec. unfold SFleb, SFltb.
  rewrite (SFcompare_antisym (Prim2SF x) (Prim2SF y)).
  destruct (SFcompare (Prim2SF x) (Prim2SF y)) as [[]|];
    cbn [option_map CompOpp]; congruence.
Qed.

(** A double below -1 is not above 1. *)
Lemma below_minus_one_not_above_one (x : float) :
  (x <? -1) = true -> (1 <? x) = false.
Proof.
  rewrite !FloatAxioms.ltb_spec, Prim2SF_one, Prim2SF_minus_one.
  unfold SFltb, SFcompare.
  destruct (Prim2SF x) as [s|s| |s m e]; try destruct s; congruence.
Qed.

Lemma above_one_not_below_minus_one (x : float) :
  (1 <? x) = true -> (x <? -1) = false.
Proof.
  intros H. destruct (x <? -1) eqn:E; [|reflexivity].
  apply below_minus_one_not_above_one in E. congruence.
Qed.



End FloatFacts.

(** ** The candidate loop *)

Lemma one_eqb_one : (1 =? 1) = true.
Proof. reflexivity. Qed.

Lemma body_state_irrelevant dhCfg p p' hits :
  snd (calculateSpacePoints_body dhCfg p hits)
  = snd (calculateSpacePoints_body dhCfg p' hits).
Proof.
  unfold calculateSpacePoints_body, solveAttempt, reset.
  destruct (V3.neq (spacePoint hits) V3.Zero); reflexivity.
Qed.

Lemma calculateSpacePoints_loop_map dhCfg p storage :
  calculateSpacePoints_loop dhCfg p storage
  = map (solveCandidate dhCfg) storage.
Proof.
  revert p. induction storage as [|hits rest IH]; intros p; [reflexivity|].
  cbn [calculateSpacePoints_loop map].
  destruct (calculateSpacePoints_body dhCfg p hits) as [p' hits'] eqn:E.
  rewrite IH. f_equal. unfold solveCandidate.
  rewrite (body_state_irrelevant dhCfg _ p), E. reflexivity.
Qed.

(** Every candidate of the storage is replaced by what the loop body
    makes of it, whatever came before it. *)
Lemma calculateSpacePoints_nth dc dp storage cfg i :
  nth_error (calculateSpacePoints dc dp storage cfg) i
  = option_map (solveCandidate (withDefault dc cfg)) (nth_error storage i).
Proof.
  unfold calculateSpacePoints.
  rewrite calculateSpacePoints_loop_map. apply nth_error_map.
Qed.

(** A candidate whose position differs from the zero vector is skipped. *)
Lemma solveCandidate_skip dhCfg hits :
  V3.neq (spacePoint hits) V3.Zero = true -> solveCandidate dhCfg hits = hits.
Proof.
  intros H. unfold solveCandidate, calculateSpacePoints_body.
  rewrite H. reflexivity.
Qed.

(** Without the perpendicular projection an unset candidate goes
    through the vertex-based part. *)
Lemma solveCandidate_vertex dhCfg hits :
  V3.neq (spacePoint hits) V3.Zero = false ->
  usePerpProj dhCfg = false ->
  solveCandidate dhCfg hits
  = snd (vertexSolve dhCfg
           (set_qr freshParameters (frontAxis hits) (backAxis hits))
           (frontEnds hits) (backEnds hits) hits).
Proof.
  intros H0 Hp. unfold solveCandidate, calculateSpacePoints_body, solveAttempt.
  rewrite H0, Hp. reflexivity.
Qed.

(** With the perpendicular projection an unset candidate is decided by
    the sign of its closest-approach parameter. *)
Lemma solveCandidate_perp dhCfg hits :
  V3.neq (spacePoint hits) V3.Zero = false ->
  usePerpProj dhCfg = true ->
  solveCandidate dhCfg hits
  = if lambdaOf hits <=? 0
    then set_spacePoint hits (fst (frontEnds hits) + 1 * frontAxis hits)%v3
    else snd (vertexSolve dhCfg
           (set_qr freshParameters (frontAxis hits) (backAxis hits))
           (frontEnds hits) (backEnds hits) hits).
Proof.
  intros H0 Hp. unfold solveCandidate, calculateSpacePoints_body, solveAttempt.
  rewrite H0, Hp.
  change (calcPerpProj _ _ _ _) with (lambdaOf hits).
  destruct (lambdaOf hits <=? 0); reflexivity.
Qed.

(** What the vertex-based part stores. *)
Lemma vertexSolve_point dhCfg hits :
  let st := vertexState dhCfg hits in
  spacePoint (snd (vertexSolve dhCfg
           (set_qr freshParameters (frontAxis hits) (backAxis hits))
           (frontEnds hits) (backEnds hits) hits))
  = if fst (resolveInLimit st)
    then storedPoint (frontEnds hits) (snd (resolveInLimit st))
    else if fst (recoverSpacePoint (snd (resolveInLimit st)) dhCfg)
         then storedPoint (frontEnds hits)
                (snd (recoverSpacePoint (snd (resolveInLimit st)) dhCfg))
         else spacePoint hits.
Proof.
  unfold vertexSolve.
  change (vertexParameters dhCfg _ _ _) with (vertexState dhCfg hits).
  destruct (resolveInLimit (vertexState dhCfg hits)) as [inLimit st'].
  cbn [fst snd]. destruct inLimit; [reflexivity|].
  destruct (recoverSpacePoint st' dhCfg) as [ok st''].
  cbn [fst snd]. destruct ok; reflexivity.
Qed.

(** The state in which the vertex-based check is made. *)
Lemma vertexState_fields dhCfg hits :
  let a := fst (frontEnds hits) in
  let b := snd (frontEnds hits) in
  let c := fst (backEnds hits) in
  let d := snd (backEnds hits) in
  let q := (a - b)%v3 in
  let r := (c - d)%v3 in
  let s := (a + b - 2 * vertex dhCfg)%v3 in
  let t := (c + d - 2 * vertex dhCfg)%v3 in
  let st := vertexState dhCfg hits in
  sp_q st = q /\ sp_r st = r /\ sp_s st = s /\ sp_t st = t
  /\ sp_qs st = V3.cross q s /\ sp_rt st = V3.cross r t
  /\ sp_m st = - V3.dot s (V3.cross r t) / V3.dot q (V3.cross r t)
  /\ sp_n st = 0
  /\ sp_limit st = (if negb (stripLengthTolerance dhCfg =? 0)
                    then 1 + stripLengthTolerance dhCfg else 1).
Proof.
  unfold vertexState, vertexParameters, freshParameters, reset,
    frontAxis, backAxis.
  cbn [sp_q sp_r sp_s sp_t sp_qs sp_rt sp_m sp_n sp_limit
       set_qr set_st set_m set_limit].
  rewrite one_eqb_one. cbn [andb].
  destruct (stripLengthTolerance dhCfg =? 0); cbn [negb];
    cbn [sp_q sp_r sp_s sp_t sp_qs sp_rt sp_m sp_n sp_limit set_limit];
    repeat split; reflexivity.
Qed.

(** ** Vertex-based mode *)

(** C5. In vertex-based mode the solver state of every unset candidate
    holds [m = -(s.rt)/(q.rt)] and the limit 1, or [1 + stripLengthTolerance]
    when the tolerance is not zero; when [|m|] is within the limit it
    holds [n = -(t.qs)/(r.qs)], and when [|n|] is within the limit too the
    candidate's position becomes [0.5 * (a + b + m * q)]. *)
Theorem vertex_mode_stores_point_at_m dc dp storage cfg i hits :
  let a := fst (frontEnds hits) in
  let b := snd (frontEnds hits) in
  let c := fst (backEnds hits) in
  let d := snd (backEnds hits) in
  let q := (a - b)%v3 in
  let r := (c - d)%v3 in
  let s := (a + b - 2 * vertex cfg)%v3 in
  let t := (c + d - 2 * vertex cfg)%v3 in
  let qs := V3.cross q s in
  let rt := V3.cross r t in
  let m := - V3.dot s rt / V3.dot q rt in
  let n := - V3.dot t qs / V3.dot r qs in
  let limit := if negb (stripLengthTolerance cfg =? 0)
               then 1 + stripLengthTolerance cfg else 1 in
  nth_error storage i = Some hits ->
  V3.neq (spacePoint hits) V3.Zero = false ->
  usePerpProj cfg = false ->
  sp_m (vertexState cfg hits) = m
  /\ sp_limit (vertexState cfg hits) = limit
  /\ ((abs m <=? limit) = true ->
      sp_n (snd (resolveInLimit (vertexState cfg hits))) = n
      /\ ((abs n <=? limit) = true ->
          option_map spacePoint
            (nth_error (calculateSpacePoints dc dp storage (Some cfg)) i)
          = Some (0.5 * (a + b + m * q))%v3)).
Proof.
  intros a b c d q r s t qs rt m n limit Hi Hunset Hperp.
  destruct (vertexState_fields cfg hits)
    as (Hq & Hr & Hs & Ht & Hqs & Hrt & Hm & Hn & Hl).
  fold a b c d q r s t in Hq, Hr, Hs, Ht, Hqs, Hrt, Hm.
  fold qs in Hqs. fold rt in Hrt, Hm. fold m in Hm. fold limit in Hl.
  split; [exact Hm|]. split; [exact Hl|]. intros Hmlim.
  assert (Hres : resolveInLimit (vertexState cfg hits)
                 = (abs n <=? limit, set_n (vertexState cfg hits) n)).
  { unfold resolveInLimit. rewrite Hm, Hl, Hmlim.
    cbn [sp_n sp_limit set_n]. rewrite Hl, Ht, Hqs, Hr. reflexivity. }
  rewrite Hres. cbn [fst snd sp_n set_n]. split; [reflexivity|].
  intros Hnlim.
  rewrite calculateSpacePoints_nth, Hi. cbn [option_map withDefault].
  rewrite (solveCandidate_vertex _ _ Hunset Hperp), vertexSolve_point.
  rewrite Hres. cbn [fst snd]. rewrite Hnlim.
  unfold storedPoint. cbn [sp_m sp_q set_n]. rewrite Hm, Hq. reflexivity.
Qed.

Lemma vertex_mode_stores_point_at_m_witness :
  option_map spacePoint
    (nth_error
       (calculateSpacePoints
          (Fixture.config Fixture.vertexBelow 0 0 false) Fixture.parameters
          [Fixture.perpRejected]
          (Some (Fixture.config Fixture.vertexBelow 0 0 false))) 0)
  = Some (mkV3 0.25 0 0).
Proof.
  refine (proj2 (proj2 (proj2 (vertex_mode_stores_point_at_m
    (Fixture.config Fixture.vertexBelow 0 0 false) Fixture.parameters
    [Fixture.perpRejected] (Fixture.config Fixture.vertexBelow 0 0 false)
    0 Fixture.perpRejected _ _ _)) _) _); vm_compute; reflexivity.
Defined.

(** ** Perpendicular-projection mode *)

(** When the projection is accepted, the factor multiplied with [q] is
    the outcome of the comparison (1), not the parameter compared. *)
Lemma perp_proj_accepted_point dhCfg hits :
  V3.neq (spacePoint hits) V3.Zero = false ->
  usePerpProj dhCfg = true ->
  (lambdaOf hits <=? 0) = true ->
  spacePoint (solveCandidate dhCfg hits)
  = (fst (frontEnds hits) + 1 * frontAxis hits)%v3.
Proof.
  intros H0 Hp Hl. rewrite (solveCandidate_perp _ _ H0 Hp), Hl. reflexivity.
Qed.

(** C1, at the candidate [Fixture.perpAccepted]: the closest-approach
    parameter is -0.125, so [a + lambda * q] is (0.5, 0, 0); the position
    stored is (5, 0, 0), which is [a + q]. *)
Theorem perp_proj_accepted_stores_top_plus_axis :
  let cfg := Fixture.config V3.Zero 0 0 true in
  let hits := Fixture.perpAccepted in
  lambdaOf hits = -0.125
  /\ (fst (frontEnds hits) + lambdaOf hits * frontAxis hits)%v3 = mkV3 0.5 0 0
  /\ (fst (frontEnds hits) + frontAxis hits)%v3 = mkV3 5 0 0
  /\ map spacePoint
       (calculateSpacePoints cfg Fixture.parameters [hits] (Some cfg))
     = [mkV3 5 0 0].
Proof. vm_compute. repeat split; reflexivity. Qed.

(** The denominator [calcPerpProj] tests. *)
Lemma calcPerpProj_degenerate a c q r :
  (10e-7 <? abs (V3.dot q q - V3.dot q r * V3.dot q r)) = false ->
  calcPerpProj a c q r = 1.
Proof. intros H. unfold calcPerpProj. rewrite H. reflexivity. Qed.

Lemma one_is_positive : (0 <? 1) = true.
Proof. reflexivity. Qed.

(** C2 as stated fails at [Fixture.perpRejected]: its closest-approach
    parameter is +1, and with the vertex at (0,0,-1) its position is set
    to (0.25, 0, 0). *)
Lemma perp_proj_rejected_is_solved_from_vertex :
  let cfg := Fixture.config Fixture.vertexBelow 0 0 true in
  usePerpProj cfg = true
  /\ (0 <? lambdaOf Fixture.perpRejected) = true
  /\ map spacePoint
       (calculateSpacePoints cfg Fixture.parameters [Fixture.perpRejected]
                             (Some cfg))
     = [mkV3 0.25 0 0]
  /\ V3.neq (mkV3 0.25 0 0) V3.Zero = true.
Proof. vm_compute. repeat split; reflexivity. Qed.

(** C2, amended. In perpendicular-projection mode a candidate whose
    closest-approach parameter is strictly positive (the sentinel 1 of a
    denominator not above 10e-7 included) gets no projected point: the
    call treats it exactly as the same call without [usePerpProj] does,
    that is by the vertex-based solver and its recovery. *)
Theorem perp_proj_rejected_falls_through dc dp storage cfg i hits :
  nth_error storage i = Some hits ->
  usePerpProj cfg = true ->
  (0 <? lambdaOf hits) = true
  \/ (10e-7 <? abs (V3.dot (frontAxis hits) (frontAxis hits)
                    - V3.dot (frontAxis hits) (backAxis hits)
                      * V3.dot (frontAxis hits) (backAxis hits))) = false ->
  nth_error (calculateSpacePoints dc dp storage (Some cfg)) i
  = nth_error (calculateSpacePoints dc dp storage
                 (Some (with_usePerpProj cfg false))) i.
Proof.
  intros Hi Hp Hl.
  assert (Hpos : (lambdaOf hits <=? 0) = false).
  { apply FloatFacts.ltb_true_leb_false.
    destruct Hl as [Hl|Hl]; [exact Hl|].
    unfold lambdaOf. rewrite (calcPerpProj_degenerate _ _ _ _ Hl).
    exact one_is_positive. }
  rewrite !calculateSpacePoints_nth, Hi. cbn [option_map withDefault].
  f_equal.
  destruct (V3.neq (spacePoint hits) V3.Zero) eqn:H0.
  - rewrite !solveCandidate_skip by exact H0. reflexivity.
  - rewrite (solveCandidate_perp _ _ H0 Hp), Hpos.
    rewrite (solveCandidate_vertex (with_usePerpProj cfg false) _ H0 eq_refl).
    reflexivity.
Qed.

Lemma perp_proj_rejected_falls_through_witness :
  nth_error
    (calculateSpacePoints
       (Fixture.config Fixture.vertexBelow 0 0 true) Fixture.parameters
       [Fixture.perpRejected]
       (Some (Fixture.config Fixture.vertexBelow 0 0 true))) 0
  = nth_error
      (calculateSpacePoints
         (Fixture.config Fixture.vertexBelow 0 0 true) Fixture.parameters
         [Fixture.perpRejected]
         (Some (with_usePerpProj
                  (Fixture.config Fixture.vertexBelow 0 0 true) false))) 0.
Proof.
  apply (perp_proj_rejected_falls_through
           (Fixture.config Fixture.vertexBelow 0 0 true) Fixture.parameters
           [Fixture.perpRejected]
           (Fixture.config Fixture.vertexBelow 0 0 true) 0
           Fixture.perpRejected).
  - reflexivity.
  - reflexivity.
  - left. vm_compute. reflexivity.
Defined.

(** ** The "unset" position *)

(** C3 as stated fails at [Fixture.crossingAtOrigin]: with the vertex at
    (0,0,-1) both parameters are within the limit and the position solved
    is the origin; a second call, with the vertex at (0.5,0,-1), solves
    the candidate again and moves it to (0.25, 0, 0). *)
Lemma origin_solution_is_solved_again :
  let cfgA := Fixture.config Fixture.vertexBelow 0 0 false in
  let cfgB := Fixture.config (mkV3 0.5 0 (-1)) 0 0 false in
  let once := calculateSpacePoints cfgA Fixture.parameters
                [Fixture.crossingAtOrigin] (Some cfgA) in
  fst (resolveInLimit (vertexState cfgA Fixture.crossingAtOrigin)) = true
  /\ map spacePoint once = [mkV3 0 0 0]
  /\ map spacePoint
       (calculateSpacePoints cfgA Fixture.parameters once (Some cfgB))
     = [mkV3 0.25 0 0].
Proof. vm_compute. repeat split; reflexivity. Qed.

(** C3, amended. The "unset" position is the zero vector, that is the
    coordinate origin: a candidate made by the matcher starts there,
    [calculateSpacePoints] leaves alone exactly the candidates whose
    position differs from the zero vector in some coefficient and runs
    the solver on every candidate whose position equals it. *)
Theorem unset_position_is_the_zero_vector dc dp storage cfg i hits :
  nth_error storage i = Some hits ->
  V3.Zero = mkV3 0 0 0
  /\ (forall front back, spacePoint (newSpacePoint front back) = V3.Zero)
  /\ (V3.neq (spacePoint hits) V3.Zero = true ->
      nth_error (calculateSpacePoints dc dp storage cfg) i = Some hits)
  /\ (V3.neq (spacePoint hits) V3.Zero = false ->
      nth_error (calculateSpacePoints dc dp storage cfg) i
      = Some (snd (solveAttempt (withDefault dc cfg) freshParameters hits))).
Proof.
  intros Hi. split; [reflexivity|]. split; [reflexivity|].
  rewrite calculateSpacePoints_nth, Hi. cbn [option_map].
  split; intros H0.
  - rewrite solveCandidate_skip by exact H0. reflexivity.
  - unfold solveCandidate, calculateSpacePoints_body. rewrite H0. reflexivity.
Qed.

Lemma unset_position_is_the_zero_vector_witness :
  nth_error
    (calculateSpacePoints
       (Fixture.config Fixture.vertexBelow 0 0 false) Fixture.parameters
       [Fixture.perpRejected] None) 0
  = Some (snd (solveAttempt (Fixture.config Fixture.vertexBelow 0 0 false)
                 freshParameters Fixture.perpRejected)).
Proof.
  refine (proj2 (proj2 (proj2 (unset_position_is_the_zero_vector
    (Fixture.config Fixture.vertexBelow 0 0 false) Fixture.parameters
    [Fixture.perpRejected] None 0 Fixture.perpRejected _))) _);
    reflexivity.
Defined.

(** ** Recovery *)

Ltac fields :=
  cbn [fst snd sp_q sp_r sp_s sp_t sp_qs sp_rt sp_qmag sp_m sp_n sp_limit
       sp_limitExtended set_m set_n set_limit set_qmag set_limitExtended
       set_qr set_st].

Ltac settle :=
  repeat (split || intro); first [reflexivity | congruence].

(** [recoverSpacePoint], with its intermediate values named. *)
Lemma recoverSpacePoint_cases p cfg :
  let m := sp_m p in
  let n := nOf p in
  let sec := secOnFirstScale p in
  let limExt := limitExtendedOf p cfg in
  let up := if (n - 1) * sec <? m - 1 then m - 1 else (n - 1) * sec in
  let down := if - (n + 1) * sec <? - (m + 1) then - (m + 1)
              else - (n + 1) * sec in
  let r := recoverSpacePoint p cfg in
  fst r =
    (if stripLengthGapTolerance cfg <=? 0 then false
     else if limExt <? abs m then false
     else if limExt <? abs n then false
     else if (1 <? m) && (1 <? n)
          then (abs (m - up) <? sp_limit p) && (abs (n - up / sec) <? sp_limit p)
     else if (m <? -1) && (n <? -1)
          then (abs (m + down) <? sp_limit p)
               && (abs (n + down / sec) <? sp_limit p)
     else false)
  /\ sp_q (snd r) = sp_q p
  /\ ((stripLengthGapTolerance cfg <=? 0) = false ->
      (limExt <? abs m) = false -> (limExt <? abs n) = false ->
      (((1 <? m) && (1 <? n)) = true ->
       sp_m (snd r) = m - up /\ sp_n (snd r) = n - up / sec)
      /\ (((1 <? m) && (1 <? n)) = false -> ((m <? -1) && (n <? -1)) = true ->
          sp_m (snd r) = m + down /\ sp_n (snd r) = n + down / sec)).
Proof.
  unfold recoverSpacePoint, limitExtendedOf, secOnFirstScale, nOf, qmagOf.
  cbn zeta.
  destruct (stripLengthGapTolerance cfg <=? 0); [fields; settle|].
  fields.
  destruct (_ <? abs (sp_m p)); [fields; settle|].
  destruct (sp_n p =? 0); fields;
    (destruct (_ <? abs _); [fields; settle|]);
    (destruct ((1 <? sp_m p) && (1 <? _)); [fields; settle|]);
    (destruct ((sp_m p <? -1) && (_ <? -1)); fields; settle).
Qed.

Lemma resolveInLimit_keeps_q st :
  sp_q (snd (resolveInLimit st)) = sp_q st.
Proof.
  unfold resolveInLimit.
  destruct (abs (sp_m st) <=? sp_limit st); reflexivity.
Qed.

(** The point stored after a recovery that succeeded. *)
Lemma recovered_point cfg hits p :
  V3.neq (spacePoint hits) V3.Zero = false ->
  usePerpProj cfg = false ->
  resolveInLimit (vertexState cfg hits) = (false, p) ->
  fst (recoverSpacePoint p cfg) = true ->
  spacePoint (solveCandidate cfg hits)
  = (0.5 * (fst (frontEnds hits) + snd (frontEnds hits)
            + sp_m (snd (recoverSpacePoint p cfg)) * frontAxis hits))%v3.
Proof.
  intros H0 Hp Hres Hrec.
  rewrite (solveCandidate_vertex _ _ H0 Hp), vertexSolve_point.
  rewrite Hres. cbn [fst snd]. rewrite Hrec. unfold storedPoint.
  destruct (recoverSpacePoint_cases p cfg) as (_ & Hq & _).
  cbn zeta in Hq. rewrite Hq.
  replace (sp_q p) with (sp_q (snd (resolveInLimit (vertexState cfg hits))))
    by (rewrite Hres; reflexivity).
  rewrite resolveInLimit_keeps_q.
  destruct (vertexState_fields cfg hits) as (Hq' & _).
  rewrite Hq'. reflexivity.
Qed.


(** C6. [recoverSpacePoint] answers false when the gap tolerance is not
    positive or when [|m|] or [|n|] exceeds
    [limitExtended = limit + stripLengthGapTolerance / |q|].  Otherwise,
    when both parameters are above 1 (below -1), it moves [m] by the
    larger of [m]'s overshoot and [n]'s overshoot scaled by
    [secOnFirstScale = (q.r)/|q|^2], moves [n] by that amount divided by
    the scale, and answers whether both corrected values are strictly
    within the limit; after a successful recovery the candidate's
    position is [0.5 * (a + b + m * q)] with the corrected [m]. *)
Theorem recovery_follows_the_overshoot_rule p cfg :
  let m := sp_m p in
  let n := nOf p in
  let limit := sp_limit p in
  let limitExtended :=
    limit + stripLengthGapTolerance cfg / V3.norm (sp_q p) in
  let secOnFirst :=
    V3.dot (sp_q p) (sp_r p) / (V3.norm (sp_q p) * V3.norm (sp_q p)) in
  let result := recoverSpacePoint p cfg in
  ((stripLengthGapTolerance cfg <=? 0) = true
   \/ (limitExtended <? abs m) = true
   \/ (limitExtended <? abs n) = true ->
   fst result = false)
  /\ ((stripLengthGapTolerance cfg <=? 0) = false ->
      (limitExtended <? abs m) = false ->
      (limitExtended <? abs n) = false ->
      (((1 <? m) && (1 <? n)) = true ->
       let mOvershoot := m - 1 in
       let nOvershoot := (n - 1) * secOnFirst in
       let biggerOvershoot :=
         if nOvershoot <? mOvershoot then mOvershoot else nOvershoot in
       sp_m (snd result) = m - biggerOvershoot
       /\ sp_n (snd result) = n - biggerOvershoot / secOnFirst
       /\ fst result
          = (abs (m - biggerOvershoot) <? limit)
            && (abs (n - biggerOvershoot / secOnFirst) <? limit))
      /\ (((m <? -1) && (n <? -1)) = true ->
          let mOvershoot := - (m + 1) in
          let nOvershoot := - (n + 1) * secOnFirst in
          let biggerOvershoot :=
            if nOvershoot <? mOvershoot then mOvershoot else nOvershoot in
          sp_m (snd result) = m + biggerOvershoot
          /\ sp_n (snd result) = n + biggerOvershoot / secOnFirst
          /\ fst result
             = (abs (m + biggerOvershoot) <? limit)
               && (abs (n + biggerOvershoot / secOnFirst) <? limit)))
  /\ (forall hits,
        V3.neq (spacePoint hits) V3.Zero = false ->
        usePerpProj cfg = false ->
        resolveInLimit (vertexState cfg hits) = (false, p) ->
        fst result = true ->
        spacePoint (solveCandidate cfg hits)
        = (0.5 * (fst (frontEnds hits) + snd (frontEnds hits)
                  + sp_m (snd result) * frontAxis hits))%v3).
Proof.
  intros m n limit limitExtended secOnFirst result.
  destruct (recoverSpacePoint_cases p cfg) as (Hfst & _ & Hmn).
  cbn zeta in Hfst, Hmn.
  unfold limitExtendedOf, secOnFirstScale, qmagOf in Hfst, Hmn.
  fold m n limit limitExtended secOnFirst result in Hfst, Hmn.
  split; [|split].
  - intros [H|[H|H]]; rewrite Hfst.
    + rewrite H. reflexivity.
    + rewrite H. destruct (_ <=? 0); reflexivity.
    + rewrite H. destruct (_ <=? 0); [reflexivity|].
      destruct (_ <? abs m); reflexivity.
  - intros Hg Hm Hn. specialize (Hmn Hg Hm Hn). destruct Hmn as (Hup & Hdown).
    split.
    + intros Hb. specialize (Hup Hb). cbn zeta. destruct Hup as (-> & ->).
      split; [reflexivity|]. split; [reflexivity|].
      rewrite Hfst, Hg, Hm, Hn, Hb. reflexivity.
    + intros Hb.
      assert (Hnot : ((1 <? m) && (1 <? n)) = false).
      { apply andb_true_iff in Hb. destruct Hb as (Hb & _).
        destruct (1 <? m) eqn:E; [|reflexivity].
        apply FloatFacts.above_one_not_below_minus_one in E. congruence. }
      specialize (Hdown Hnot Hb). cbn zeta. destruct Hdown as (-> & ->).
      split; [reflexivity|]. split; [reflexivity|].
      rewrite Hfst, Hg, Hm, Hn, Hnot, Hb. reflexivity.
  - intros hits H0 Hp Hres Hrec. apply recovered_point; assumption.
Qed.

Lemma recovery_follows_the_overshoot_rule_witness :
  spacePoint (solveCandidate (Fixture.config Fixture.vertexBelow 0.5 1 false)
                             Fixture.overshooting)
  = mkV3 0.5 0 0.
Proof.
  refine (proj2 (proj2 (recovery_follows_the_overshoot_rule
    (snd (resolveInLimit
            (vertexState (Fixture.config Fixture.vertexBelow 0.5 1 false)
                         Fixture.overshooting)))
    (Fixture.config Fixture.vertexBelow 0.5 1 false)))
    Fixture.overshooting _ _ _ _); vm_compute; reflexivity.
Defined.




(** ** The scaling factor of the correction *)

(** *** Magnitudes of doubles

    The operations of binary64 are specified through a rounding that
    shifts a mantissa to 53 digits.  What follows bounds the magnitude of
    a rounded result by the magnitudes of the operands, for operands far
    from the ends of the range of doubles. *)

Module FloatRange.

#[local] Open Scope Z_scope.

(** The number of binary digits of a mantissa is its logarithm plus one. *)
Lemma digits2_size (p : positive) : digits2_pos p = Pos.size p.
Proof. induction p as [p IH|p IH|]; cbn; congruence. Qed.

Lemma digits2_log2 (p : positive) :
  Zpos (digits2_pos p) = Z.log2 (Zpos p) + 1.
Proof.
  destruct p as [p|p|]; cbn [digits2_pos Z.log2]; rewrite ?digits2_size; lia.
Qed.

Lemma Zdigits2_log2 (m : Z) : 0 < m -> Zdigits2 m = Z.log2 m + 1.
Proof.
  destruct m as [|p|p]; try lia. intros _. apply digits2_log2.
Qed.

(** Shifting a mantissa to the right divides it by a power of two. *)
Lemma shr_1_m (mrs : shr_record) :
  0 <= shr_m mrs -> shr_m (shr_1 mrs) = shr_m mrs / 2.
Proof.
  destruct mrs as [m r s]. cbn [shr_m].
  destruct m as [|[p|p|]|p]; intros H; try lia; cbn [shr_1 shr_m].
  - reflexivity.
  - apply Z.div_unique with 1; lia.
  - apply Z.div_unique with 0; lia.
  - reflexivity.
Qed.

Lemma iter_shr_1_m (p : positive) (mrs : shr_record) :
  0 <= shr_m mrs ->
  shr_m (SpecFloat.iter_pos shr_1 p mrs) = shr_m mrs / 2 ^ Zpos p.
Proof.
  revert mrs. induction p as [p IH|p IH|]; intros mrs H;
    cbn [SpecFloat.iter_pos].
  - assert (H1 : 0 <= shr_m (shr_1 mrs)).
    { rewrite shr_1_m by exact H. apply Z.div_pos; lia. }
    assert (H2 : 0 <= shr_m (SpecFloat.iter_pos shr_1 p (shr_1 mrs))).
    { rewrite IH by exact H1. apply Z.div_pos; lia. }
    rewrite (IH _ H2), (IH _ H1), (shr_1_m _ H).
    rewrite !Z.div_div by lia. f_equal.
    rewrite <- !Z.pow_add_r by lia. rewrite <- (Z.pow_1_r 2) at 1.
    rewrite <- Z.pow_add_r by lia. f_equal. lia.
  - assert (H2 : 0 <= shr_m (SpecFloat.iter_pos shr_1 p mrs)).
    { rewrite IH by exact H. apply Z.div_pos; lia. }
    rewrite (IH _ H2), (IH _ H).
    rewrite !Z.div_div by lia. f_equal.
    rewrite <- Z.pow_add_r by lia. f_equal. lia.
  - rewrite (shr_1_m _ H). reflexivity.
Qed.

(** The shift the rounding applies to a mantissa [m] at exponent [e]. *)
Definition shiftOf (m e : Z) : Z :=
  Z.max 0 (fexp prec emax (Zdigits2 m + e) - e).

Lemma shr_fexp_m (m e : Z) (l : location) :
  0 <= m ->
  shr_m (fst (shr_fexp prec emax m e l)) = m / 2 ^ shiftOf m e
  /\ snd (shr_fexp prec emax m e l) = e + shiftOf m e.
Proof.
  intros H. unfold shr_fexp, shr, shiftOf.
  assert (Hm : shr_m (shr_record_of_loc m l) = m)
    by (destruct l as [|[]]; reflexivity).
  destruct (fexp prec emax (Zdigits2 m + e) - e) as [|p|p] eqn:E;
    cbn [fst snd].
  - rewrite Hm, Z.max_id. cbn. rewrite Z.div_1_r. lia.
  - rewrite iter_shr_1_m by lia. rewrite Hm.
    rewrite Z.max_r by lia. split; reflexivity.
  - rewrite Hm, Z.max_l by lia. cbn. rewrite Z.div_1_r. lia.
Qed.

Lemma round_nearest_even_bounds (m : Z) (l : location) :
  m <= round_nearest_even m l <= m + 1.
Proof.
  destruct l as [|[]]; cbn [round_nearest_even]; try lia.
  destruct (Z.even m); lia.
Qed.

(** The rounding, as a shift, a step of at most one and a second shift. *)
Lemma binary_round_aux_steps (s : bool) (m e : Z) (l : location) :
  0 <= m ->
  exists m2,
    m / 2 ^ shiftOf m e <= m2 <= m / 2 ^ shiftOf m e + 1
    /\ binary_round_aux prec emax s m e l
       = match m2 / 2 ^ shiftOf m2 (e + shiftOf m e) with
         | Z0 => S754_zero s
         | Zpos m3 =>
             if e + shiftOf m e + shiftOf m2 (e + shiftOf m e) <=? emax - prec
             then S754_finite s m3
                    (e + shiftOf m e + shiftOf m2 (e + shiftOf m e))
             else S754_infinity s
         | Zneg _ => S754_nan
         end.
Proof.
  intros H. unfold binary_round_aux.
  destruct (shr_fexp_m m e l H) as (Hm1 & He1).
  destruct (shr_fexp prec emax m e l) as [mrs1 e1]. cbn [fst snd] in Hm1, He1.
  set (m2 := round_nearest_even (shr_m mrs1) (loc_of_shr_record mrs1)).
  assert (Hm2 : shr_m mrs1 <= m2 <= shr_m mrs1 + 1)
    by apply round_nearest_even_bounds.
  assert (H1 : 0 <= shr_m mrs1).
  { rewrite Hm1. apply Z.div_pos; [lia|]. apply Z.pow_pos_nonneg; [lia|].
    unfold shiftOf. lia. }
  destruct (shr_fexp_m m2 e1 loc_Exact ltac:(lia)) as (Hm3 & He3).
  destruct (shr_fexp prec emax m2 e1 loc_Exact) as [mrs3 e3].
  cbn [fst snd] in Hm3, He3.
  exists m2. split; [rewrite <- Hm1; exact Hm2|].
  rewrite Hm3, He3, He1. reflexivity.
Qed.


Lemma fexp_binary64 (x : Z) : fexp prec emax x = Z.max (x - 53) (-1074).
Proof. reflexivity. Qed.

Lemma shiftOf_pos (m e : Z) :
  0 < m ->
  shiftOf m e = Z.max 0 (Z.max (Z.log2 m + 1 + e - 53) (-1074) - e).
Proof.
  intros H. unfold shiftOf. rewrite fexp_binary64, Zdigits2_log2 by exact H.
  reflexivity.
Qed.

Lemma shiftOf_zero (e : Z) :
  shiftOf 0 e = Z.max 0 (Z.max (e - 53) (-1074) - e).
Proof. unfold shiftOf. rewrite fexp_binary64. reflexivity. Qed.

Lemma div_pow2_log2 (m n : Z) :
  0 < m -> 0 <= n <= Z.log2 m ->
  0 < m / 2 ^ n /\ Z.log2 (m / 2 ^ n) = Z.log2 m - n.
Proof.
  intros Hm Hn. split.
  - apply Z.lt_le_trans with 1; [lia|].
    apply Z.div_le_lower_bound; [apply Z.pow_pos_nonneg; lia|].
    rewrite Z.mul_1_r. apply Z.le_trans with (2 ^ Z.log2 m).
    + apply Z.pow_le_mono_r; lia.
    + apply (Z.log2_spec m Hm).
  - rewrite <- Z.shiftr_div_pow2 by lia. rewrite Z.log2_shiftr by exact Hm.
    lia.
Qed.

Lemma div_pow2_small (m n : Z) :
  0 <= m -> Z.log2 m < n -> m / 2 ^ n = 0.
Proof.
  intros Hm Hn. apply Z.div_small. split; [exact Hm|].
  destruct (Z.eq_dec m 0) as [->|Hz].
  - apply Z.pow_pos_nonneg; [lia|]. cbn in Hn. lia.
  - apply Z.log2_lt_pow2; lia.
Qed.

(** Magnitudes of a binary64 value: [SFmagLe k f] says |f| < 2^k,
    [SFnormal lo hi f] that [f] is a normal number whose exponent lies
    between [lo] and [hi]. *)
Definition SFmagLe (k : Z) (f : spec_float) : Prop :=
  match f with
  | S754_zero _ => True
  | S754_finite _ p e => Z.log2 (Zpos p) + 1 + e <= k
  | _ => False
  end.

Definition SFnormal (lo hi : Z) (f : spec_float) : Prop :=
  match f with
  | S754_finite _ p e => Z.log2 (Zpos p) = 52 /\ lo <= e <= hi
  | _ => False
  end.

(** Rounding a mantissa of at least 53 digits whose magnitude is in the
    normal range gives a normal number, at most one binade up. *)
Lemma binary_round_aux_normal (s : bool) (m e : Z) (l : location) :
  0 < m -> 52 <= Z.log2 m ->
  -1021 <= Z.log2 m + 1 + e <= 1023 ->
  SFnormal (Z.log2 m + e - 52) (Z.log2 m + e - 51)
           (binary_round_aux prec emax s m e l).
Proof.
  intros Hm Hlog Hg.
  destruct (binary_round_aux_steps s m e l ltac:(lia)) as (m2 & Hm2 & ->).
  assert (Hn1 : shiftOf m e = Z.log2 m - 52)
    by (rewrite shiftOf_pos by exact Hm; lia).
  rewrite Hn1 in *.
  destruct (div_pow2_log2 m (Z.log2 m - 52) Hm ltac:(lia)) as (Hm1 & Hl1).
  pose proof (Z.log2_spec _ Hm1) as Hs1. rewrite Hl1 in Hs1.
  replace (Z.log2 m - (Z.log2 m - 52)) with 52 in Hs1 by lia.
  change (2 ^ 52) with 4503599627370496 in Hs1.
  change (2 ^ Z.succ 52) with 9007199254740992 in Hs1.
  destruct (Z.eq_dec m2 9007199254740992) as [->|Hne].
  - rewrite shiftOf_pos by lia.
    change (Z.log2 9007199254740992) with 53.
    replace (Z.max 0 (Z.max (53 + 1 + (e + (Z.log2 m - 52)) - 53) (-1074)
                      - (e + (Z.log2 m - 52)))) with 1 by lia.
    change (9007199254740992 / 2 ^ 1) with (Zpos 4503599627370496).
    cbv iota beta.
    replace (e + (Z.log2 m - 52) + 1 <=? emax - prec) with true
      by (symmetry; apply Z.leb_le; change (emax - prec) with 971; lia).
    cbn [SFnormal]. split; [reflexivity|lia].
  - assert (Hl2 : Z.log2 m2 = 52).
    { apply Z.log2_unique; [lia|].
      change (2 ^ 52) with 4503599627370496.
      change (2 ^ Z.succ 52) with 9007199254740992. lia. }
    rewrite shiftOf_pos by lia. rewrite Hl2.
    replace (Z.max 0 (Z.max (52 + 1 + (e + (Z.log2 m - 52)) - 53) (-1074)
                      - (e + (Z.log2 m - 52)))) with 0 by lia.
    rewrite Z.pow_0_r, Z.div_1_r.
    destruct m2 as [|p|p]; try lia.
    replace (e + (Z.log2 m - 52) + 0 <=? emax - prec) with true
      by (symmetry; apply Z.leb_le; change (emax - prec) with 971; lia).
    cbn [SFnormal]. split; [exact Hl2|lia].
Qed.


(** Rounding never raises a magnitude by more than one binade, and
    below 2^1023 it does not overflow. *)
Lemma binary_round_aux_bounded (s : bool) (m e : Z) (l : location) (k : Z) :
  0 <= m -> e <= fexp prec emax (Zdigits2 m + e) ->
  Zdigits2 m + e <= k -> -1074 <= k <= 1023 ->
  SFmagLe (k + 1) (binary_round_aux prec emax s m e l).
Proof.
  intros Hm He Hg Hk.
  destruct (binary_round_aux_steps s m e l Hm) as (m2 & Hm2 & ->).
  assert (Hn1 : e + shiftOf m e = Z.max (Zdigits2 m + e - 53) (-1074)).
  { unfold shiftOf. rewrite fexp_binary64 in *. lia. }
  set (e1 := e + shiftOf m e) in *.
  assert (Hpow : 0 < 2 ^ shiftOf m e)
    by (apply Z.pow_pos_nonneg; unfold shiftOf; lia).
  assert (Hm1 : 0 <= m / 2 ^ shiftOf m e) by (apply Z.div_pos; lia).
  destruct (Z.eq_dec m2 0) as [->|Hm2pos].
  { rewrite Z.div_0_l; [exact I|].
    apply Z.pow_nonzero; [lia|unfold shiftOf; lia]. }
  assert (HA : Z.log2 m2 + e1 <= k).
  { destruct (Z.eq_dec (m / 2 ^ shiftOf m e) 0) as [Hz|Hnz].
    - assert (m2 = 1) by lia. subst m2. cbn [Z.log2]. lia.
    - assert (Hmpos : 0 < m).
      { destruct (Z.eq_dec m 0) as [->|]; [|lia].
        rewrite Z.div_0_l in Hnz by lia. congruence. }
      assert (Hle : shiftOf m e <= Z.log2 m).
      { destruct (Z_lt_le_dec (Z.log2 m) (shiftOf m e)) as [Hlt|]; [|lia].
        rewrite (div_pow2_small m _ Hm Hlt) in Hnz. congruence. }
      destruct (div_pow2_log2 m (shiftOf m e) Hmpos) as (_ & Hl1).
      { split; [unfold shiftOf; lia|exact Hle]. }
      pose proof (Z.log2_le_mono m2 (Z.succ (m / 2 ^ shiftOf m e))
                    ltac:(lia)) as Hmono.
      pose proof (Z.log2_succ_le (m / 2 ^ shiftOf m e)) as Hsucc.
      rewrite Hl1 in Hsucc.
      rewrite Zdigits2_log2 in Hg by exact Hmpos. unfold e1. lia. }
  assert (Hn2 : shiftOf m2 e1
                = Z.max 0 (Z.max (Z.log2 m2 + 1 + e1 - 53) (-1074) - e1))
    by (apply shiftOf_pos; lia).
  destruct (div_pow2_log2 m2 (shiftOf m2 e1) ltac:(lia)) as (Hm3 & Hl3).
  { pose proof (Z.log2_nonneg m2). lia. }
  destruct (m2 / 2 ^ shiftOf m2 e1) as [|p|p] eqn:E; try lia.
  replace (e1 + shiftOf m2 e1 <=? emax - prec) with true
    by (symmetry; apply Z.leb_le; change (emax - prec) with 971; lia).
  cbn [SFmagLe]. lia.
Qed.


Lemma SFmagLe_mono (k k' : Z) (f : spec_float) :
  SFmagLe k f -> k <= k' -> SFmagLe k' f.
Proof. destruct f; cbn [SFmagLe]; try tauto. lia. Qed.

Lemma SFnormal_mono (lo hi lo' hi' : Z) (f : spec_float) :
  SFnormal lo hi f -> lo' <= lo -> hi <= hi' -> SFnormal lo' hi' f.
Proof. destruct f; cbn [SFnormal]; try tauto. lia. Qed.

Lemma SFnormal_magLe (lo hi : Z) (f : spec_float) :
  SFnormal lo hi f -> SFmagLe (53 + hi) f.
Proof. destruct f; cbn [SFnormal SFmagLe]; try tauto. lia. Qed.

(** Every double is canonical: 53 digits, or fewer at the least
    exponent. *)
Lemma valid_finite (x : float) (s : bool) (p : positive) (e : Z) :
  Prim2SF x = S754_finite s p e ->
  Z.max (Z.log2 (Zpos p) + 1 + e - 53) (-1074) = e /\ e <= 971.
Proof.
  intros H. pose proof (Prim2SF_valid x) as V. rewrite H in V.
  unfold valid_binary, SpecFloat.valid_binary, bounded, canonical_mantissa
    in V.
  apply andb_true_iff in V. destruct V as (V1 & V2).
  apply Z.eqb_eq in V1. apply Z.leb_le in V2.
  rewrite fexp_binary64, digits2_log2 in V1.
  change (emax - prec) with 971 in V2. lia.
Qed.

(** *** Products *)

Lemma SFmul_bounded (p1 p2 : positive) (e1 e2 : Z) (s : bool) (k : Z) :
  Z.max (Z.log2 (Zpos p1) + 1 + e1 - 53) (-1074) = e1 ->
  Z.max (Z.log2 (Zpos p2) + 1 + e2 - 53) (-1074) = e2 ->
  Z.log2 (Zpos p1) + 1 + e1 + (Z.log2 (Zpos p2) + 1 + e2) < k ->
  -1074 < k <= 1024 ->
  SFmagLe k (binary_round_aux prec emax s (Zpos (p1 * p2)) (e1 + e2)
               loc_Exact).
Proof.
  intros C1 C2 Hk Hr.
  pose proof (Z.log2_mul_below (Zpos p1) (Zpos p2) ltac:(lia) ltac:(lia)).
  pose proof (Z.log2_mul_above (Zpos p1) (Zpos p2) ltac:(lia) ltac:(lia)).
  pose proof (Z.log2_nonneg (Zpos p1)). pose proof (Z.log2_nonneg (Zpos p2)).
  apply SFmagLe_mono with (k - 1 + 1); [|lia].
  apply binary_round_aux_bounded; try lia.
  - rewrite fexp_binary64, Zdigits2_log2, Pos2Z.inj_mul by lia. lia.
  - rewrite Zdigits2_log2, Pos2Z.inj_mul by lia. lia.
Qed.

Lemma SFmul_normal (p1 p2 : positive) (e1 e2 : Z) (s : bool) :
  Z.log2 (Zpos p1) = 52 -> Z.log2 (Zpos p2) = 52 ->
  -1126 <= e1 + e2 <= 917 ->
  SFnormal (e1 + e2 + 52) (e1 + e2 + 54)
    (binary_round_aux prec emax s (Zpos (p1 * p2)) (e1 + e2) loc_Exact).
Proof.
  intros L1 L2 He.
  pose proof (Z.log2_mul_below (Zpos p1) (Zpos p2) ltac:(lia) ltac:(lia)).
  pose proof (Z.log2_mul_above (Zpos p1) (Zpos p2) ltac:(lia) ltac:(lia)).
  rewrite Pos2Z.inj_mul.
  eapply SFnormal_mono; [apply binary_round_aux_normal| |]; lia.
Qed.


(** *** Quotients *)

(** The digits of an integer quotient. *)
Lemma div_log2 (a b : Z) :
  0 < a -> 0 < b ->
  0 <= a / b
  /\ (0 < a / b -> Z.log2 (a / b) <= Z.log2 a - Z.log2 b)
  /\ (Z.log2 b + 1 <= Z.log2 a ->
      0 < a / b /\ Z.log2 a - Z.log2 b - 1 <= Z.log2 (a / b)).
Proof.
  intros Ha Hb.
  pose proof (Z.log2_spec b Hb) as Sb.
  pose proof (Z.log2_nonneg b) as Nb.
  assert (Hp : 0 < 2 ^ Z.log2 b) by (apply Z.pow_pos_nonneg; lia).
  split; [apply Z.div_pos; lia|]. split.
  - intros Hq.
    assert (Hle : a / b <= a / 2 ^ Z.log2 b)
      by (apply Z.div_le_compat_l; lia).
    destruct (Z_lt_le_dec (Z.log2 a) (Z.log2 b)) as [Hlt|Hge].
    + rewrite (div_pow2_small a _ ltac:(lia) Hlt) in Hle. lia.
    + destruct (div_pow2_log2 a (Z.log2 b) Ha ltac:(lia)) as (_ & <-).
      apply Z.log2_le_mono. exact Hle.
  - intros Hlog.
    assert (Hle : a / 2 ^ (Z.log2 b + 1) <= a / b).
    { apply Z.div_le_compat_l; [lia|]. split; [exact Hb|].
      replace (Z.log2 b + 1) with (Z.succ (Z.log2 b)) by lia. lia. }
    destruct (div_pow2_log2 a (Z.log2 b + 1) Ha ltac:(lia)) as (Hpos & Hl).
    split; [lia|].
    replace (Z.log2 a - Z.log2 b - 1) with (Z.log2 a - (Z.log2 b + 1)) by lia.
    rewrite <- Hl. apply Z.log2_le_mono. exact Hle.
Qed.

(** The core of the division: the dividend is shifted to the left by
    [s] places and divided as an integer. *)
Lemma SFdiv_core_binary_spec (p1 p2 : positive) (e1 e2 : Z) :
  let e' := Z.min (Z.max (Z.log2 (Zpos p1) + e1 - (Z.log2 (Zpos p2) + e2) - 53)
                         (-1074)) (e1 - e2) in
  exists l,
    SFdiv_core_binary prec emax (Zpos p1) e1 (Zpos p2) e2
    = (Zpos p1 * 2 ^ (e1 - e2 - e') / Zpos p2, e', l).
Proof.
  intros e'. unfold SFdiv_core_binary.
  rewrite fexp_binary64, !Zdigits2_log2 by lia.
  replace (Z.log2 (Zpos p1) + 1 + e1 - (Z.log2 (Zpos p2) + 1 + e2) - 53)
    with (Z.log2 (Zpos p1) + e1 - (Z.log2 (Zpos p2) + e2) - 53) by lia.
  fold e'.
  assert (Hs : 0 <= e1 - e2 - e') by (unfold e'; lia).
  set (m' := match e1 - e2 - e' with
             | 0 => Zpos p1
             | Zpos _ => Z.shiftl (Zpos p1) (e1 - e2 - e')
             | Zneg _ => 0
             end).
  assert (Hm' : m' = Zpos p1 * 2 ^ (e1 - e2 - e')).
  { unfold m'. destruct (e1 - e2 - e') as [|d|d] eqn:E.
    - rewrite Z.pow_0_r. lia.
    - rewrite Z.shiftl_mul_pow2 by lia. reflexivity.
    - lia. }
  rewrite <- Hm'. unfold Z.div.
  destruct (Z.div_eucl m' (Zpos p2)) as [q r].
  eexists. reflexivity.
Qed.

Lemma SFdiv_normal (p1 p2 : positive) (e1 e2 : Z) (s : bool) :
  Z.log2 (Zpos p1) = 52 -> Z.log2 (Zpos p2) = 52 ->
  -1021 <= e1 - e2 <= 1022 ->
  SFnormal (e1 - e2 - 53) (e1 - e2 - 51)
    (let '(mz, ez, lz) :=
       SFdiv_core_binary prec emax (Zpos p1) e1 (Zpos p2) e2 in
     binary_round_aux prec emax s mz ez lz).
Proof.
  intros L1 L2 He.
  destruct (SFdiv_core_binary_spec p1 p2 e1 e2) as (l & ->).
  rewrite L1, L2.
  replace (Z.min (Z.max (52 + e1 - (52 + e2) - 53) (-1074)) (e1 - e2))
    with (e1 - e2 - 53) by lia.
  replace (e1 - e2 - (e1 - e2 - 53)) with 53 by lia.
  assert (La : Z.log2 (Zpos p1 * 2 ^ 53) = 105).
  { rewrite Z.log2_mul_pow2 by lia. lia. }
  destruct (div_log2 (Zpos p1 * 2 ^ 53) (Zpos p2) ltac:(lia) ltac:(lia))
    as (_ & Hup & Hlow).
  rewrite La, L2 in Hup, Hlow.
  destruct (Hlow ltac:(lia)) as (Hq & Hl). specialize (Hup Hq).
  eapply SFnormal_mono; [apply binary_round_aux_normal| |]; lia.
Qed.

Lemma SFdiv_bounded (p1 p2 : positive) (e1 e2 : Z) (s : bool) (k : Z) :
  Z.max (Z.log2 (Zpos p1) + 1 + e1 - 53) (-1074) = e1 ->
  Z.log2 (Zpos p2) = 52 ->
  Z.log2 (Zpos p1) + 1 + e1 - (53 + e2) + 2 <= k ->
  -1074 < k <= 1024 ->
  SFmagLe k
    (let '(mz, ez, lz) :=
       SFdiv_core_binary prec emax (Zpos p1) e1 (Zpos p2) e2 in
     binary_round_aux prec emax s mz ez lz).
Proof.
  intros C1 L2 Hk Hr.
  destruct (SFdiv_core_binary_spec p1 p2 e1 e2) as (l & ->).
  rewrite L2.
  set (e' := Z.min (Z.max (Z.log2 (Zpos p1) + e1 - (52 + e2) - 53) (-1074))
                   (e1 - e2)).
  set (a := Zpos p1 * 2 ^ (e1 - e2 - e')).
  assert (Hs : 0 <= e1 - e2 - e') by (unfold e'; lia).
  assert (Ha : 0 < a).
  { unfold a. apply Z.mul_pos_pos; [lia|]. apply Z.pow_pos_nonneg; lia. }
  assert (La : Z.log2 a = Z.log2 (Zpos p1) + (e1 - e2 - e')).
  { unfold a. rewrite Z.log2_mul_pow2 by lia. lia. }
  pose proof (Z.log2_nonneg (Zpos p1)) as N1.
  destruct (div_log2 a (Zpos p2) Ha ltac:(lia)) as (Hq0 & Hup & Hlow).
  rewrite La, L2 in Hup, Hlow.
  apply SFmagLe_mono with (k - 1 + 1); [|lia].
  destruct (Z.eq_dec (a / Zpos p2) 0) as [Hz|Hnz].
  - rewrite Hz.
    assert (He' : e' <= -1074).
    { destruct (Z_le_gt_dec e' (-1074)) as [|Hgt]; [assumption|].
      destruct Hlow as (Hq & _); [unfold e' in *; lia|lia]. }
    apply binary_round_aux_bounded; try lia.
    + rewrite fexp_binary64. cbn [Zdigits2]. lia.
    + cbn [Zdigits2]. lia.
  - specialize (Hup ltac:(lia)).
    apply binary_round_aux_bounded; try lia.
    + rewrite fexp_binary64, Zdigits2_log2 by lia.
      destruct (Z_le_gt_dec e' (-1074)) as [|Hgt]; [lia|].
      destruct Hlow as (_ & Hl); [unfold e' in *; lia|]. lia.
    + rewrite Zdigits2_log2 by lia. unfold e' in *. lia.
Qed.


(** *** Sums and differences *)

Lemma iter_xO (p d : positive) :
  Zpos (Pos.iter xO p d) = Zpos p * 2 ^ Zpos d.
Proof.
  induction d as [|d IH] using Pos.peano_ind.
  - cbn [Pos.iter]. change (2 ^ 1) with 2. lia.
  - rewrite Pos.iter_succ, Pos2Z.inj_succ, Z.pow_succ_r by lia.
    rewrite Pos2Z.inj_xO, IH. lia.
Qed.

(** Aligning a mantissa to a smaller exponent keeps its value. *)
Lemma shl_align_spec (p : positive) (e e' : Z) :
  Zpos (fst (shl_align p e e')) = Zpos p * 2 ^ (e - Z.min e e')
  /\ snd (shl_align p e e') = Z.min e e'.
Proof.
  unfold shl_align. destruct (e' - e) as [|d|d] eqn:E; cbn [fst snd].
  - replace (e - Z.min e e') with 0 by lia. rewrite Z.pow_0_r. lia.
  - replace (e - Z.min e e') with 0 by lia. rewrite Z.pow_0_r. lia.
  - rewrite iter_xO. replace (e - Z.min e e') with (Zpos d) by lia. lia.
Qed.

Lemma binary_round_bounded (s : bool) (p : positive) (e k : Z) :
  Z.log2 (Zpos p) + 1 + e <= k -> -1074 <= k <= 1023 ->
  SFmagLe (k + 1) (binary_round prec emax s p e).
Proof.
  intros Hg Hk. unfold binary_round.
  destruct (shl_align_spec p e (fexp prec emax (Zpos (digits2_pos p) + e)))
    as (Hm & He).
  destruct (shl_align p e (fexp prec emax (Zpos (digits2_pos p) + e)))
    as [mz ez].
  cbn [fst snd] in Hm, He. rewrite <- He in Hm.
  rewrite fexp_binary64, digits2_log2 in He.
  assert (Lz : Z.log2 (Zpos mz) = Z.log2 (Zpos p) + (e - ez)).
  { rewrite Hm, Z.log2_mul_pow2 by lia. lia. }
  apply binary_round_aux_bounded; try lia.
  - rewrite fexp_binary64, Zdigits2_log2 by lia. lia.
  - rewrite Zdigits2_log2 by lia. lia.
Qed.

Lemma binary_normalize_bounded (m e k : Z) :
  (m <> 0 -> Z.log2 (Z.abs m) + 1 + e <= k) -> -1074 <= k <= 1023 ->
  SFmagLe (k + 1) (binary_normalize prec emax m e false).
Proof.
  intros Hg Hk. destruct m as [|p|p]; cbn [binary_normalize].
  - exact I.
  - apply binary_round_bounded; [apply Hg|]; lia.
  - apply binary_round_bounded; [apply Hg|]; lia.
Qed.

(** The digits of a sum of two aligned mantissas. *)
Lemma aligned_sum_log2 (p1 p2 : positive) (e1 e2 m : Z) :
  Z.abs m <= Zpos (fst (shl_align p1 e1 (Z.min e1 e2)))
             + Zpos (fst (shl_align p2 e2 (Z.min e1 e2))) ->
  m <> 0 ->
  Z.log2 (Z.abs m) + 1 + Z.min e1 e2
  <= Z.max (Z.log2 (Zpos p1) + 1 + e1) (Z.log2 (Zpos p2) + 1 + e2) + 1.
Proof.
  intros Hm Hnz.
  destruct (shl_align_spec p1 e1 (Z.min e1 e2)) as (H1 & _).
  destruct (shl_align_spec p2 e2 (Z.min e1 e2)) as (H2 & _).
  rewrite H1, H2 in Hm.
  set (ez := Z.min e1 e2) in *.
  replace (Z.min e1 ez) with ez in Hm by (unfold ez; lia).
  replace (Z.min e2 ez) with ez in Hm by (unfold ez; lia).
  set (A := Zpos p1 * 2 ^ (e1 - ez)) in *.
  set (B := Zpos p2 * 2 ^ (e2 - ez)) in *.
  assert (LA : Z.log2 A = Z.log2 (Zpos p1) + (e1 - ez))
    by (unfold A; rewrite Z.log2_mul_pow2 by (unfold ez; lia); lia).
  assert (LB : Z.log2 B = Z.log2 (Zpos p2) + (e2 - ez))
    by (unfold B; rewrite Z.log2_mul_pow2 by (unfold ez; lia); lia).
  assert (PA : 0 < A).
  { unfold A. apply Z.mul_pos_pos; [lia|].
    apply Z.pow_pos_nonneg; unfold ez; lia. }
  assert (PB : 0 < B).
  { unfold B. apply Z.mul_pos_pos; [lia|].
    apply Z.pow_pos_nonneg; unfold ez; lia. }
  set (t := Z.max (Z.log2 A) (Z.log2 B) + 1).
  pose proof (Z.log2_nonneg A) as NA. pose proof (Z.log2_nonneg B) as NB.
  assert (HA : A < 2 ^ t).
  { apply Z.log2_lt_pow2; [exact PA|]. unfold t. lia. }
  assert (HB : B < 2 ^ t).
  { apply Z.log2_lt_pow2; [exact PB|]. unfold t. lia. }
  assert (Hlt : Z.log2 (Z.abs m) < Z.succ t).
  { apply Z.log2_lt_pow2; [lia|]. rewrite Z.pow_succ_r by (unfold t; lia).
    lia. }
  unfold t in Hlt. lia.
Qed.

Lemma SFadd_bounded (x y : spec_float) (a b k : Z) :
  SFmagLe a x -> SFmagLe b y -> a + 2 <= k -> b + 2 <= k ->
  -1074 < k <= 1024 ->
  SFmagLe k (SFadd prec emax x y).
Proof.
  intros Hx Hy Ha Hb Hk.
  destruct x as [sx|sx| |sx px ex], y as [sy|sy| |sy py ey];
    cbn [SFmagLe] in Hx, Hy; try contradiction; cbn [SFadd].
  - destruct sx, sy; exact I.
  - cbn [SFmagLe]. lia.
  - cbn [SFmagLe]. lia.
  - apply SFmagLe_mono with (k - 1 + 1); [|lia].
    apply binary_normalize_bounded; [|lia].
    change (IntDef.Z.min ex ey) with (Z.min ex ey).
    intros Hnz.
    etransitivity; [apply (aligned_sum_log2 px py ex ey); [|exact Hnz]|lia].
    destruct sx, sy; cbn [cond_Zopp]; lia.
Qed.

Lemma SFsub_bounded (x y : spec_float) (a b k : Z) :
  SFmagLe a x -> SFmagLe b y -> a + 2 <= k -> b + 2 <= k ->
  -1074 < k <= 1024 ->
  SFmagLe k (SFsub prec emax x y).
Proof.
  intros Hx Hy Ha Hb Hk.
  destruct x as [sx|sx| |sx px ex], y as [sy|sy| |sy py ey];
    cbn [SFmagLe] in Hx, Hy; try contradiction; cbn [SFsub].
  - destruct sx, sy; exact I.
  - cbn [SFmagLe]. lia.
  - cbn [SFmagLe]. lia.
  - apply SFmagLe_mono with (k - 1 + 1); [|lia].
    apply binary_normalize_bounded; [|lia].
    change (IntDef.Z.min ex ey) with (Z.min ex ey).
    intros Hnz.
    etransitivity; [apply (aligned_sum_log2 px py ex ey); [|exact Hnz]|lia].
    destruct sx, sy; cbn [cond_Zopp]; lia.
Qed.


(** *** The same for doubles *)

Definition magLe (k : Z) (x : float) : Prop := SFmagLe k (Prim2SF x).
Definition normalIn (lo hi : Z) (x : float) : Prop :=
  SFnormal lo hi (Prim2SF x).

Lemma magLe_mono (k k' : Z) (x : float) :
  magLe k x -> k <= k' -> magLe k' x.
Proof. apply SFmagLe_mono. Qed.

Lemma normalIn_magLe (lo hi : Z) (x : float) :
  normalIn lo hi x -> magLe (53 + hi) x.
Proof. apply SFnormal_magLe. Qed.

Lemma add_magLe (a b k : Z) (x y : float) :
  magLe a x -> magLe b y -> a + 2 <= k -> b + 2 <= k -> -1074 < k <= 1024 ->
  magLe k (x + y)%float.
Proof. unfold magLe. rewrite FloatAxioms.add_spec. apply SFadd_bounded. Qed.

Lemma sub_magLe (a b k : Z) (x y : float) :
  magLe a x -> magLe b y -> a + 2 <= k -> b + 2 <= k -> -1074 < k <= 1024 ->
  magLe k (x - y)%float.
Proof. unfold magLe. rewrite FloatAxioms.sub_spec. apply SFsub_bounded. Qed.

Lemma opp_magLe (k : Z) (x : float) : magLe k x -> magLe k (- x)%float.
Proof.
  unfold magLe. rewrite FloatAxioms.opp_spec.
  destruct (Prim2SF x); cbn [SFopp SFmagLe]; tauto.
Qed.

Lemma mul_magLe (a b k : Z) (x y : float) :
  magLe a x -> magLe b y -> a + b < k -> -1074 < k <= 1024 ->
  magLe k (x * y)%float.
Proof.
  unfold magLe. rewrite FloatAxioms.mul_spec. unfold SF64mul.
  destruct (Prim2SF x) as [sx|sx| |sx px ex] eqn:Ex,
           (Prim2SF y) as [sy|sy| |sy py ey] eqn:Ey;
    cbn [SFmagLe SFmul]; try tauto.
  intros Hx Hy Hk Hr.
  destruct (valid_finite _ _ _ _ Ex) as (Cx & _).
  destruct (valid_finite _ _ _ _ Ey) as (Cy & _).
  apply SFmul_bounded; lia.
Qed.

Lemma mul_normalIn (lo1 hi1 lo2 hi2 : Z) (x y : float) :
  normalIn lo1 hi1 x -> normalIn lo2 hi2 y ->
  -1126 <= lo1 + lo2 -> hi1 + hi2 <= 917 ->
  normalIn (lo1 + lo2 + 52) (hi1 + hi2 + 54) (x * y)%float.
Proof.
  unfold normalIn. rewrite FloatAxioms.mul_spec. unfold SF64mul.
  destruct (Prim2SF x) as [sx|sx| |sx px ex],
           (Prim2SF y) as [sy|sy| |sy py ey];
    cbn [SFnormal SFmul]; try tauto.
  intros (Lx & Hx) (Ly & Hy) Hlo Hhi.
  eapply SFnormal_mono; [apply SFmul_normal| |]; lia.
Qed.

Lemma div_normalIn (lo1 hi1 lo2 hi2 : Z) (x y : float) :
  normalIn lo1 hi1 x -> normalIn lo2 hi2 y ->
  -1021 <= lo1 - hi2 -> hi1 - lo2 <= 1022 ->
  normalIn (lo1 - hi2 - 53) (hi1 - lo2 - 51) (x / y)%float.
Proof.
  unfold normalIn. rewrite FloatAxioms.div_spec. unfold SF64div.
  destruct (Prim2SF x) as [sx|sx| |sx px ex],
           (Prim2SF y) as [sy|sy| |sy py ey];
    cbn [SFnormal SFdiv]; try tauto.
  intros (Lx & Hx) (Ly & Hy) Hlo Hhi.
  eapply SFnormal_mono; [apply SFdiv_normal| |]; lia.
Qed.

Lemma div_magLe (a lo hi k : Z) (x y : float) :
  magLe a x -> normalIn lo hi y ->
  a - lo - 51 <= k -> -1074 < k <= 1024 ->
  magLe k (x / y)%float.
Proof.
  unfold magLe, normalIn. rewrite FloatAxioms.div_spec. unfold SF64div.
  destruct (Prim2SF x) as [sx|sx| |sx px ex] eqn:Ex,
           (Prim2SF y) as [sy|sy| |sy py ey];
    cbn [SFmagLe SFnormal SFdiv]; try tauto.
  intros Hx (Ly & Hy) Hk Hr.
  destruct (valid_finite _ _ _ _ Ex) as (Cx & _).
  apply SFdiv_bounded; lia.
Qed.

(** A double of bounded magnitude is finite, a normal one is also
    non-zero. *)
Lemma SFcompare_refl (s : bool) (p : positive) (e : Z) :
  SFcompare (S754_finite s p e) (S754_finite s p e) = Some Eq.
Proof.
  unfold SFcompare. rewrite Z.compare_refl.
  change (Pos.compare_cont Eq p p) with (Pos.compare p p).
  rewrite Pos.compare_refl. destruct s; reflexivity.
Qed.

Lemma magLe_is_finite (k : Z) (x : float) : magLe k x -> is_finite x = true.
Proof.
  unfold magLe, is_finite, is_nan, is_infinity.
  rewrite !FloatAxioms.eqb_spec, FloatAxioms.abs_spec.
  change (Prim2SF infinity) with (S754_infinity false).
  destruct (Prim2SF x) as [s|s| |s p e]; cbn [SFmagLe]; try tauto; intros _;
    unfold SFeqb; rewrite ?SFcompare_refl; destruct s; reflexivity.
Qed.

Lemma normalIn_is_not_zero (lo hi : Z) (x : float) :
  normalIn lo hi x -> is_zero x = false.
Proof.
  unfold normalIn, is_zero. rewrite FloatAxioms.eqb_spec.
  change (Prim2SF zero) with (S754_zero false).
  destruct (Prim2SF x) as [s|s| |s p e]; cbn [SFnormal]; try tauto; intros _;
    destruct s; reflexivity.
Qed.

(** *** Magnitudes from comparisons *)

(** A double between two positive normal numbers is normal, with its
    exponent between theirs. *)
Lemma between_normalIn (c1 c2 x : float) (p1 p2 : positive) (e1 e2 : Z) :
  Prim2SF c1 = S754_finite false p1 e1 ->
  Prim2SF c2 = S754_finite false p2 e2 ->
  -1074 < e1 ->
  (c1 <=? x)%float = true -> (x <=? c2)%float = true ->
  normalIn e1 e2 x.
Proof.
  intros H1 H2 He1. unfold normalIn. rewrite !FloatAxioms.leb_spec, H1, H2.
  destruct (Prim2SF x) as [s|s| |s p e] eqn:Ex;
    try (destruct s; discriminate); try discriminate.
  destruct (valid_finite _ _ _ _ Ex) as (Cx & _).
  unfold SFleb, SFcompare. destruct s; [discriminate|].
  destruct (Z.compare_spec e1 e); destruct (Z.compare_spec e e2);
    intros Hlo Hhi; try discriminate; cbn [SFnormal]; lia.
Qed.

Lemma abs_normalIn (lo hi : Z) (x : float) :
  normalIn lo hi (abs x) -> normalIn lo hi x.
Proof.
  unfold normalIn. rewrite FloatAxioms.abs_spec.
  destruct (Prim2SF x); cbn [SFabs SFnormal]; tauto.
Qed.

(** A double that is not a NaN and whose absolute value does not exceed
    a limit, itself not above a positive normal number [c], is finite
    and not larger than [c]. *)
Lemma below_limit_magLe (lim c x : float) (pc : positive) (ec : Z) :
  Prim2SF c = S754_finite false pc ec ->
  (lim <=? c)%float = true -> (lim <? abs x)%float = false ->
  Prim2SF x <> S754_nan ->
  magLe (53 + ec) x.
Proof.
  intros Hc. unfold magLe.
  rewrite FloatAxioms.leb_spec, FloatAxioms.ltb_spec, FloatAxioms.abs_spec,
    Hc.
  destruct (Prim2SF x) as [s|s| |s p e] eqn:Ex; cbn [SFabs SFmagLe];
    try tauto.
  - intros Hle Hlt _. unfold SFleb, SFltb, SFcompare in Hle, Hlt.
    destruct (Prim2SF lim) as [sl|[]| |sl pl el]; discriminate.
  - intros Hle Hlt _. destruct (valid_finite _ _ _ _ Ex) as (Cx & _).
    unfold SFleb, SFltb, SFcompare in Hle, Hlt.
    destruct (Prim2SF lim) as [sl|[]| |[] pl el]; try discriminate.
    destruct (Z.compare_spec el e); destruct (Z.compare_spec el ec);
      try discriminate; lia.
Qed.

Lemma ltb_not_nan_l (x y : float) :
  (x <? y)%float = true -> Prim2SF x <> S754_nan.
Proof.
  rewrite FloatAxioms.ltb_spec. intros H E. rewrite E in H. discriminate.
Qed.

Lemma ltb_not_nan_r (x y : float) :
  (x <? y)%float = true -> Prim2SF y <> S754_nan.
Proof.
  rewrite FloatAxioms.ltb_spec. intros H E. rewrite E in H.
  destruct (Prim2SF x) as [s|s| |s p e]; try destruct s; discriminate.
Qed.

(** *** The bounds used below *)

Lemma Prim2SF_2m200 :
  Prim2SF 0x1p-200 = S754_finite false 4503599627370496 (-252).
Proof. vm_compute. reflexivity. Qed.

Lemma Prim2SF_2p200 :
  Prim2SF 0x1p200 = S754_finite false 4503599627370496 148.
Proof. vm_compute. reflexivity. Qed.

Lemma Prim2SF_2m100 :
  Prim2SF 0x1p-100 = S754_finite false 4503599627370496 (-152).
Proof. vm_compute. reflexivity. Qed.

Lemma Prim2SF_2p100 :
  Prim2SF 0x1p100 = S754_finite false 4503599627370496 48.
Proof. vm_compute. reflexivity. Qed.

Lemma magLe_one : magLe 1 1%float.
Proof. unfold magLe. rewrite FloatFacts.Prim2SF_one. cbn. lia. Qed.

End FloatRange.

(** *** The correction *)

(** C10 as stated fails at [Fixture.underflowing], solved from
    [Fixture.farVertex] with a gap tolerance of 2^500: the check of [m]
    fails (m = 1.25), recovery is called and reaches the correction
    branch (n = 1.5, extended limit 1.5); [q.r] is 2^-98 and [|q|] is
    2^501, both non-zero, and the quotient [(q.r)/|q|^2] underflows to
    zero, so the overshoot is divided by zero, [n] becomes minus infinity
    and the candidate stays unset. *)
Lemma scale_underflows_to_zero :
  let cfg := Fixture.config Fixture.farVertex 0 0x1p500 false in
  let p := snd (resolveInLimit (vertexState cfg Fixture.underflowing)) in
  fst (resolveInLimit (vertexState cfg Fixture.underflowing)) = false
  /\ reachesCorrection p cfg = true
  /\ (V3.dot (sp_q p) (sp_r p) =? 0) = false
  /\ (qmagOf p =? 0) = false
  /\ (secOnFirstScale p =? 0) = true
  /\ sp_n (snd (recoverSpacePoint p cfg)) = neg_infinity
  /\ solveCandidate cfg Fixture.underflowing = Fixture.underflowing.
Proof. vm_compute. repeat split; reflexivity. Qed.

Section ScalingFactor.

Import FloatRange.

(** C10, amended. The correction divides the chosen overshoot by
    [secOnFirstScale = (q.r)/|q|^2] without a guard.  For every state
    that reaches a correction branch with [q.r] and [|q|] non-zero and
    of moderate magnitude, [2^-200 <= |q.r| <= 2^200] and
    [2^-100 <= |q| <= 2^100], and with an extended limit of at most
    [2^100], the divisions of the correction are well-defined: the
    divisors [|q|^2] and [secOnFirstScale] are finite and non-zero, the
    overshoot divided by [secOnFirstScale] is finite, and the corrected
    [m] and [n] the recovery leaves in the state are finite. *)
Theorem correction_divides_by_nonzero_scale p cfg :
  reachesCorrection p cfg = true ->
  (0x1p-200 <=? abs (V3.dot (sp_q p) (sp_r p))) = true ->
  (abs (V3.dot (sp_q p) (sp_r p)) <=? 0x1p200) = true ->
  (0x1p-100 <=? qmagOf p) = true ->
  (qmagOf p <=? 0x1p100) = true ->
  (limitExtendedOf p cfg <=? 0x1p100) = true ->
  let m := sp_m p in
  let n := nOf p in
  let sec := secOnFirstScale p in
  let up := if (n - 1) * sec <? m - 1 then m - 1 else (n - 1) * sec in
  let down := if - (n + 1) * sec <? - (m + 1) then - (m + 1)
              else - (n + 1) * sec in
  let over := if (1 <? m) && (1 <? n) then up else down in
  let r := snd (recoverSpacePoint p cfg) in
  finite_nonzero (qmagOf p * qmagOf p) = true
  /\ finite_nonzero sec = true
  /\ is_finite (over / sec) = true
  /\ sp_m r = (if (1 <? m) && (1 <? n) then m - up else m + down)
  /\ sp_n r = (if (1 <? m) && (1 <? n) then n - up / sec
               else n + down / sec)
  /\ is_finite (sp_m r) = true
  /\ is_finite (sp_n r) = true.
Proof.
  intros Hreach Hqr1 Hqr2 Hq1 Hq2 Hlim m n sec up down over r.
  unfold reachesCorrection in Hreach. fold m n in Hreach.
  apply andb_true_iff in Hreach. destruct Hreach as (Hreach & Hside).
  apply andb_true_iff in Hreach. destruct Hreach as (Hreach & Hn).
  apply andb_true_iff in Hreach. destruct Hreach as (Hg & Hm).
  apply negb_true_iff in Hg, Hm, Hn.
  (* the divisors *)
  assert (Nqr : normalIn (-252) 148 (V3.dot (sp_q p) (sp_r p))).
  { apply abs_normalIn.
    exact (between_normalIn _ _ _ _ _ _ _ Prim2SF_2m200 Prim2SF_2p200
             ltac:(lia) Hqr1 Hqr2). }
  assert (Nq : normalIn (-152) 48 (qmagOf p)).
  { exact (between_normalIn _ _ _ _ _ _ _ Prim2SF_2m100 Prim2SF_2p100
             ltac:(lia) Hq1 Hq2). }
  assert (Nqq : normalIn (-252) 150 (qmagOf p * qmagOf p)).
  { exact (mul_normalIn _ _ _ _ _ _ Nq Nq ltac:(lia) ltac:(lia)). }
  assert (Nsec : normalIn (-455) 349 sec).
  { exact (div_normalIn _ _ _ _ _ _ Nqr Nqq ltac:(lia) ltac:(lia)). }
  assert (Msec : magLe 402 sec) by exact (normalIn_magLe _ _ _ Nsec).
  (* the parameters *)
  assert (Nanm : Prim2SF m <> S754_nan /\ Prim2SF n <> S754_nan).
  { apply orb_true_iff in Hside.
    destruct Hside as [H|H]; apply andb_true_iff in H; destruct H as (H1 & H2).
    - split; eapply ltb_not_nan_r; eassumption.
    - split; eapply ltb_not_nan_l; eassumption. }
  destruct Nanm as (Nanm & Nann).
  assert (Mm : magLe 101 m)
    by exact (below_limit_magLe _ _ _ _ _ Prim2SF_2p100 Hlim Hm Nanm).
  assert (Mn : magLe 101 n)
    by exact (below_limit_magLe _ _ _ _ _ Prim2SF_2p100 Hlim Hn Nann).
  (* the overshoots *)
  assert (Mup : magLe 506 up).
  { unfold up. destruct ((n - 1) * sec <? m - 1).
    - apply (sub_magLe 101 1); try lia; [exact Mm|exact magLe_one].
    - apply (mul_magLe 103 402); try lia; [|exact Msec].
      apply (sub_magLe 101 1); try lia; [exact Mn|exact magLe_one]. }
  assert (Mdown : magLe 506 down).
  { unfold down. destruct (- (n + 1) * sec <? - (m + 1)).
    - apply opp_magLe. apply (add_magLe 101 1); try lia;
        [exact Mm|exact magLe_one].
    - apply (mul_magLe 103 402); try lia; [|exact Msec].
      apply opp_magLe. apply (add_magLe 101 1); try lia;
        [exact Mn|exact magLe_one]. }
  assert (Mover : magLe 910 (over / sec)).
  { apply (div_magLe 506 (-455) 349); try lia; [|exact Nsec].
    unfold over. destruct ((1 <? m) && (1 <? n)); assumption. }
  (* what the correction stores *)
  destruct (recoverSpacePoint_cases p cfg) as (_ & _ & Hmn).
  cbn zeta in Hmn. fold m n sec up down in Hmn.
  destruct (Hmn Hg Hm Hn) as (Hup & Hdown). fold r in Hup, Hdown.
  assert (Hr : sp_m r = (if (1 <? m) && (1 <? n) then m - up else m + down)
               /\ sp_n r = (if (1 <? m) && (1 <? n) then n - up / sec
                            else n + down / sec)).
  { destruct ((1 <? m) && (1 <? n)) eqn:E.
    - apply Hup. reflexivity.
    - cbn [orb] in Hside. apply (Hdown eq_refl Hside). }
  destruct Hr as (Hrm & Hrn).
  repeat split.
  - unfold finite_nonzero.
    rewrite (magLe_is_finite _ _ (normalIn_magLe _ _ _ Nqq)),
            (normalIn_is_not_zero _ _ _ Nqq). reflexivity.
  - unfold finite_nonzero.
    rewrite (magLe_is_finite _ _ Msec), (normalIn_is_not_zero _ _ _ Nsec).
    reflexivity.
  - exact (magLe_is_finite _ _ Mover).
  - exact Hrm.
  - exact Hrn.
  - rewrite Hrm. apply (magLe_is_finite 508).
    destruct ((1 <? m) && (1 <? n)).
    + apply (sub_magLe 101 506); try lia; assumption.
    + apply (add_magLe 101 506); try lia; assumption.
  - rewrite Hrn. apply (magLe_is_finite 912).
    unfold over in Mover. destruct ((1 <? m) && (1 <? n)).
    + apply (sub_magLe 101 910); try lia; assumption.
    + apply (add_magLe 101 910); try lia; assumption.
Qed.

End ScalingFactor.

Lemma correction_divides_by_nonzero_scale_witness :
  let cfg := Fixture.config Fixture.vertexBelow 0.5 1 false in
  let p := snd (resolveInLimit (vertexState cfg Fixture.overshooting)) in
  finite_nonzero (secOnFirstScale p) = true
  /\ sp_m (snd (recoverSpacePoint p cfg)) = 0.5
  /\ sp_n (snd (recoverSpacePoint p cfg)) = 1
  /\ is_finite (sp_n (snd (recoverSpacePoint p cfg))) = true.
Proof.
  intros cfg p.
  pose proof (correction_divides_by_nonzero_scale p cfg
                eq_refl eq_refl eq_refl eq_refl eq_refl eq_refl)
    as (_ & Hsec & _ & Hm & Hn & _ & Hfin).
  split; [exact Hsec|]. split; [exact Hm|]. split; [exact Hn|exact Hfin].
Defined.

(** ** Cluster Matcher *)

Section Matcher.

Variables phi theta : Vector3D -> float.
Variable dhCfg : DoubleHitSpacePointConfig.

Let score (front back : Cluster) : float :=
  differenceOfHits phi theta (clusterPoint front) (clusterPoint back) dhCfg.

(** The acceptance test of the scan, against a running minimum. *)
Let accepted (front : Cluster) (diffMin : float) (back : Cluster) : bool :=
  (score front back <? diffMin) && (0 <=? score front back).

Lemma differenceOfHits_too_far pos1 pos2 :
  (diffDist dhCfg <? V3.norm (pos1 - pos2)%v3) = true ->
  differenceOfHits phi theta pos1 pos2 dhCfg = -1.
Proof. intros H. unfold differenceOfHits. rewrite H. reflexivity. Qed.

Lemma minus_one_is_negative : (0 <=? -1) = false.
Proof. reflexivity. Qed.

(** The scan ends either where it started, having accepted nothing, or
    at the last cluster it accepted, whose score is then the running
    minimum and was not negative. *)
Lemma scanBack_outcome front back :
  forall i0 diffMin clusterMin,
  let out := scanBack phi theta dhCfg (clusterPoint front) back i0
                      diffMin clusterMin in
  (out = (diffMin, clusterMin)
   /\ Forall (fun cluster => accepted front diffMin cluster = false) back)
  \/ (exists j cluster,
        nth_error back j = Some cluster
        /\ snd out = (i0 + j)%nat
        /\ fst out = score front cluster
        /\ (0 <=? score front cluster) = true
        /\ Forall (fun later => accepted front (fst out) later = false)
                  (skipn (S j) back)).
Proof.
  induction back as [|cluster rest IH]; intros i0 diffMin clusterMin.
  - left. split; [reflexivity|constructor].
  - cbn [scanBack]. fold (score front cluster).
    destruct ((score front cluster <? diffMin) && (0 <=? score front cluster))
      eqn:Hacc.
    + right.
      destruct (IH (S i0) (score front cluster) i0)
        as [(Hout & Hrest)|(j & c & Hj & Hk & Hmin & Hpos & Hlater)].
      * exists 0%nat, cluster. rewrite Hout. cbn [fst snd nth_error skipn].
        apply andb_true_iff in Hacc. destruct Hacc as (_ & Hpos).
        repeat split; [lia|exact Hpos|exact Hrest].
      * exists (S j), c. cbn [nth_error]. repeat split; try assumption.
        rewrite Hk. lia.
    + destruct (IH (S i0) diffMin clusterMin)
        as [(Hout & Hrest)|(j & c & Hj & Hk & Hmin & Hpos & Hlater)].
      * left. split; [exact Hout|]. constructor; assumption.
      * right. exists (S j), c. cbn [nth_error]. repeat split; try assumption.
        rewrite Hk. lia.
Qed.

(** A back cluster too far from the front cluster is not the one the
    scan ends at. *)
Lemma scanBack_skips_far front backs j back :
  nth_error backs j = Some back ->
  (diffDist dhCfg <? V3.norm (clusterPoint front - clusterPoint back)%v3)
  = true ->
  snd (scanBack phi theta dhCfg (clusterPoint front) backs 0 DBL_MAX
                (length backs)) <> j.
Proof.
  intros Hj Hfar Hsel.
  destruct (scanBack_outcome front backs 0 DBL_MAX (length backs))
    as [(Hout & _)|(k & c & Hk & Hsnd & _ & Hpos & _)].
  - rewrite Hout in Hsel. cbn [snd] in Hsel.
    assert (j < length backs)%nat
      by (apply nth_error_Some; congruence).
    lia.
  - rewrite Hsnd in Hsel. cbn [Nat.add] in Hsel. subst k.
    assert (c = back) by congruence. subst c.
    unfold score in Hpos.
    rewrite (differenceOfHits_too_far _ _ Hfar) in Hpos.
    rewrite minus_one_is_negative in Hpos. discriminate.
Qed.

(** The candidates the matcher adds pair a front cluster with a back
    cluster that is not too far from it. *)
Lemma matchFront_adds_near fronts backs :
  forall spacePoints,
  exists added,
    matchFront phi theta dhCfg fronts backs spacePoints
    = spacePoints ++ added
    /\ Forall (fun sp =>
         In (hitModuleFront sp) fronts /\ In (hitModuleBack sp) backs
         /\ (diffDist dhCfg
             <? V3.norm (clusterPoint (hitModuleFront sp)
                         - clusterPoint (hitModuleBack sp))%v3) = false)
         added.
Proof.
  induction fronts as [|front rest IH]; intros spacePoints.
  - exists []. cbn [matchFront]. rewrite app_nil_r. split; [reflexivity|constructor].
  - cbn [matchFront].
    destruct (nth_error backs
                (snd (scanBack phi theta dhCfg (clusterPoint front) backs 0
                               DBL_MAX (length backs)))) as [back|] eqn:Hsel.
    + destruct (IH (spacePoints ++ [newSpacePoint front back]))
        as (added & Heq & Hall).
      exists (newSpacePoint front back :: added).
      rewrite Heq, <- app_assoc. split; [reflexivity|].
      constructor.
      * cbn [newSpacePoint hitModuleFront hitModuleBack].
        split; [left; reflexivity|]. split; [eapply nth_error_In; eassumption|].
        destruct (diffDist dhCfg <? _) eqn:Hfar; [|reflexivity].
        exfalso. eapply scanBack_skips_far; [exact Hsel|exact Hfar|reflexivity].
      * eapply Forall_impl; [|exact Hall].
        intros sp (Hf & Hb & Hnear). split; [right; exact Hf|]. split; assumption.
    + destruct (IH spacePoints) as (added & Heq & Hall).
      exists added. split; [exact Heq|].
      eapply Forall_impl; [|exact Hall].
      intros sp (Hf & Hb & Hnear). split; [right; exact Hf|]. split; assumption.
Qed.

End Matcher.

(** C9. Whatever the angles are, a back cluster whose midpoint is
    farther than [diffDist] from the midpoint of a front cluster scores
    -1, the acceptance test of the scan rejects -1 against every running
    minimum, the scan for that front cluster does not end at that back
    cluster, and no candidate added by [addHits] pairs the two. *)
Theorem far_back_cluster_is_never_selected
    (phi theta : Vector3D -> float) dc cfg front backs j back :
  nth_error backs j = Some back ->
  (diffDist cfg <? V3.norm (clusterPoint front - clusterPoint back)%v3)
  = true ->
  differenceOfHits phi theta (clusterPoint front) (clusterPoint back) cfg = -1
  /\ (forall diffMin, ((-1 <? diffMin) && (0 <=? -1)) = false)
  /\ snd (scanBack phi theta cfg (clusterPoint front) backs 0 DBL_MAX
                   (length backs)) <> j
  /\ (forall spacePoints hitsFront hitsBack,
        exists added,
          addHits phi theta dc spacePoints hitsFront hitsBack (Some cfg)
          = spacePoints ++ added
          /\ forall sp, In sp added ->
               ~ (hitModuleFront sp = front /\ hitModuleBack sp = back)).
Proof.
  intros Hj Hfar.
  split; [apply differenceOfHits_too_far; exact Hfar|].
  split; [intros diffMin; rewrite minus_one_is_negative; apply andb_false_r|].
  split; [eapply scanBack_skips_far; eassumption|].
  intros spacePoints hitsFront hitsBack.
  assert (Hnone : exists added : list DoubleHitSpacePoint,
            spacePoints = spacePoints ++ added
            /\ forall sp, In sp added ->
                 ~ (hitModuleFront sp = front /\ hitModuleBack sp = back)).
  { exists []. rewrite app_nil_r. split; [reflexivity|]. intros sp []. }
  unfold addHits.
  destruct hitsFront as [|hf hitsFront]; [exact Hnone|].
  destruct hitsBack as [|hb hitsBack]; [exact Hnone|].
  cbn [withDefault].
  destruct (clusterSpacePoints (hf :: hitsFront) (clusterFrontHits cfg))
    as [|cf fronts]; [exact Hnone|].
  destruct (clusterSpacePoints (hb :: hitsBack) (clusterBackHits cfg))
    as [|cb backs']; [exact Hnone|].
  destruct (matchFront_adds_near phi theta cfg (cf :: fronts) (cb :: backs')
              spacePoints) as (added & Heq & Hall).
  exists added. split; [exact Heq|].
  intros sp Hin (Hf & Hb).
  rewrite Forall_forall in Hall. destruct (Hall sp Hin) as (_ & _ & Hnear).
  rewrite Hf, Hb, Hfar in Hnear. discriminate.
Qed.

Lemma far_back_cluster_is_never_selected_witness :
  differenceOfHits Fixture.flatPhi Fixture.flatTheta
    (clusterPoint (hitModuleFront Fixture.crossingAtOrigin))
    (clusterPoint Fixture.farBack)
    (Fixture.config V3.Zero 0 0 false) = -1
  /\ snd (scanBack Fixture.flatPhi Fixture.flatTheta
            (Fixture.config V3.Zero 0 0 false)
            (clusterPoint (hitModuleFront Fixture.crossingAtOrigin))
            [Fixture.nearBack; Fixture.farBack] 0 DBL_MAX 2) <> 1%nat.
Proof.
  pose proof (far_back_cluster_is_never_selected
    Fixture.flatPhi Fixture.flatTheta (Fixture.config V3.Zero 0 0 false)
    (Fixture.config V3.Zero 0 0 false)
    (hitModuleFront Fixture.crossingAtOrigin)
    [Fixture.nearBack; Fixture.farBack] 1 Fixture.farBack
    eq_refl eq_refl) as (H1 & _ & H3 & _).
  split; [exact H1|exact H3].
Defined.

#[local] Close Scope float_scope.

(** ** Hit Clusterer: the walk over the matrix *)

Lemma covered_app hit cls more :
  covered hit cls -> covered hit (cls ++ more).
Proof.
  intros (c & Hin & Hm). exists c. split; [apply in_or_app; left|]; assumption.
Qed.

Lemma covered_last hit cls cluster :
  member hit cluster -> covered hit (cls ++ [cluster]).
Proof.
  intros Hm. exists cluster. split; [|exact Hm].
  apply in_or_app. right. left. reflexivity.
Qed.

Section ScanLines.

Variable cell : nat -> nat -> option PlanarModuleCluster.
Variable nInner : nat.

(** What holds of the scan state when the cells before cell [a] of line
  [o] have been visited. *)
Record scanned (o a : nat) (st : ScanState) : Prop := mkScanned {
(** the hits of a stored pair sit in two cells that follow each other
    in a line, unless the first sits at the end of a line *)
sc_pairs : forall f s, In (f, Some s) (clusters st) ->
  exists o' i', cell o' i' = Some f
    /\ (i' = nInner - 1 \/ cell o' (S i') = Some s);
(** the hits of the stored clusters come from the matrix *)
sc_from : forall c hit, In c (clusters st) -> member hit c ->
  exists o' i', cell o' i' = Some hit;
(** the first hit of the pair under construction is the hit of the
    cell visited last *)
sc_first : forall f, cl_first st = Some f ->
  (a = 0 /\ exists o', cell o' (nInner - 1) = Some f)
  \/ (0 < a /\ cell o (a - 1) = Some f);
(** every hit visited is in a stored cluster, or it opened the pair
    under construction in the cell visited last, not at a line end *)
sc_covered : forall o' i' hit, i' < nInner ->
  o' < o \/ (o' = o /\ i' < a) ->
  cell o' i' = Some hit ->
  covered hit (clusters st)
  \/ (cl_first st = Some hit /\ 0 < a < nInner)
}.

Lemma scanned_start : scanned 0 0 (mkScan None None []).
Proof.
constructor; cbn [clusters cl_first].
- intros f s [].
- intros c hit [].
- discriminate.
- intros o' i' hit _ [H|(_ & H)]; lia.
Qed.

Lemma scanned_step o a st :
a < nInner -> scanned o a st ->
scanned o (S a) (scanCell (a =? nInner - 1) (cell o a) st).
Proof.
intros Ha [Hpairs Hfrom Hfirst Hcov]. unfold scanCell.
destruct (cl_first st) as [f|] eqn:Ef.
- (* a pair is under construction: it is closed with this cell *)
  assert (Hf : exists o' i', cell o' i' = Some f
                 /\ (i' = nInner - 1 \/ cell o' (S i') = cell o a)).
  { destruct (Hfirst f eq_refl) as [(-> & o' & Ho')|(Hpos & Hprev)].
    - exists o', (nInner - 1). split; [exact Ho'|left; reflexivity].
    - exists o, (a - 1). split; [exact Hprev|right].
      replace (S (a - 1)) with a by lia. reflexivity. }
  assert (Hst : (match cell o a with
                 | Some _ | None =>
                     mkScan (cell o a) (cell o a)
                            (clusters st ++ [(f, cell o a)])
                 end)
                = mkScan (cell o a) (cell o a)
                         (clusters st ++ [(f, cell o a)]))
    by (destruct (cell o a); reflexivity).
  rewrite Hst. clear Hst.
  constructor; cbn [clusters cl_first].
  + intros f' s Hin. apply in_app_or in Hin.
    destruct Hin as [Hin|[Heq|[]]]; [apply Hpairs; exact Hin|].
    inversion Heq; subst f'.
    destruct Hf as (o' & i' & Hc & Hnext). exists o', i'.
    split; [exact Hc|]. destruct Hnext as [Hl|Hn]; [left; exact Hl|].
    right. congruence.
  + intros c hit Hin Hm. apply in_app_or in Hin.
    destruct Hin as [Hin|[Heq|[]]]; [eapply Hfrom; eassumption|].
    subst c. destruct Hm as [Hm|Hm]; cbn [fst snd] in Hm.
    * subst hit. destruct Hf as (o' & i' & Hc & _). eauto.
    * eauto.
  + intros s Hs. right. split; [lia|].
    replace (S a - 1) with a by lia. exact Hs.
  + intros o' i' hit Hi Hpos Hc. left.
    assert (Hcase : (o' < o \/ (o' = o /\ i' < a)) \/ (o' = o /\ i' = a))
      by lia.
    destruct Hcase as [Hold|(-> & ->)].
    * destruct (Hcov o' i' hit Hi Hold Hc) as [Hcv|(Hp & _)].
      -- apply covered_app. exact Hcv.
      -- apply covered_last. left. cbn [fst]. congruence.
    * apply covered_last. right. cbn [snd]. exact Hc.
- (* no pair is under construction *)
  assert (Hold : forall o' i' hit, i' < nInner ->
            o' < o \/ (o' = o /\ i' < a) -> cell o' i' = Some hit ->
            covered hit (clusters st)).
  { intros o' i' hit Hi Hpos Hc.
    destruct (Hcov o' i' hit Hi Hpos Hc) as [Hcv|(Hp & _)];
      [exact Hcv|discriminate]. }
  destruct (cell o a) as [hit|] eqn:Ec.
  + destruct (Nat.eqb_spec a (nInner - 1)) as [Hlast|Hlast].
    * constructor; cbn [clusters cl_first].
      -- intros f s Hin. apply in_app_or in Hin.
         destruct Hin as [Hin|[Heq|[]]]; [apply Hpairs; exact Hin|].
         discriminate.
      -- intros c h Hin Hm. apply in_app_or in Hin.
         destruct Hin as [Hin|[Heq|[]]]; [eapply Hfrom; eassumption|].
         subst c. destruct Hm as [Hm|Hm]; cbn [fst snd] in Hm;
           [subst h; eauto|discriminate].
      -- intros f Hf. right. split; [lia|].
         replace (S a - 1) with a by lia. congruence.
      -- intros o' i' h Hi Hpos Hc. left.
         assert (Hcase : (o' < o \/ (o' = o /\ i' < a)) \/ (o' = o /\ i' = a))
           by lia.
         destruct Hcase as [Hbefore|(-> & ->)].
         ++ apply covered_app. eapply Hold; eassumption.
         ++ apply covered_last. left. cbn [fst]. congruence.
    * constructor; cbn [clusters cl_first].
      -- exact Hpairs.
      -- exact Hfrom.
      -- intros f Hf. right. split; [lia|].
         replace (S a - 1) with a by lia. congruence.
      -- intros o' i' h Hi Hpos Hc.
         assert (Hcase : (o' < o \/ (o' = o /\ i' < a)) \/ (o' = o /\ i' = a))
           by lia.
         destruct Hcase as [Hbefore|(-> & ->)].
         ++ left. eapply Hold; eassumption.
         ++ right. split; [congruence|lia].
  + constructor.
    * exact Hpairs.
    * exact Hfrom.
    * intros f Hf. congruence.
    * intros o' i' h Hi Hpos Hc. left.
      assert (Hcase : (o' < o \/ (o' = o /\ i' < a)) \/ (o' = o /\ i' = a))
        by lia.
      destruct Hcase as [Hbefore|(-> & ->)]; [eapply Hold; eassumption|].
      congruence.
Qed.

(** The inner loop, from cell [a] on. *)
Lemma scanned_line o n :
forall a st, a + n = nInner -> scanned o a st ->
scanned o nInner
  (fold_left (fun st i => scanCell (i =? nInner - 1) (cell o i) st)
             (seq a n) st).
Proof.
induction n as [|n IH]; intros a st Han Hsc.
- cbn [seq fold_left]. replace nInner with a by lia. exact Hsc.
- cbn [seq fold_left]. apply IH; [lia|]. apply scanned_step; [lia|exact Hsc].
Qed.

(** From the end of a line to the start of the next one. *)
Lemma scanned_next_line o st :
scanned o nInner st -> scanned (S o) 0 st.
Proof.
intros [Hpairs Hfrom Hfirst Hcov]. constructor.
- exact Hpairs.
- exact Hfrom.
- intros f Hf. left. split; [reflexivity|].
  destruct (Hfirst f Hf) as [(_ & Hend)|(Hpos & Hc)]; [exact Hend|].
  exists o. exact Hc.
- intros o' i' hit Hi Hpos Hc. left.
  assert (Hbefore : o' < o \/ (o' = o /\ i' < nInner)) by lia.
  destruct (Hcov o' i' hit Hi Hbefore Hc) as [Hcv|(_ & Hlt)];
    [exact Hcv|lia].
Qed.

Lemma scanned_lines n :
forall o st, scanned o 0 st ->
scanned (o + n) 0
  (fold_left (fun st o =>
     fold_left (fun st i => scanCell (i =? nInner - 1) (cell o i) st)
               (seq 0 nInner) st) (seq o n) st).
Proof.
induction n as [|n IH]; intros o st Hsc.
- cbn [seq fold_left]. replace (o + 0) with o by lia. exact Hsc.
- cbn [seq fold_left]. replace (o + S n) with (S o + n) by lia.
  apply IH. apply scanned_next_line. apply scanned_line; [lia|exact Hsc].
Qed.

(** The whole walk. *)
Lemma scanLines_scanned nOuter :
scanned nOuter 0 (scanLines cell nInner nOuter (mkScan None None [])).
Proof. exact (scanned_lines nOuter 0 _ scanned_start). Qed.

End ScanLines.

(** ** Hit Clusterer: the matrix *)

Lemma assign_length {A : Type} (v : list A) i x :
  length (assign v i x) = length v.
Proof.
  revert i. induction v as [|y v IH]; intros [|i]; cbn [assign length];
    try reflexivity. rewrite IH. reflexivity.
Qed.

Lemma nth_assign_same {A : Type} (v : list A) i x d :
  i < length v -> nth i (assign v i x) d = x.
Proof.
  revert i. induction v as [|y v IH]; intros [|i] Hi; cbn [length] in Hi;
    cbn [assign nth]; try lia; [reflexivity|]. apply IH. lia.
Qed.

Lemma nth_assign_other {A : Type} (v : list A) i j x d :
  i <> j -> nth j (assign v i x) d = nth j v d.
Proof.
  revert i j. induction v as [|y v IH]; intros [|i] [|j] Hij;
    cbn [assign nth]; try reflexivity; try lia. apply IH. lia.
Qed.

Lemma nth_assign_inv {A : Type} (v : list A) i j x d y :
  nth j (assign v i x) d = y -> (j = i /\ y = x) \/ nth j v d = y.
Proof.
  intros H. destruct (Nat.eq_dec i j) as [->|Hij].
  - destruct (Nat.lt_ge_cases j (length v)) as [Hlt|Hge].
    + rewrite nth_assign_same in H by exact Hlt. left. split; congruence.
    + right. rewrite nth_overflow in H by (rewrite assign_length; exact Hge).
      rewrite nth_overflow by exact Hge. exact H.
  - right. rewrite nth_assign_other in H by exact Hij. exact H.
Qed.

Lemma nth_error_nth_default {A : Type} (v : list A) i d x :
  nth_error v i = Some x -> nth i v d = x.
Proof. intros H. apply nth_error_nth. exact H. Qed.

Lemma getBin_setBin_inv bins x y hit x' y' hit' :
  getBin (setBin bins x y hit) x' y' = Some hit' ->
  (x' = x /\ y' = y /\ hit' = hit) \/ getBin bins x' y' = Some hit'.
Proof.
  unfold getBin, setBin. intros H.
  destruct (nth_error bins x) as [column|] eqn:Ex; [|right; exact H].
  destruct (Nat.eq_dec x x') as [<-|Hx].
  - rewrite nth_assign_same in H
      by (apply nth_error_Some; congruence).
    rewrite (nth_error_nth_default bins x [] column Ex).
    apply nth_assign_inv in H. destruct H as [(-> & Heq)|H].
    + left. repeat split. congruence.
    + right. exact H.
  - right. rewrite nth_assign_other in H by exact Hx. exact H.
Qed.

Lemma getBin_setBin_same bins x y hit :
  x < length bins -> y < length (nth x bins []) ->
  getBin (setBin bins x y hit) x y = Some hit.
Proof.
  intros Hx Hy. unfold getBin, setBin.
  destruct (nth_error bins x) as [column|] eqn:Ex.
  - rewrite (nth_error_nth_default bins x [] column Ex) in Hy.
    rewrite nth_assign_same by exact Hx.
    apply nth_assign_same. exact Hy.
  - apply nth_error_None in Ex. lia.
Qed.

Lemma getBin_setBin_other bins x y hit x' y' :
  (x, y) <> (x', y') ->
  getBin (setBin bins x y hit) x' y' = getBin bins x' y'.
Proof.
  intros Hne. unfold getBin, setBin.
  destruct (nth_error bins x) as [column|] eqn:Ex; [|reflexivity].
  destruct (Nat.eq_dec x x') as [<-|Hx].
  - rewrite nth_assign_same by (apply nth_error_Some; congruence).
    rewrite (nth_error_nth_default bins x [] column Ex).
    apply nth_assign_other. congruence.
  - rewrite nth_assign_other by exact Hx. reflexivity.
Qed.

(** A matrix of [nX] columns of [nY] cells. *)
Definition regular (nX nY : nat) (bins : Bins) : Prop :=
  length bins = nX /\ Forall (fun column => length column = nY) bins.

Lemma regular_column nX nY bins x :
  regular nX nY bins -> x < nX -> length (nth x bins []) = nY.
Proof.
  intros (Hlen & Hall) Hx. rewrite Forall_forall in Hall.
  apply Hall. apply nth_In. lia.
Qed.

Lemma Forall_assign {A : Type} (P : A -> Prop) (v : list A) i x :
  Forall P v -> P x -> Forall P (assign v i x).
Proof.
  intros Hv Hx. revert i.
  induction Hv as [|y v Hy Hv IH]; intros [|i]; cbn [assign];
    constructor; auto.
Qed.

Lemma regular_setBin nX nY bins x y hit :
  regular nX nY bins -> regular nX nY (setBin bins x y hit).
Proof.
  intros (Hlen & Hall). unfold setBin.
  destruct (nth_error bins x) as [column|] eqn:Ex; [|split; assumption].
  split; [rewrite assign_length; exact Hlen|].
  apply Forall_assign; [exact Hall|]. rewrite assign_length.
  rewrite Forall_forall in Hall. apply Hall.
  eapply nth_error_In. exact Ex.
Qed.

Lemma regular_repeat nX nY :
  regular nX nY (repeat (repeat None nY) nX).
Proof.
  split; [apply repeat_length|]. apply Forall_forall.
  intros column Hin. apply repeat_spec in Hin. subst column.
  apply repeat_length.
Qed.

Lemma getBin_repeat nX nY x y :
  getBin (repeat (repeat None nY) nX) x y = None.
Proof.
  unfold getBin.
  set (column := repeat (@None PlanarModuleCluster) nY).
  assert (Hcol : forall l, l = column \/ l = [] -> nth y l None = None).
  { intros l [->| ->]; [|destruct y; reflexivity].
    destruct (nth_in_or_default y column None) as [Hin|Hd]; [|exact Hd].
    apply repeat_spec in Hin. exact Hin. }
  apply Hcol.
  destruct (nth_in_or_default x (repeat column nX) []) as [Hin|Hd].
  - left. apply repeat_spec in Hin. exact Hin.
  - right. exact Hd.
Qed.

(** The hits in the matrix are hits of the call, each in its own bin. *)
Lemma sortHits_fill_from surface hits :
  forall bins x y hit,
  getBin (sortHits_fill surface hits bins) x y = Some hit ->
  (In hit hits /\ binOfHit hit = (x, y)) \/ getBin bins x y = Some hit.
Proof.
  induction hits as [|h rest IH]; intros bins x y hit H; cbn [sortHits_fill] in H.
  - right. exact H.
  - destruct (negb (surfaceAddr (referenceSurface h) =? surface)).
    + unfold getBin in H. destruct x, y; discriminate.
    + apply IH in H. destruct H as [(Hin & Hbin)|H].
      * left. split; [right; exact Hin|exact Hbin].
      * cbn [binOfHit fst snd] in H. apply getBin_setBin_inv in H.
        destruct H as [(-> & -> & ->)|H]; [|right; exact H].
        left. split; [left; reflexivity|reflexivity].
Qed.

(** The filling loop empties the matrix or keeps its dimensions. *)
Lemma sortHits_fill_regular surface nX nY hits :
  forall bins, regular nX nY bins ->
  sortHits_fill surface hits bins = []
  \/ regular nX nY (sortHits_fill surface hits bins).
Proof.
  induction hits as [|h rest IH]; intros bins Hreg; cbn [sortHits_fill].
  - right. exact Hreg.
  - destruct (negb (surfaceAddr (referenceSurface h) =? surface));
      [left; reflexivity|].
    apply IH. apply regular_setBin. exact Hreg.
Qed.

(** With all hits on the surface the loop looks for, nothing is
    emptied. *)
Lemma sortHits_fill_one_surface surface nX nY hits :
  Forall (fun hit => surfaceAddr (referenceSurface hit) = surface) hits ->
  forall bins, regular nX nY bins ->
  regular nX nY (sortHits_fill surface hits bins).
Proof.
  induction 1 as [|h rest Hh Hrest IH]; intros bins Hreg; cbn [sortHits_fill].
  - exact Hreg.
  - rewrite Hh, Nat.eqb_refl. cbn [negb].
    apply IH. apply regular_setBin. exact Hreg.
Qed.

(** A bin no hit of the loop falls into keeps its content. *)
Lemma sortHits_fill_keeps surface hits x y :
  Forall (fun hit => surfaceAddr (referenceSurface hit) = surface) hits ->
  Forall (fun hit => binOfHit hit <> (x, y)) hits ->
  forall bins,
  getBin (sortHits_fill surface hits bins) x y = getBin bins x y.
Proof.
  induction 1 as [|h rest Hh Hrest IH]; intros Hbins bins;
    cbn [sortHits_fill]; [reflexivity|].
  pose proof (Forall_inv Hbins) as Hb.
  pose proof (Forall_inv_tail Hbins) as Hbrest.
  rewrite Hh, Nat.eqb_refl. cbn [negb].
  rewrite IH by exact Hbrest.
  apply getBin_setBin_other. exact Hb.
Qed.

(** A hit whose bin is in the matrix, and is the bin of no other hit of
    the call, ends up in its bin. *)
Lemma sortHits_fill_places surface nX nY hits :
  Forall (fun hit => surfaceAddr (referenceSurface hit) = surface) hits ->
  NoDup (map binOfHit hits) ->
  Forall (fun hit => searchLocalX hit < nX /\ searchLocalY hit < nY) hits ->
  forall bins hit, regular nX nY bins -> In hit hits ->
  getBin (sortHits_fill surface hits bins) (searchLocalX hit)
         (searchLocalY hit) = Some hit.
Proof.
  induction 1 as [|h rest Hh Hrest IH]; intros Hnd Hin bins hit Hreg Hhit;
    [destruct Hhit|].
  cbn [map] in Hnd. apply NoDup_cons_iff in Hnd. destruct Hnd as (Hfresh & Hnd').
  destruct (Forall_inv Hin) as (HhX & HhY).
  pose proof (Forall_inv_tail Hin) as Hin'.
  cbn [sortHits_fill]. rewrite Hh, Nat.eqb_refl. cbn [negb binOfHit fst snd].
  destruct Hhit as [->|Hhit].
  - rewrite sortHits_fill_keeps.
    + apply getBin_setBin_same; [destruct Hreg; lia|].
      rewrite (regular_column nX nY bins (searchLocalX hit) Hreg HhX).
      exact HhY.
    + exact Hrest.
    + apply Forall_forall. intros h' Hh' Heq. apply Hfresh.
      change (binOfHit hit) with (searchLocalX hit, searchLocalY hit).
      rewrite <- Heq. apply in_map. exact Hh'.
  - apply IH; try assumption. apply regular_setBin. exact Hreg.
Qed.

(** A hit of another surface empties the matrix. *)
Lemma sortHits_fill_mixed surface hits :
  Exists (fun hit => surfaceAddr (referenceSurface hit) <> surface) hits ->
  forall bins, sortHits_fill surface hits bins = [].
Proof.
  induction hits as [|h rest IH]; intros Hex bins; [inversion Hex|].
  cbn [sortHits_fill].
  destruct (Nat.eqb_spec (surfaceAddr (referenceSurface h)) surface)
    as [Heq|Hne]; cbn [negb]; [|reflexivity].
  apply IH. apply Exists_cons in Hex. destruct Hex as [Hbad|Hlater];
    [contradiction|exact Hlater].
Qed.

(** What the walk over the lines leaves in the cluster list. *)
Lemma scanLines_clusters cell nInner nOuter :
  let out := clusters (scanLines cell nInner nOuter (mkScan None None [])) in
  (forall c hit, In c out -> member hit c -> exists o i, cell o i = Some hit)
  /\ (forall f s, In (f, Some s) out ->
        exists o i, cell o i = Some f
          /\ (i = nInner - 1 \/ cell o (S i) = Some s))
  /\ (forall o i hit, i < nInner -> o < nOuter -> cell o i = Some hit ->
        covered hit out).
Proof.
  destruct (scanLines_scanned cell nInner nOuter)
    as [Hpairs Hfrom _ Hcov].
  cbn zeta. split; [exact Hfrom|]. split; [exact Hpairs|].
  intros o i hit Hi Ho Hc.
  destruct (Hcov o i hit Hi (or_introl Ho) Hc) as [H|(_ & H)];
    [exact H|lia].
Qed.

Lemma sortHits_from hits x y hit :
  getBin (sortHits hits) x y = Some hit ->
  In hit hits /\ binOfHit hit = (x, y).
Proof.
  destruct hits as [|hit0 rest]; unfold sortHits.
  - unfold getBin. destruct x, y; discriminate.
  - intros H. apply sortHits_fill_from in H. destruct H as [H|H]; [exact H|].
    rewrite getBin_repeat in H. discriminate.
Qed.

Lemma sortHits_regular hit0 rest :
  sortHits (hit0 :: rest) = []
  \/ regular (binsX (referenceSurface hit0)) (binsY (referenceSurface hit0))
             (sortHits (hit0 :: rest)).
Proof.
  unfold sortHits. apply sortHits_fill_regular. apply regular_repeat.
Qed.

(** ** Hit Clusterer: the clusters *)

(** C4 as stated fails for two hits in the neighbouring bins 0 and 1 of
    a surface with three bins: the hit in bin 1 closes the first cluster
    and opens a second one, so it is in two clusters. *)
Lemma neighbouring_hits_share_a_hit :
  let sur := Fixture.gridSurface 7 3 1 in
  let hits := [Fixture.binHit 1 sur 0 0; Fixture.binHit 2 sur 1 0] in
  map clusterAddrs (clusterSpacePoints hits true) = [(1, Some 2); (2, None)]
  /\ occurrences 2 (clusterSpacePoints hits true) = 2.
Proof. vm_compute. split; reflexivity. Qed.

(** The pair of a hit at the end of one scan line and a hit at the start
    of the next: bins (2,0) and (0,1) of a surface with 3 by 2 bins end
    up in one cluster. *)
Lemma line_end_is_paired_with_next_line :
  let sur := Fixture.gridSurface 7 3 2 in
  let hits := [Fixture.binHit 1 sur 2 0; Fixture.binHit 2 sur 0 1] in
  map clusterAddrs (clusterSpacePoints hits true)
  = [(1, None); (1, Some 2); (2, None)].
Proof. vm_compute. reflexivity. Qed.

(** C4, amended. With clustering enabled every cluster holds at most
    two hits, all of them hits of the call; the second hit of a two-hit
    cluster sits in the bin next to the bin of the first hit along the
    scan line, unless the first hit sits in the last bin of its line; and
    when the hits of the call lie on one surface, in bins of its
    segmentation that are pairwise different, every hit is in at least
    one cluster. *)
Theorem clusters_chain_neighbouring_bins hit0 rest :
  let hits := hit0 :: rest in
  let out := clusterSpacePoints hits true in
  (forall cluster, In cluster out ->
     clusterSize cluster <= 2
     /\ forall hit, member hit cluster -> In hit hits)
  /\ (forall first second, In (first, Some second) out ->
        nextBinOrLineEnd hit0 first second)
  /\ (onSurfaceOf hit0 hits -> insideBinsOf hit0 hits ->
      NoDup (map binOfHit hits) ->
      forall hit, In hit hits -> covered hit out).
Proof.
  cbn zeta. destruct rest as [|hit1 rest].
  - (* a single hit *)
    cbn [clusterSpacePoints]. split; [|split].
    + intros cluster [<-|[]]. split; [cbn; lia|].
      intros hit [H|H]; cbn [fst snd] in H; [left; exact H|discriminate].
    + intros first second [H|[]]. discriminate.
    + intros _ _ _ hit [->|[]]. exists (hit, None).
      split; [left; reflexivity|left; reflexivity].
  - set (hits := hit0 :: hit1 :: rest).
    assert (Hsize : forall cluster : Cluster, clusterSize cluster <= 2)
      by (intros (f & [s|]); cbn; lia).
    change (clusterSpacePoints hits true)
      with (match sortHits hits with
            | [] => []
            | column0 :: _ =>
                clusters
                  (if length column0 <? length (sortHits hits)
                   then scanAlongX (sortHits hits) (length (sortHits hits))
                          (length column0) (mkScan None None [])
                   else scanAlongY (sortHits hits) (length (sortHits hits))
                          (length column0) (mkScan None None []))
            end).
    destruct (sortHits_regular hit0 (hit1 :: rest)) as [Hempty|Hreg];
      fold hits in Hempty || fold hits in Hreg.
    + (* another surface among the hits: no cluster *)
      rewrite Hempty. split; [intros cluster []|]. split; [intros f s []|].
      intros Hsur Hin _ hit _. exfalso.
      assert (Hreg : regular (binsX (referenceSurface hit0))
                       (binsY (referenceSurface hit0)) (sortHits hits)).
      { unfold sortHits, hits.
        apply sortHits_fill_one_surface; [exact Hsur|apply regular_repeat]. }
      destruct Hreg as (Hlen & _). rewrite Hempty in Hlen. cbn [length] in Hlen.
      destruct (Forall_inv Hin) as (HX & _). lia.
    + pose proof Hreg as (HnX & Hcols).
      destruct (sortHits hits) as [|column0 columns] eqn:Ebins.
      * split; [intros cluster []|]. split; [intros f s []|].
        intros _ Hin _ hit _. exfalso. cbn [length] in HnX.
        destruct (Forall_inv Hin) as (HX & _). lia.
      * pose proof (Forall_inv Hcols) as HnY.
        rewrite <- Ebins in *. cbv beta in HnY. rewrite HnX, HnY.
        set (nX := binsX (referenceSurface hit0)) in *.
        set (nY := binsY (referenceSurface hit0)) in *.
        assert (Hplace : onSurfaceOf hit0 hits -> insideBinsOf hit0 hits ->
                  NoDup (map binOfHit hits) -> forall hit, In hit hits ->
                  getBin (sortHits hits) (searchLocalX hit) (searchLocalY hit)
                  = Some hit /\ searchLocalX hit < nX /\ searchLocalY hit < nY).
        { intros Hsur Hin Hnd hit Hhit. split.
          - unfold sortHits, hits.
            eapply sortHits_fill_places; try eassumption. apply regular_repeat.
          - unfold insideBinsOf in Hin. rewrite Forall_forall in Hin.
            apply Hin. exact Hhit. }
        unfold nextBinOrLineEnd. fold nX nY.
        destruct (nY <? nX).
        -- change (scanAlongX (sortHits hits) nX nY (mkScan None None []))
             with (scanLines (fun o i => getBin (sortHits hits) i o) nX nY
                             (mkScan None None [])).
           destruct (scanLines_clusters
                       (fun o i => getBin (sortHits hits) i o) nX nY)
             as (Hfrom & Hpairs & Hcov).
           cbn zeta in Hfrom, Hpairs, Hcov.
           split; [|split].
           ++ intros cluster Hc. split; [apply Hsize|].
              intros hit Hm. destruct (Hfrom cluster hit Hc Hm) as (o & i & Hg).
              apply sortHits_from in Hg. apply Hg.
           ++ intros f s Hc.
              destruct (Hpairs f s Hc) as (o & i & Hf & Hnext).
              apply sortHits_from in Hf. destruct Hf as (_ & Hf).
              injection Hf as HfX HfY.
              destruct Hnext as [Hlast|Hs]; [left; lia|right].
              apply sortHits_from in Hs. destruct Hs as (_ & Hs).
              injection Hs as HsX HsY. lia.
           ++ intros Hsur Hin Hnd hit Hhit.
              destruct (Hplace Hsur Hin Hnd hit Hhit) as (Hg & HX & HY).
              exact (Hcov _ _ hit HX HY Hg).
        -- change (scanAlongY (sortHits hits) nX nY (mkScan None None []))
             with (scanLines (fun o i => getBin (sortHits hits) o i) nY nX
                             (mkScan None None [])).
           destruct (scanLines_clusters
                       (fun o i => getBin (sortHits hits) o i) nY nX)
             as (Hfrom & Hpairs & Hcov).
           cbn zeta in Hfrom, Hpairs, Hcov.
           split; [|split].
           ++ intros cluster Hc. split; [apply Hsize|].
              intros hit Hm. destruct (Hfrom cluster hit Hc Hm) as (o & i & Hg).
              apply sortHits_from in Hg. apply Hg.
           ++ intros f s Hc.
              destruct (Hpairs f s Hc) as (o & i & Hf & Hnext).
              apply sortHits_from in Hf. destruct Hf as (_ & Hf).
              injection Hf as HfX HfY.
              destruct Hnext as [Hlast|Hs]; [left; lia|right].
              apply sortHits_from in Hs. destruct Hs as (_ & Hs).
              injection Hs as HsX HsY. lia.
           ++ intros Hsur Hin Hnd hit Hhit.
              destruct (Hplace Hsur Hin Hnd hit Hhit) as (Hg & HX & HY).
              exact (Hcov _ _ hit HY HX Hg).
Qed.

Lemma clusters_chain_neighbouring_bins_witness :
  covered (Fixture.binHit 2 (Fixture.gridSurface 7 3 1) 1 0)
    (clusterSpacePoints
       [Fixture.binHit 1 (Fixture.gridSurface 7 3 1) 0 0;
        Fixture.binHit 2 (Fixture.gridSurface 7 3 1) 1 0] true).
Proof.
  refine (proj2 (proj2 (clusters_chain_neighbouring_bins
    (Fixture.binHit 1 (Fixture.gridSurface 7 3 1) 0 0)
    [Fixture.binHit 2 (Fixture.gridSurface 7 3 1) 1 0])) _ _ _ _ _).
  - repeat constructor.
  - repeat constructor.
  - repeat constructor; cbn; intuition discriminate.
  - right. left. reflexivity.
Defined.

(** C8 as stated fails without clustering: two hits of the surfaces 7
    and 8 give two clusters, and [addHits] builds candidates from them. *)
Lemma mixed_surfaces_without_clustering_give_clusters :
  let hitA := Fixture.binHit 1 (Fixture.gridSurface 7 3 2) 2 0 in
  let hitB := Fixture.binHit 2 (Fixture.gridSurface 8 3 2) 0 1 in
  let hitC := Fixture.binHit 3 (Fixture.gridSurface 9 3 2) 0 0 in
  let cfg := mkConfig 1 1 100 0 0 V3.Zero false false false in
  (surfaceAddr (referenceSurface hitA) =? surfaceAddr (referenceSurface hitB))
  = false
  /\ map clusterAddrs (clusterSpacePoints [hitA; hitB] false)
     = [(1, None); (2, None)]
  /\ map (fun sp => (clusterAddrs (hitModuleFront sp),
                     clusterAddrs (hitModuleBack sp)))
         (addHits Fixture.flatPhi Fixture.flatTheta cfg [] [hitA; hitB] [hitC]
                  (Some cfg))
     = [((1, None), (3, None)); ((2, None), (3, None))].
Proof. vm_compute. repeat split; reflexivity. Qed.

(** C8, amended. With clustering enabled, hits of more than one surface
    in one call give no cluster, and [addHits] adds no candidate when
    such hits are passed for a surface whose hits it clusters. *)
Theorem mixed_surfaces_with_clustering_give_no_cluster
    (phi theta : Vector3D -> float) dc cfg hit0 rest :
  Exists (fun hit => surfaceAddr (referenceSurface hit)
                     <> surfaceAddr (referenceSurface hit0)) (hit0 :: rest) ->
  clusterSpacePoints (hit0 :: rest) true = []
  /\ (forall spacePoints hitsBack,
        clusterFrontHits cfg = true ->
        addHits phi theta dc spacePoints (hit0 :: rest) hitsBack (Some cfg)
        = spacePoints)
  /\ (forall spacePoints hitsFront,
        clusterBackHits cfg = true ->
        addHits phi theta dc spacePoints hitsFront (hit0 :: rest) (Some cfg)
        = spacePoints).
Proof.
  intros Hex.
  assert (Hnone : clusterSpacePoints (hit0 :: rest) true = []).
  { destruct rest as [|hit1 rest].
    - apply Exists_cons in Hex. destruct Hex as [H|H];
        [contradiction|inversion H].
    - change (clusterSpacePoints (hit0 :: hit1 :: rest) true)
        with (match sortHits (hit0 :: hit1 :: rest) with
              | [] => []
              | column0 :: _ =>
                  clusters
                    (if length column0 <? length (sortHits (hit0 :: hit1 :: rest))
                     then scanAlongX (sortHits (hit0 :: hit1 :: rest))
                            (length (sortHits (hit0 :: hit1 :: rest)))
                            (length column0) (mkScan None None [])
                     else scanAlongY (sortHits (hit0 :: hit1 :: rest))
                            (length (sortHits (hit0 :: hit1 :: rest)))
                            (length column0) (mkScan None None []))
              end).
      unfold sortHits. rewrite (sortHits_fill_mixed _ _ Hex). reflexivity. }
  split; [exact Hnone|]. split.
  - intros spacePoints hitsBack Hc. unfold addHits.
    destruct hitsBack as [|hb hitsBack]; [reflexivity|].
    cbn [withDefault]. rewrite Hc, Hnone. reflexivity.
  - intros spacePoints hitsFront Hc. unfold addHits.
    destruct hitsFront as [|hf hitsFront]; [reflexivity|].
    cbn [withDefault]. rewrite Hc, Hnone.
    destruct (clusterSpacePoints (hf :: hitsFront) (clusterFrontHits cfg));
      reflexivity.
Qed.

Lemma mixed_surfaces_with_clustering_give_no_cluster_witness :
  clusterSpacePoints
    [Fixture.binHit 1 (Fixture.gridSurface 7 3 2) 2 0;
     Fixture.binHit 2 (Fixture.gridSurface 8 3 2) 0 1] true = [].
Proof.
  refine (proj1 (mixed_surfaces_with_clustering_give_no_cluster
    Fixture.flatPhi Fixture.flatTheta
    (Fixture.config V3.Zero 0 0 false) (Fixture.config V3.Zero 0 0 false)
    (Fixture.binHit 1 (Fixture.gridSurface 7 3 2) 2 0)
    [Fixture.binHit 2 (Fixture.gridSurface 8 3 2) 0 1] _)).
  apply Exists_cons_tl. apply Exists_cons_hd. cbn. lia.
Defined.

(** * Further properties of the builder *)

From Stdlib Require Import Permutation.

(** ** More facts on doubles *)

Module FloatOrder.

#[local] Open Scope float_scope.

(** The order of a sign, an exponent and a mantissa against another. *)
Lemma Pos_compare_cont_Eq (p q : positive) :
  Pos.compare_cont Eq p q = Pos.compare p q.
Proof. reflexivity. Qed.

Lemma SFcompare_Lt_trans (x y z : spec_float) :
  SFcompare x y = Some Lt -> SFcompare y z = Some Lt ->
  SFcompare x z = Some Lt.
Proof.
  destruct x as [sx|sx| |sx mx ex], y as [sy|sy| |sy my ey],
           z as [sz|sz| |sz mz ez];
    try destruct sx; try destruct sy; try destruct sz;
    unfold SFcompare; try congruence; intros Hxy Hyz; f_equal;
    injection Hxy as Hxy; injection Hyz as Hyz;
    rewrite ?Pos_compare_cont_Eq in *.
  - (* all negative *)
    destruct (Z.compare_spec ex ey) as [Exy|Exy|Exy]; try discriminate;
    destruct (Z.compare_spec ey ez) as [Eyz|Eyz|Eyz]; try discriminate;
    destruct (Z.compare_spec ex ez) as [Exz|Exz|Exz]; try lia; try reflexivity.
    destruct (Pos.compare_spec mx my); try discriminate;
    destruct (Pos.compare_spec my mz); try discriminate;
    destruct (Pos.compare_spec mx mz); try lia; reflexivity.
  - (* all positive *)
    destruct (Z.compare_spec ex ey) as [Exy|Exy|Exy]; try discriminate;
    destruct (Z.compare_spec ey ez) as [Eyz|Eyz|Eyz]; try discriminate;
    destruct (Z.compare_spec ex ez) as [Exz|Exz|Exz]; try lia; try reflexivity.
    destruct (Pos.compare_spec mx my); try discriminate;
    destruct (Pos.compare_spec my mz); try discriminate;
    destruct (Pos.compare_spec mx mz); try lia; reflexivity.
Qed.

Lemma ltb_Lt (x y : float) :
  (x <? y) = true <-> SFcompare (Prim2SF x) (Prim2SF y) = Some Lt.
Proof.
  rewrite FloatAxioms.ltb_spec. unfold SFltb.
  destruct (SFcompare (Prim2SF x) (Prim2SF y)) as [[]|];
    split; congruence.
Qed.

(** [<] on doubles is transitive, asymmetric and irreflexive. *)
Lemma ltb_trans (x y z : float) :
  (x <? y) = true -> (y <? z) = true -> (x <? z) = true.
Proof.
  rewrite !ltb_Lt. apply SFcompare_Lt_trans.
Qed.

Lemma ltb_asym (x y : float) : (x <? y) = true -> (y <? x) = false.
Proof.
  intros H. apply ltb_Lt in H. rewrite FloatAxioms.ltb_spec. unfold SFltb.
  rewrite (FloatFacts.SFcompare_antisym (Prim2SF x) (Prim2SF y)), H.
  reflexivity.
Qed.

Lemma ltb_irrefl (x : float) : (x <? x) = false.
Proof.
  destruct (x <? x) eqn:E; [|reflexivity].
  pose proof (ltb_asym _ _ E). congruence.
Qed.

Lemma ltb_leb (x y : float) : (x <? y) = true -> (x <=? y) = true.
Proof.
  rewrite FloatAxioms.ltb_spec, FloatAxioms.leb_spec. unfold SFltb, SFleb.
  destruct (SFcompare (Prim2SF x) (Prim2SF y)) as [[]|]; congruence.
Qed.

(** Addition of doubles is commutative. *)
Lemma SFadd_comm prec emax (x y : spec_float) :
  SFadd prec emax x y = SFadd prec emax y x.
Proof.
  destruct x as [sx|sx| |sx mx ex], y as [sy|sy| |sy my ey];
    try destruct sx; try destruct sy; try reflexivity;
    unfold SFadd; rewrite (Z.min_comm ey ex), Z.add_comm; reflexivity.
Qed.

Lemma add_comm (x y : float) : x + y = y + x.
Proof.
  apply Prim2SF_inj. rewrite !FloatAxioms.add_spec. apply SFadd_comm.
Qed.

End FloatOrder.

(** ** Cluster Matcher: which back cluster is selected *)

(** The score of a back cluster for a front cluster. *)
Definition scoreOf (phi theta : Vector3D -> float)
    (dhCfg : DoubleHitSpacePointConfig) (front back : Cluster) : float :=
  differenceOfHits phi theta (clusterPoint front) (clusterPoint back) dhCfg.

(** The test of the scan of [addHits], against the running minimum
    [diffMin]. *)
Definition accepts (phi theta : Vector3D -> float)
    (dhCfg : DoubleHitSpacePointConfig) (front : Cluster) (diffMin : float)
    (back : Cluster) : bool :=
  ((scoreOf phi theta dhCfg front back <? diffMin)
   && (0 <=? scoreOf phi theta dhCfg front back))%float.

(** A back cluster that the scan can select at all: its score is not
    negative and below the largest double. *)
Definition comparable (phi theta : Vector3D -> float)
    (dhCfg : DoubleHitSpacePointConfig) (front back : Cluster) : bool :=
  accepts phi theta dhCfg front DBL_MAX back.

(** The back cluster [addHits] pairs with a front cluster, if any. *)
Definition selectBack (phi theta : Vector3D -> float)
    (dhCfg : DoubleHitSpacePointConfig) (front : Cluster)
    (clustersBack : list Cluster) : option Cluster :=
  nth_error clustersBack
    (snd (scanBack phi theta dhCfg (clusterPoint front) clustersBack 0
                   DBL_MAX (length clustersBack))).

Section Selection.

Variables phi theta : Vector3D -> float.
Variable dhCfg : DoubleHitSpacePointConfig.

#[local] Open Scope float_scope.

(** The scan keeps a running minimum: at its end no cluster it has seen
    would still be accepted, and the minimum has not grown; it ends
    where it started or at a cluster it accepted. *)
Lemma scanBack_minimum front back :
  forall i0 diffMin clusterMin,
  let out := scanBack phi theta dhCfg (clusterPoint front) back i0
                      diffMin clusterMin in
  (fst out = diffMin \/ (fst out <? diffMin) = true)
  /\ Forall (fun c => accepts phi theta dhCfg front (fst out) c = false) back
  /\ ((out = (diffMin, clusterMin)
       /\ Forall (fun c => accepts phi theta dhCfg front diffMin c = false)
                 back)
      \/ (exists j c,
            nth_error back j = Some c
            /\ snd out = (i0 + j)%nat
            /\ fst out = scoreOf phi theta dhCfg front c
            /\ accepts phi theta dhCfg front diffMin c = true)).
Proof.
  induction back as [|c rest IH]; intros i0 diffMin clusterMin.
  - cbn [scanBack fst snd]. split; [left; reflexivity|].
    split; [constructor|]. left. split; [reflexivity|constructor].
  - cbn [scanBack].
    change (differenceOfHits phi theta (clusterPoint front) (clusterPoint c)
              dhCfg) with (scoreOf phi theta dhCfg front c).
    set (s := scoreOf phi theta dhCfg front c).
    destruct ((s <? diffMin) && (0 <=? s)) eqn:Hacc.
    + destruct (IH (S i0) s i0) as (Hle & Hall & Hsel).
      set (out := scanBack phi theta dhCfg (clusterPoint front) rest (S i0)
                           s i0) in *.
      cbn zeta in Hle, Hall, Hsel.
      apply andb_true_iff in Hacc. destruct Hacc as (Hlt & Hpos).
      assert (Hout : (fst out <? diffMin) = true).
      { destruct Hle as [->|Hle]; [exact Hlt|].
        eapply FloatOrder.ltb_trans; eassumption. }
      split; [right; exact Hout|]. split.
      * constructor; [|exact Hall]. unfold accepts. fold s.
        destruct Hle as [->|Hle].
        -- rewrite FloatOrder.ltb_irrefl. reflexivity.
        -- rewrite (FloatOrder.ltb_asym _ _ Hle). reflexivity.
      * right. destruct Hsel as [(Heq & _)|(j & c' & Hj & Hk & Hs & Ha)].
        -- exists 0%nat, c. rewrite Heq. cbn [fst snd nth_error].
           repeat split; [lia|]. unfold accepts. fold s.
           rewrite Hlt, Hpos. reflexivity.
        -- exists (S j), c'. cbn [nth_error].
           repeat split; [exact Hj|rewrite Hk; lia|exact Hs|].
           unfold accepts in *. apply andb_true_iff in Ha.
           destruct Ha as (Ha & Hb). rewrite Hb, andb_true_r.
           eapply FloatOrder.ltb_trans; eassumption.
    + destruct (IH (S i0) diffMin clusterMin) as (Hle & Hall & Hsel).
      set (out := scanBack phi theta dhCfg (clusterPoint front) rest (S i0)
                           diffMin clusterMin) in *.
      cbn zeta in Hle, Hall, Hsel.
      split; [exact Hle|]. split.
      * constructor; [|exact Hall]. unfold accepts. fold s.
        destruct (0 <=? s) eqn:Hpos; [|apply andb_false_r].
        rewrite andb_true_r in *.
        destruct Hle as [->|Hle]; [exact Hacc|].
        destruct (s <? fst out) eqn:E; [|reflexivity].
        rewrite (FloatOrder.ltb_trans _ _ _ E Hle) in Hacc. discriminate.
      * destruct Hsel as [(Heq & Hrest)|(j & c' & Hj & Hk & Hs & Ha)].
        -- left. split; [exact Heq|]. constructor; [exact Hacc|exact Hrest].
        -- right. exists (S j), c'. cbn [nth_error].
           repeat split; [exact Hj|rewrite Hk; lia|exact Hs|exact Ha].
Qed.

(** A back cluster is selected exactly when some back cluster is
    comparable. *)
Lemma selectBack_none front backs :
  selectBack phi theta dhCfg front backs = None
  <-> existsb (comparable phi theta dhCfg front) backs = false.
Proof.
  unfold selectBack.
  destruct (scanBack_minimum front backs 0 DBL_MAX (length backs))
    as (_ & _ & [(Heq & Hall)|(j & c & Hj & Hk & _ & Ha)]).
  - rewrite Heq. cbn [snd]. split; intros _.
    + apply not_true_is_false. intros Hex. apply existsb_exists in Hex.
      destruct Hex as (c & Hin & Hc). rewrite Forall_forall in Hall.
      unfold comparable in Hc. rewrite (Hall c Hin) in Hc. discriminate.
    + apply nth_error_None. lia.
  - rewrite Hk. cbn [Nat.add]. rewrite Hj. split; [discriminate|].
    intros Hex. exfalso.
    assert (existsb (comparable phi theta dhCfg front) backs = true).
    { apply existsb_exists. exists c. split; [|exact Ha].
      eapply nth_error_In. exact Hj. }
    congruence.
Qed.

(** The selected back cluster is a back cluster of the call, it is
    comparable, and no comparable back cluster scores strictly below
    it. *)
Lemma selectBack_some front backs back :
  selectBack phi theta dhCfg front backs = Some back ->
  In back backs
  /\ comparable phi theta dhCfg front back = true
  /\ Forall (fun other =>
       accepts phi theta dhCfg front (scoreOf phi theta dhCfg front back)
               other = false) backs.
Proof.
  unfold selectBack. intros Hsel.
  destruct (scanBack_minimum front backs 0 DBL_MAX (length backs))
    as (_ & Hall & [(Heq & _)|(j & c & Hj & Hk & Hs & Ha)]).
  - rewrite Heq in Hsel. cbn [snd] in Hsel.
    assert (nth_error backs (length backs) = None)
      by (apply nth_error_None; lia).
    congruence.
  - rewrite Hk in Hsel. cbn [Nat.add] in Hsel.
    assert (c = back) by congruence. subst c.
    split; [eapply nth_error_In; exact Hj|]. split; [exact Ha|].
    rewrite <- Hs. exact Hall.
Qed.

(** The outer loop appends, for each front cluster in turn, the pair
    with its selected back cluster. *)
Lemma matchFront_flat_map fronts backs :
  forall spacePoints,
  matchFront phi theta dhCfg fronts backs spacePoints
  = spacePoints
    ++ flat_map (fun front =>
         match selectBack phi theta dhCfg front backs with
         | Some back => [newSpacePoint front back]
         | None => []
         end) fronts.
Proof.
  induction fronts as [|front rest IH]; intros spacePoints.
  - cbn [matchFront flat_map]. rewrite app_nil_r. reflexivity.
  - cbn [matchFront flat_map]. rewrite IH. fold (selectBack phi theta dhCfg front backs).
    destruct (selectBack phi theta dhCfg front backs) as [back|].
    + rewrite <- app_assoc. reflexivity.
    + reflexivity.
Qed.

End Selection.

Section AddHits.

Variables phi theta : Vector3D -> float.
Variable defaultConfig : DoubleHitSpacePointConfig.

#[local] Open Scope float_scope.

Lemma clusterSpacePoints_nil performClustering :
  clusterSpacePoints [] performClustering = [].
Proof. destruct performClustering; reflexivity. Qed.

Lemma selectBack_nil dhCfg front :
  selectBack phi theta dhCfg front [] = None.
Proof. reflexivity. Qed.

Lemma flat_map_nothing {A B : Type} (f : A -> list B) (l : list A) :
  (forall x, f x = []) -> flat_map f l = [].
Proof.
  intros H. induction l as [|x l IH]; cbn [flat_map]; [reflexivity|].
  rewrite H, IH. reflexivity.
Qed.

(** What [addHits] appends to the space points it is given. *)
Lemma addHits_appends spacePoints hitsFront hitsBack cfg :
  let dhCfg := withDefault defaultConfig cfg in
  let clustersFront := clusterSpacePoints hitsFront (clusterFrontHits dhCfg) in
  let clustersBack := clusterSpacePoints hitsBack (clusterBackHits dhCfg) in
  addHits phi theta defaultConfig spacePoints hitsFront hitsBack cfg
  = spacePoints
    ++ flat_map (fun front =>
         match selectBack phi theta dhCfg front clustersBack with
         | Some back => [newSpacePoint front back]
         | None => []
         end) clustersFront.
Proof.
  cbn zeta. unfold addHits.
  destruct hitsFront as [|hf hitsFront].
  { rewrite clusterSpacePoints_nil. cbn [flat_map]. rewrite app_nil_r.
    reflexivity. }
  destruct hitsBack as [|hb hitsBack].
  { rewrite (clusterSpacePoints_nil (clusterBackHits _)).
    rewrite flat_map_nothing by reflexivity. rewrite app_nil_r. reflexivity. }
  destruct (clusterSpacePoints (hf :: hitsFront) _) as [|cf fronts] eqn:Ef.
  { cbn [flat_map]. rewrite app_nil_r. reflexivity. }
  destruct (clusterSpacePoints (hb :: hitsBack) _) as [|cb backs] eqn:Eb.
  { rewrite flat_map_nothing by reflexivity. rewrite app_nil_r. reflexivity. }
  apply matchFront_flat_map.
Qed.

(** A score that is not negative went through the three gates. *)
Lemma score_not_negative_gates dhCfg pos1 pos2 :
  (0 <=? differenceOfHits phi theta pos1 pos2 dhCfg) = true ->
  let dTheta := theta (pos1 - vertex dhCfg)%v3 - theta (pos2 - vertex dhCfg)%v3 in
  let dPhi := phi (pos1 - vertex dhCfg)%v3 - phi (pos2 - vertex dhCfg)%v3 in
  (diffDist dhCfg <? V3.norm (pos1 - pos2)%v3) = false
  /\ (diffTheta2 dhCfg <? dTheta * dTheta) = false
  /\ (diffPhi2 dhCfg <? dPhi * dPhi) = false
  /\ differenceOfHits phi theta pos1 pos2 dhCfg
     = dTheta * dTheta + dPhi * dPhi.
Proof.
  unfold differenceOfHits. cbn zeta.
  destruct (diffDist dhCfg <? _); [intros H; vm_compute in H; discriminate|].
  destruct (diffTheta2 dhCfg <? _); [intros H; vm_compute in H; discriminate|].
  destruct (diffPhi2 dhCfg <? _); [intros H; vm_compute in H; discriminate|].
  intros _. repeat split.
Qed.

End AddHits.

(** The candidates a call of [addHits] appends. *)
Definition addedCandidates (phi theta : Vector3D -> float)
    (defaultConfig : DoubleHitSpacePointConfig)
    (spacePoints : list DoubleHitSpacePoint)
    (hitsFront hitsBack : list PlanarModuleCluster)
    (cfg : option DoubleHitSpacePointConfig) : list DoubleHitSpacePoint :=
  skipn (length spacePoints)
        (addHits phi theta defaultConfig spacePoints hitsFront hitsBack cfg).

Section Added.

Variables phi theta : Vector3D -> float.
Variable defaultConfig : DoubleHitSpacePointConfig.

#[local] Open Scope float_scope.

Lemma addedCandidates_flat_map spacePoints hitsFront hitsBack cfg :
  let dhCfg := withDefault defaultConfig cfg in
  let clustersFront := clusterSpacePoints hitsFront (clusterFrontHits dhCfg) in
  let clustersBack := clusterSpacePoints hitsBack (clusterBackHits dhCfg) in
  addedCandidates phi theta defaultConfig spacePoints hitsFront hitsBack cfg
  = flat_map (fun front =>
      match selectBack phi theta dhCfg front clustersBack with
      | Some back => [newSpacePoint front back]
      | None => []
      end) clustersFront.
Proof.
  cbn zeta. unfold addedCandidates.
  rewrite (addHits_appends phi theta defaultConfig). cbn zeta.
  rewrite skipn_app, skipn_all, Nat.sub_diag. reflexivity.
Qed.

Lemma selected_forall dhCfg (P : DoubleHitSpacePoint -> Prop) fronts backs :
  (forall front back,
     In front fronts -> selectBack phi theta dhCfg front backs = Some back ->
     P (newSpacePoint front back)) ->
  Forall P
    (flat_map (fun front =>
       match selectBack phi theta dhCfg front backs with
       | Some back => [newSpacePoint front back]
       | None => []
       end) fronts).
Proof.
  induction fronts as [|front rest IH]; intros H; cbn [flat_map];
    [constructor|].
  apply Forall_app. split.
  - destruct (selectBack phi theta dhCfg front backs) as [back|] eqn:E;
      [|constructor].
    constructor; [|constructor]. apply H; [left; reflexivity|exact E].
  - apply IH. intros f b Hin. apply H. right. exact Hin.
Qed.

(** X1. [addHits] keeps the space points it is given and appends, in
    the order of the front clusters, one unset candidate for each front
    cluster that has a comparable back cluster (a score that is not
    negative and below the largest double), and none for the others; the
    back cluster of a candidate is a back cluster of the call. *)
Theorem addHits_pairs_each_comparable_front
    spacePoints hitsFront hitsBack cfg :
  let dhCfg := withDefault defaultConfig cfg in
  let clustersFront := clusterSpacePoints hitsFront (clusterFrontHits dhCfg) in
  let clustersBack := clusterSpacePoints hitsBack (clusterBackHits dhCfg) in
  let added := addedCandidates phi theta defaultConfig spacePoints
                               hitsFront hitsBack cfg in
  addHits phi theta defaultConfig spacePoints hitsFront hitsBack cfg
  = spacePoints ++ added
  /\ map hitModuleFront added
     = filter (fun front =>
                 existsb (comparable phi theta dhCfg front) clustersBack)
              clustersFront
  /\ Forall (fun sp => spacePoint sp = V3.Zero
                       /\ In (hitModuleBack sp) clustersBack) added.
Proof.
  cbn zeta. rewrite addedCandidates_flat_map. cbn zeta.
  split; [apply addHits_appends|]. split.
  - induction (clusterSpacePoints hitsFront _) as [|front rest IH];
      [reflexivity|].
    cbn [flat_map filter]. rewrite map_app, IH.
    destruct (selectBack phi theta (withDefault defaultConfig cfg) front _)
      as [back|] eqn:E.
    + assert (Hex : existsb (comparable phi theta
                       (withDefault defaultConfig cfg) front)
                      (clusterSpacePoints hitsBack
                         (clusterBackHits (withDefault defaultConfig cfg)))
                    = true).
      { apply not_false_is_true. intros Hno.
        apply selectBack_none in Hno. congruence. }
      rewrite Hex. reflexivity.
    + apply selectBack_none in E. rewrite E. reflexivity.
  - apply selected_forall. intros front back _ Hsel.
    split; [reflexivity|].
    apply (selectBack_some phi theta _ _ _ _ Hsel).
Qed.

(** X2. Every candidate [addHits] appends went through the three gates:
    the midpoints of its clusters are not farther apart than [diffDist],
    their squared differences in theta and in phi are not above
    [diffTheta2] and [diffPhi2], and its score is the sum of the two
    squared differences. *)
Theorem addHits_candidates_pass_the_gates
    spacePoints hitsFront hitsBack cfg :
  let dhCfg := withDefault defaultConfig cfg in
  Forall (fun sp =>
    let pos1 := clusterPoint (hitModuleFront sp) in
    let pos2 := clusterPoint (hitModuleBack sp) in
    let dTheta :=
      theta (pos1 - vertex dhCfg)%v3 - theta (pos2 - vertex dhCfg)%v3 in
    let dPhi :=
      phi (pos1 - vertex dhCfg)%v3 - phi (pos2 - vertex dhCfg)%v3 in
    (diffDist dhCfg <? V3.norm (pos1 - pos2)%v3) = false
    /\ (diffTheta2 dhCfg <? dTheta * dTheta) = false
    /\ (diffPhi2 dhCfg <? dPhi * dPhi) = false
    /\ differenceOfHits phi theta pos1 pos2 dhCfg
       = dTheta * dTheta + dPhi * dPhi)
    (addedCandidates phi theta defaultConfig spacePoints hitsFront hitsBack
                     cfg).
Proof.
  cbn zeta. rewrite addedCandidates_flat_map. cbn zeta.
  apply selected_forall. intros front back _ Hsel.
  destruct (selectBack_some phi theta _ _ _ _ Hsel) as (_ & Hc & _).
  unfold comparable, accepts, scoreOf in Hc.
  apply andb_true_iff in Hc. destruct Hc as (_ & Hpos).
  cbn [newSpacePoint hitModuleFront hitModuleBack].
  apply (score_not_negative_gates phi theta _ _ _ Hpos).
Qed.

(** X3. The back cluster of a candidate has the smallest score: no back
    cluster of the call has a score that is not negative and strictly
    below the score of the back cluster selected. *)
Theorem addHits_selects_the_smallest_score
    spacePoints hitsFront hitsBack cfg :
  let dhCfg := withDefault defaultConfig cfg in
  let clustersBack := clusterSpacePoints hitsBack (clusterBackHits dhCfg) in
  Forall (fun sp =>
    forall other, In other clustersBack ->
      ((scoreOf phi theta dhCfg (hitModuleFront sp) other
        <? scoreOf phi theta dhCfg (hitModuleFront sp) (hitModuleBack sp))
       && (0 <=? scoreOf phi theta dhCfg (hitModuleFront sp) other)) = false)
    (addedCandidates phi theta defaultConfig spacePoints hitsFront hitsBack
                     cfg).
Proof.
  cbn zeta. rewrite addedCandidates_flat_map. cbn zeta.
  apply selected_forall. intros front back _ Hsel.
  destruct (selectBack_some phi theta _ _ _ _ Hsel) as (_ & _ & Hall).
  cbn [newSpacePoint hitModuleFront hitModuleBack].
  intros other Hin. rewrite Forall_forall in Hall. apply (Hall other Hin).
Qed.

End Added.

(** ** Space-Point Solver: what a call does to the storage *)

(** The position the attempt to solve a candidate finds, from its two
    clusters: the branches of [solveAttempt], without the candidate. *)
Definition attemptedPoint (dhCfg : DoubleHitSpacePointConfig)
    (front back : Cluster) : option Vector3D :=
  let ends1 := endsOfCluster front in
  let ends2 := endsOfCluster back in
  let q := (fst ends1 - snd ends1)%v3 in
  let r := (fst ends2 - snd ends2)%v3 in
  let fromVertex :=
    let st := vertexParameters dhCfg (set_qr freshParameters q r)
                               ends1 ends2 in
    if fst (resolveInLimit st)
    then Some (storedPoint ends1 (snd (resolveInLimit st)))
    else if fst (recoverSpacePoint (snd (resolveInLimit st)) dhCfg)
         then Some (storedPoint ends1
                      (snd (recoverSpacePoint (snd (resolveInLimit st))
                                              dhCfg)))
         else None in
  if usePerpProj dhCfg then
    if (calcPerpProj (fst ends1) (fst ends2) q r <=? 0)%float
    then Some (fst ends1 + 1 * q)%v3
    else fromVertex
  else fromVertex.

Section Storage.

#[local] Open Scope float_scope.

Lemma vertexSolve_outcome dhCfg hits :
  snd (vertexSolve dhCfg
         (set_qr freshParameters (frontAxis hits) (backAxis hits))
         (frontEnds hits) (backEnds hits) hits)
  = let st := vertexState dhCfg hits in
    if fst (resolveInLimit st)
    then set_spacePoint hits
           (storedPoint (frontEnds hits) (snd (resolveInLimit st)))
    else if fst (recoverSpacePoint (snd (resolveInLimit st)) dhCfg)
         then set_spacePoint hits
                (storedPoint (frontEnds hits)
                   (snd (recoverSpacePoint (snd (resolveInLimit st)) dhCfg)))
         else hits.
Proof.
  unfold vertexSolve. cbn zeta.
  change (vertexParameters dhCfg _ _ _) with (vertexState dhCfg hits).
  destruct (resolveInLimit (vertexState dhCfg hits)) as [inLimit st'].
  cbn [fst snd]. destruct inLimit; [reflexivity|].
  destruct (recoverSpacePoint st' dhCfg) as [ok st''].
  cbn [fst snd]. destruct ok; reflexivity.
Qed.

(** An attempt changes the position of the candidate, to a point found
    from its clusters alone, or nothing. *)
Lemma solveAttempt_outcome dhCfg p hits :
  snd (solveAttempt dhCfg p hits)
  = match attemptedPoint dhCfg (hitModuleFront hits) (hitModuleBack hits) with
    | Some point => set_spacePoint hits point
    | None => hits
    end.
Proof.
  assert (Hv : snd (vertexSolve dhCfg
                 (set_qr freshParameters (frontAxis hits) (backAxis hits))
                 (frontEnds hits) (backEnds hits) hits)
               = match
                   (let st := vertexState dhCfg hits in
                    if fst (resolveInLimit st)
                    then Some (storedPoint (frontEnds hits)
                                 (snd (resolveInLimit st)))
                    else if fst (recoverSpacePoint (snd (resolveInLimit st))
                                                   dhCfg)
                         then Some (storedPoint (frontEnds hits)
                                (snd (recoverSpacePoint
                                        (snd (resolveInLimit st)) dhCfg)))
                         else None)
                 with
                 | Some point => set_spacePoint hits point
                 | None => hits
                 end).
  { rewrite vertexSolve_outcome. cbn zeta.
    destruct (fst (resolveInLimit (vertexState dhCfg hits))); [reflexivity|].
    destruct (fst (recoverSpacePoint _ dhCfg)); reflexivity. }
  unfold solveAttempt, attemptedPoint. cbn zeta.
  change (reset p) with freshParameters.
  change (endsOfCluster (hitModuleFront hits)) with (frontEnds hits).
  change (endsOfCluster (hitModuleBack hits)) with (backEnds hits).
  change (fst (frontEnds hits) - snd (frontEnds hits))%v3
    with (frontAxis hits).
  change (fst (backEnds hits) - snd (backEnds hits))%v3 with (backAxis hits).
  change (vertexParameters dhCfg
            (set_qr freshParameters (frontAxis hits) (backAxis hits))
            (frontEnds hits) (backEnds hits))
    with (vertexState dhCfg hits).
  cbn [sp_q sp_r set_qr].
  destruct (usePerpProj dhCfg); [|exact Hv].
  destruct (calcPerpProj _ _ _ _ <=? 0); [reflexivity|exact Hv].
Qed.

Lemma solveCandidate_outcome dhCfg hits :
  solveCandidate dhCfg hits
  = if V3.neq (spacePoint hits) V3.Zero then hits
    else match attemptedPoint dhCfg (hitModuleFront hits)
                              (hitModuleBack hits) with
         | Some point => set_spacePoint hits point
         | None => hits
         end.
Proof.
  unfold solveCandidate, calculateSpacePoints_body.
  destruct (V3.neq (spacePoint hits) V3.Zero); [reflexivity|].
  apply solveAttempt_outcome.
Qed.

Lemma solveCandidate_clusters dhCfg hits :
  hitModuleFront (solveCandidate dhCfg hits) = hitModuleFront hits
  /\ hitModuleBack (solveCandidate dhCfg hits) = hitModuleBack hits.
Proof.
  rewrite solveCandidate_outcome.
  destruct (V3.neq _ _); [split; reflexivity|].
  destruct (attemptedPoint _ _ _); split; reflexivity.
Qed.

Lemma solveCandidate_idempotent dhCfg hits :
  solveCandidate dhCfg (solveCandidate dhCfg hits)
  = solveCandidate dhCfg hits.
Proof.
  rewrite (solveCandidate_outcome dhCfg hits).
  destruct (V3.neq (spacePoint hits) V3.Zero) eqn:Hset.
  - rewrite solveCandidate_outcome, Hset. reflexivity.
  - destruct (attemptedPoint dhCfg (hitModuleFront hits) (hitModuleBack hits))
      as [point|] eqn:Hp.
    + rewrite solveCandidate_outcome.
      cbn [set_spacePoint spacePoint hitModuleFront hitModuleBack].
      rewrite Hp. destruct (V3.neq point V3.Zero); reflexivity.
    + rewrite solveCandidate_outcome, Hset, Hp. reflexivity.
Qed.

Variable defaultConfig : DoubleHitSpacePointConfig.

(** X4. A call of [calculateSpacePoints] keeps the number and the order
    of the candidates and the clusters of each candidate; it changes
    positions only. *)
Theorem calculateSpacePoints_keeps_the_pairs
    (defaultParameters : SpacePointParameters) storage cfg :
  let solved :=
    calculateSpacePoints defaultConfig defaultParameters storage cfg in
  length solved = length storage
  /\ map hitModuleFront solved = map hitModuleFront storage
  /\ map hitModuleBack solved = map hitModuleBack storage.
Proof.
  cbn zeta. unfold calculateSpacePoints.
  rewrite calculateSpacePoints_loop_map.
  split; [apply length_map|]. rewrite !map_map.
  split; apply map_ext; intros hits; apply solveCandidate_clusters.
Qed.

(** X5. Calling [calculateSpacePoints] again with the same
    configuration changes nothing: a candidate that was given a position
    is skipped or solved to the same position, and a candidate that was
    left unset is left unset again. *)
Theorem calculateSpacePoints_twice
    (defaultParameters defaultParameters' : SpacePointParameters)
    storage cfg :
  calculateSpacePoints defaultConfig defaultParameters'
    (calculateSpacePoints defaultConfig defaultParameters storage cfg) cfg
  = calculateSpacePoints defaultConfig defaultParameters storage cfg.
Proof.
  unfold calculateSpacePoints. rewrite !calculateSpacePoints_loop_map.
  rewrite map_map. apply map_ext. intros hits.
  apply solveCandidate_idempotent.
Qed.

(** X6. Every candidate is solved on its own: the candidates before it
    in the storage and the solver state left by an earlier call have no
    influence, so solving a storage made of two parts is solving the
    parts. *)
Theorem calculateSpacePoints_solves_each_candidate_alone
    (defaultParameters defaultParameters' : SpacePointParameters)
    storage1 storage2 cfg :
  calculateSpacePoints defaultConfig defaultParameters
                       (storage1 ++ storage2) cfg
  = calculateSpacePoints defaultConfig defaultParameters storage1 cfg
    ++ calculateSpacePoints defaultConfig defaultParameters' storage2 cfg.
Proof.
  unfold calculateSpacePoints. rewrite !calculateSpacePoints_loop_map.
  apply map_app.
Qed.

End Storage.

(** ** Space-Point Solver: the points it stores *)

(** The limit of the vertex-based check for a configuration. *)
Definition limitOf (dhCfg : DoubleHitSpacePointConfig) : float :=
  (if negb (stripLengthTolerance dhCfg =? 0)
   then 1 + stripLengthTolerance dhCfg else 1)%float.

Section StoredPoints.

#[local] Open Scope float_scope.

Lemma resolveInLimit_fields st :
  sp_limit (snd (resolveInLimit st)) = sp_limit st
  /\ (fst (resolveInLimit st) = true ->
      (abs (sp_m (snd (resolveInLimit st))) <=? sp_limit st) = true
      /\ (abs (sp_n (snd (resolveInLimit st))) <=? sp_limit st) = true).
Proof.
  unfold resolveInLimit.
  destruct (abs (sp_m st) <=? sp_limit st) eqn:Hm; cbn [fst snd];
    [|split; [reflexivity|discriminate]].
  fields. split; [reflexivity|]. intros Hn. split; [exact Hm|exact Hn].
Qed.

(** A recovery that succeeds leaves both parameters strictly within the
    limit, which it does not change. *)
Lemma recoverSpacePoint_within_limit p cfg :
  fst (recoverSpacePoint p cfg) = true ->
  (abs (sp_m (snd (recoverSpacePoint p cfg))) <? sp_limit p) = true
  /\ (abs (sp_n (snd (recoverSpacePoint p cfg))) <? sp_limit p) = true.
Proof.
  destruct (recoverSpacePoint_cases p cfg) as (Hfst & _ & Hmn).
  cbn zeta in Hfst, Hmn. rewrite Hfst. clear Hfst.
  destruct (stripLengthGapTolerance cfg <=? 0); [discriminate|].
  destruct (limitExtendedOf p cfg <? abs (sp_m p)); [discriminate|].
  destruct (limitExtendedOf p cfg <? abs (nOf p)); [discriminate|].
  destruct (Hmn eq_refl eq_refl eq_refl) as (Hup & Hdown).
  destruct ((1 <? sp_m p) && (1 <? nOf p)).
  - destruct (Hup eq_refl) as (-> & ->). intros H.
    apply andb_true_iff in H. exact H.
  - destruct ((sp_m p <? -1) && (nOf p <? -1)); [|discriminate].
    destruct (Hdown eq_refl eq_refl) as (-> & ->). intros H.
    apply andb_true_iff in H. exact H.
Qed.

(** X7. In vertex-based mode an unset candidate either stays as it is
    or gets the position [0.5 * (a + b + m * q)] for a parameter [m] whose
    magnitude is not above the limit (1, or [1 + stripLengthTolerance]
    when the tolerance is not zero): no point beyond the tolerated ends of
    the front strip is ever stored. *)
Theorem vertex_mode_points_are_within_the_limit dhCfg hits :
  usePerpProj dhCfg = false ->
  V3.neq (spacePoint hits) V3.Zero = false ->
  solveCandidate dhCfg hits = hits
  \/ exists m,
       (abs m <=? limitOf dhCfg) = true
       /\ solveCandidate dhCfg hits
          = set_spacePoint hits
              (0.5 * (fst (frontEnds hits) + snd (frontEnds hits)
                      + m * frontAxis hits))%v3.
Proof.
  intros Hperp Hunset.
  rewrite (solveCandidate_vertex _ _ Hunset Hperp), vertexSolve_outcome.
  cbn zeta.
  destruct (vertexState_fields dhCfg hits)
    as (Hq & _ & _ & _ & _ & _ & _ & _ & Hlimit).
  fold (limitOf dhCfg) in Hlimit.
  destruct (resolveInLimit_fields (vertexState dhCfg hits)) as (Hl & Hin).
  pose proof (resolveInLimit_keeps_q (vertexState dhCfg hits)) as Hq'.
  destruct (fst (resolveInLimit (vertexState dhCfg hits))).
  - right. exists (sp_m (snd (resolveInLimit (vertexState dhCfg hits)))).
    destruct (Hin eq_refl) as (Hm & _). rewrite Hlimit in Hm.
    split; [exact Hm|]. unfold storedPoint. rewrite Hq', Hq. reflexivity.
  - destruct (fst (recoverSpacePoint _ dhCfg)) eqn:Hrec; [|left; reflexivity].
    right.
    exists (sp_m (snd (recoverSpacePoint
                         (snd (resolveInLimit (vertexState dhCfg hits)))
                         dhCfg))).
    destruct (recoverSpacePoint_within_limit _ _ Hrec) as (Hm & _).
    rewrite Hl, Hlimit in Hm. split; [apply FloatOrder.ltb_leb; exact Hm|].
    unfold storedPoint.
    destruct (recoverSpacePoint_cases
                (snd (resolveInLimit (vertexState dhCfg hits))) dhCfg)
      as (_ & Hrq & _).
    cbn zeta in Hrq. rewrite Hrq, Hq', Hq. reflexivity.
Qed.

Lemma vertex_mode_points_are_within_the_limit_witness :
  solveCandidate (Fixture.config Fixture.vertexBelow 0.5 1 false)
                 Fixture.overshooting
  = Fixture.overshooting
  \/ exists m,
       (abs m <=? limitOf (Fixture.config Fixture.vertexBelow 0.5 1 false))
       = true
       /\ solveCandidate (Fixture.config Fixture.vertexBelow 0.5 1 false)
                         Fixture.overshooting
          = set_spacePoint Fixture.overshooting
              (0.5 * (fst (frontEnds Fixture.overshooting)
                      + snd (frontEnds Fixture.overshooting)
                      + m * frontAxis Fixture.overshooting))%v3.
Proof.
  apply (vertex_mode_points_are_within_the_limit
           (Fixture.config Fixture.vertexBelow 0.5 1 false)
           Fixture.overshooting); reflexivity.
Defined.



End StoredPoints.

(** ** Hit Clusterer: single hits, no clustering, and hits that share a bin *)

(** X9. Without clustering, and for a single hit whatever the flag says,
    every hit becomes a cluster of its own, with no second hit, in the
    order of the hits. *)
Theorem clusters_are_the_hits_without_clustering hits performClustering :
  performClustering = false \/ length hits = 1 ->
  clusterSpacePoints hits performClustering
  = map (fun hit => (hit, None)) hits.
Proof.
  intros [-> |Hone].
  - destruct hits as [|hit [|hit' rest]]; reflexivity.
  - destruct hits as [|hit [|hit' rest]]; try discriminate.
    destruct performClustering; reflexivity.
Qed.

Lemma clusters_are_the_hits_without_clustering_witness :
  clusterSpacePoints
    [Fixture.binHit 1 (Fixture.gridSurface 7 3 1) 0 0;
     Fixture.binHit 2 (Fixture.gridSurface 7 3 1) 1 0] false
  = [(Fixture.binHit 1 (Fixture.gridSurface 7 3 1) 0 0, None);
     (Fixture.binHit 2 (Fixture.gridSurface 7 3 1) 1 0, None)].
Proof.
  apply (clusters_are_the_hits_without_clustering
           [Fixture.binHit 1 (Fixture.gridSurface 7 3 1) 0 0;
            Fixture.binHit 2 (Fixture.gridSurface 7 3 1) 1 0] false).
  left. reflexivity.
Defined.

(** The hit is in bin ([x], [y]). *)
Definition inBin (x y : nat) (hit : PlanarModuleCluster) : bool :=
  (searchLocalX hit =? x) && (searchLocalY hit =? y).

(** The last hit of a list that is in bin ([x], [y]). *)
Definition lastInBin (x y : nat) (hits : list PlanarModuleCluster)
    : option PlanarModuleCluster :=
  find (inBin x y) (rev hits).

Lemma find_snoc {A : Type} (p : A -> bool) (l : list A) (x : A) :
  find p (l ++ [x])
  = match find p l with
    | Some y => Some y
    | None => if p x then Some x else None
    end.
Proof.
  induction l as [|y l IH]; cbn [app find]; [reflexivity|].
  destruct (p y); [reflexivity|exact IH].
Qed.

Lemma getBin_in_range bins x y hit :
  getBin bins x y = Some hit ->
  x < length bins /\ y < length (nth x bins []).
Proof.
  unfold getBin. intros H. split.
  - destruct (Nat.lt_ge_cases x (length bins)) as [Hlt|Hge]; [exact Hlt|].
    rewrite (nth_overflow bins [] Hge) in H. destruct y; discriminate.
  - destruct (Nat.lt_ge_cases y (length (nth x bins []))) as [Hlt|Hge];
      [exact Hlt|].
    rewrite (nth_overflow _ None Hge) in H. discriminate.
Qed.

(** A hit found in the matrix after the filling loop is the last hit of
    the loop in that bin, or it was there before and no hit of the loop
    is in that bin. *)
Lemma sortHits_fill_last surface hits :
  forall bins x y hit,
  getBin (sortHits_fill surface hits bins) x y = Some hit ->
  lastInBin x y hits = Some hit
  \/ (lastInBin x y hits = None /\ getBin bins x y = Some hit).
Proof.
  unfold lastInBin.
  induction hits as [|h rest IH]; intros bins x y hit H;
    cbn [sortHits_fill] in H.
  - right. split; [reflexivity|exact H].
  - destruct (negb (surfaceAddr (referenceSurface h) =? surface)).
    { unfold getBin in H. destruct x, y; discriminate. }
    cbn [binOfHit fst snd] in H. cbn [rev]. rewrite find_snoc.
    apply IH in H. destruct H as [-> |(-> & H)]; [left; reflexivity|].
    unfold inBin.
    destruct (Nat.eqb_spec (searchLocalX h) x) as [Hx|Hx];
      destruct (Nat.eqb_spec (searchLocalY h) y) as [Hy|Hy]; cbn [andb].
    + left. subst x y.
      destruct (getBin_setBin_inv _ _ _ _ _ _ _ H) as [(_ & _ & ->)|Hold];
        [reflexivity|].
      apply getBin_in_range in Hold. destruct Hold as (HX & HY).
      rewrite (getBin_setBin_same bins _ _ h HX HY) in H. exact H.
    + right. split; [reflexivity|].
      rewrite getBin_setBin_other in H by congruence. exact H.
    + right. split; [reflexivity|].
      rewrite getBin_setBin_other in H by congruence. exact H.
    + right. split; [reflexivity|].
      rewrite getBin_setBin_other in H by congruence. exact H.
Qed.

Lemma sortHits_last hits x y hit :
  getBin (sortHits hits) x y = Some hit -> lastInBin x y hits = Some hit.
Proof.
  destruct hits as [|hit0 rest]; unfold sortHits.
  - unfold getBin. destruct x, y; discriminate.
  - intros H. apply sortHits_fill_last in H.
    destruct H as [H|(_ & H)]; [exact H|].
    rewrite getBin_repeat in H. discriminate.
Qed.

(** X10. When several hits of a call fall into the same bin, the later
    one replaces the earlier one in the matrix: a hit of a cluster made
    with clustering is always the last hit of the call in its bin, so a
    hit that is followed by another hit in the same bin is in no
    cluster. *)
Theorem only_the_last_hit_of_a_bin_is_clustered hit0 hit1 rest cluster hit :
  In cluster (clusterSpacePoints (hit0 :: hit1 :: rest) true) ->
  member hit cluster ->
  lastInBin (searchLocalX hit) (searchLocalY hit) (hit0 :: hit1 :: rest)
  = Some hit.
Proof.
  set (hits := hit0 :: hit1 :: rest).
  change (clusterSpacePoints hits true)
    with (match sortHits hits with
          | [] => []
          | column0 :: _ =>
              clusters
                (if length column0 <? length (sortHits hits)
                 then scanAlongX (sortHits hits) (length (sortHits hits))
                        (length column0) (mkScan None None [])
                 else scanAlongY (sortHits hits) (length (sortHits hits))
                        (length column0) (mkScan None None []))
          end).
  destruct (sortHits hits) as [|column0 columns] eqn:Ebins; [intros []|].
  rewrite <- Ebins.
  assert (Hgrid : forall x y, getBin (sortHits hits) x y = Some hit ->
            lastInBin (searchLocalX hit) (searchLocalY hit) hits = Some hit).
  { intros x y Hg. pose proof (sortHits_from _ _ _ _ Hg) as (_ & Hbin).
    injection Hbin as <- <-. apply sortHits_last. exact Hg. }
  destruct (length column0 <? length (sortHits hits)).
  - change (scanAlongX (sortHits hits) (length (sortHits hits))
              (length column0) (mkScan None None []))
      with (scanLines (fun o i => getBin (sortHits hits) i o)
              (length (sortHits hits)) (length column0)
              (mkScan None None [])).
    intros Hin Hm.
    destruct (scanLines_clusters (fun o i => getBin (sortHits hits) i o)
                (length (sortHits hits)) (length column0)) as (Hfrom & _).
    destruct (Hfrom cluster hit Hin Hm) as (o & i & Hg).
    exact (Hgrid _ _ Hg).
  - change (scanAlongY (sortHits hits) (length (sortHits hits))
              (length column0) (mkScan None None []))
      with (scanLines (fun o i => getBin (sortHits hits) o i)
              (length column0) (length (sortHits hits))
              (mkScan None None [])).
    intros Hin Hm.
    destruct (scanLines_clusters (fun o i => getBin (sortHits hits) o i)
                (length column0) (length (sortHits hits))) as (Hfrom & _).
    destruct (Hfrom cluster hit Hin Hm) as (o & i & Hg).
    exact (Hgrid _ _ Hg).
Qed.

Lemma only_the_last_hit_of_a_bin_is_clustered_witness :
  lastInBin 0 0
    [Fixture.binHit 1 (Fixture.gridSurface 7 3 1) 0 0;
     Fixture.binHit 2 (Fixture.gridSurface 7 3 1) 0 0]
  = Some (Fixture.binHit 2 (Fixture.gridSurface 7 3 1) 0 0).
Proof.
  apply (only_the_last_hit_of_a_bin_is_clustered
           (Fixture.binHit 1 (Fixture.gridSurface 7 3 1) 0 0)
           (Fixture.binHit 2 (Fixture.gridSurface 7 3 1) 0 0) []
           (Fixture.binHit 2 (Fixture.gridSurface 7 3 1) 0 0, None)
           (Fixture.binHit 2 (Fixture.gridSurface 7 3 1) 0 0)).
  - left. reflexivity.
  - left. reflexivity.
Defined.

(** ** Two-hit clusters: the order of the hits *)

Lemma mean3_comm (u v : Vector3D) : mean3 u v = mean3 v u.
Proof.
  unfold mean3.
  rewrite (FloatOrder.add_comm (vx u)), (FloatOrder.add_comm (vy u)),
    (FloatOrder.add_comm (vz u)).
  reflexivity.
Qed.

(** X11. The midpoint and the strip ends of a two-hit cluster do not
    depend on which of the two hits comes first. *)
Theorem two_hit_cluster_is_symmetric (hit1 hit2 : PlanarModuleCluster) :
  clusterPoint (hit1, Some hit2) = clusterPoint (hit2, Some hit1)
  /\ endsOfCluster (hit1, Some hit2) = endsOfCluster (hit2, Some hit1).
Proof.
  unfold clusterPoint, endsOfCluster. cbn [fst snd].
  rewrite (mean3_comm (globalCoords hit1)),
    (mean3_comm (fst (endsOfStrip hit1))),
    (mean3_comm (snd (endsOfStrip hit1))).
  split; reflexivity.
Qed.

(** ** Zeros, infinities and NaN *)

Module FloatClasses.

#[local] Open Scope float_scope.

(** A double is a zero; a zero or a NaN; an infinity or a NaN; a NaN. *)
Definition isZero (x : float) : Prop := exists s, Prim2SF x = S754_zero s.
Definition isNaN (x : float) : Prop := Prim2SF x = S754_nan.
Definition zeroOrNaN (x : float) : Prop := isZero x \/ isNaN x.
Definition infOrNaN (x : float) : Prop :=
  (exists s, Prim2SF x = S754_infinity s) \/ isNaN x.

Ltac classes :=
  unfold zeroOrNaN, infOrNaN, isZero, isNaN in *;
  repeat match goal with
         | H : _ \/ _ |- _ => destruct H
         | H : exists _, _ |- _ => destruct H
         end.

Ltac by_cases x :=
  let s := fresh "s" in
  destruct (Prim2SF x) as [s|s| |s ? ?]; try destruct s;
  try discriminate; cbn; eauto.

Lemma eqb_zero (x : float) : (x =? 0) = true -> isZero x.
Proof.
  rewrite FloatAxioms.eqb_spec, FloatFacts.Prim2SF_zero.
  unfold isZero, SFeqb, SFcompare.
  destruct (Prim2SF x) as [s|s| |s m e]; try destruct s;
    try discriminate; eauto.
Qed.

Lemma mul_zero_zero x y : isZero x -> isZero y -> isZero (x * y).
Proof.
  unfold isZero. rewrite FloatAxioms.mul_spec. intros (sx & ->) (sy & ->).
  cbn. eauto.
Qed.

Lemma mul_zero_l x y : isZero x -> zeroOrNaN (x * y).
Proof.
  unfold zeroOrNaN, isZero, isNaN. rewrite FloatAxioms.mul_spec.
  intros (sx & ->). by_cases y.
Qed.

Lemma mul_zeroOrNaN_l x y : zeroOrNaN x -> zeroOrNaN (x * y).
Proof.
  unfold zeroOrNaN, isZero, isNaN. rewrite FloatAxioms.mul_spec.
  intros [(sx & ->)| ->]; by_cases y.
Qed.

Lemma mul_zeroOrNaN_r x y : zeroOrNaN y -> zeroOrNaN (x * y).
Proof.
  unfold zeroOrNaN, isZero, isNaN. rewrite FloatAxioms.mul_spec.
  intros [(sy & ->)| ->]; by_cases x.
Qed.

Lemma add_zero_zero x y : isZero x -> isZero y -> isZero (x + y).
Proof.
  unfold isZero. rewrite FloatAxioms.add_spec. intros (sx & ->) (sy & ->).
  destruct sx, sy; cbn; eauto.
Qed.

Lemma add_zeroOrNaN x y : zeroOrNaN x -> zeroOrNaN y -> zeroOrNaN (x + y).
Proof.
  unfold zeroOrNaN, isZero, isNaN. rewrite FloatAxioms.add_spec.
  intros [(sx & ->)| ->] [(sy & ->)| ->];
    try destruct sx; try destruct sy; cbn; eauto.
Qed.

Lemma sub_zeroOrNaN x y : zeroOrNaN x -> zeroOrNaN y -> zeroOrNaN (x - y).
Proof.
  unfold zeroOrNaN, isZero, isNaN. rewrite FloatAxioms.sub_spec.
  intros [(sx & ->)| ->] [(sy & ->)| ->];
    try destruct sx; try destruct sy; cbn; eauto.
Qed.

Lemma sqrt_zero x : isZero x -> isZero (sqrt x).
Proof.
  unfold isZero. rewrite FloatAxioms.sqrt_spec. intros (sx & ->).
  cbn. eauto.
Qed.

Lemma div_by_zeroOrNaN x y : zeroOrNaN y -> infOrNaN (x / y).
Proof.
  unfold zeroOrNaN, infOrNaN, isZero, isNaN. rewrite FloatAxioms.div_spec.
  intros [(sy & ->)| ->]; by_cases x.
Qed.

Lemma div_zeroOrNaN_by_zero x y : zeroOrNaN x -> isZero y -> isNaN (x / y).
Proof.
  unfold zeroOrNaN, isZero, isNaN. rewrite FloatAxioms.div_spec.
  intros [(sx & ->)| ->] (sy & ->); reflexivity.
Qed.

Lemma mul_NaN_r x y : isNaN y -> isNaN (x * y).
Proof.
  unfold isNaN. rewrite FloatAxioms.mul_spec. intros ->. by_cases x.
Qed.

Lemma add_NaN_r x y : isNaN y -> isNaN (x + y).
Proof.
  unfold isNaN. rewrite FloatAxioms.add_spec. intros ->. by_cases x.
Qed.

Lemma sub_NaN_r x y : isNaN y -> isNaN (x - y).
Proof.
  unfold isNaN. rewrite FloatAxioms.sub_spec. intros ->. by_cases x.
Qed.

Lemma NaN_not_below x y : isNaN x -> (x <? y) = false.
Proof.
  unfold isNaN. rewrite FloatAxioms.ltb_spec. intros ->. reflexivity.
Qed.

Lemma abs_NaN_not_below x y : isNaN x -> (abs x <? y) = false.
Proof.
  unfold isNaN. rewrite FloatAxioms.ltb_spec, FloatAxioms.abs_spec.
  intros ->. reflexivity.
Qed.

(** The threshold of [calcPerpProj] is not below a zero or a NaN. *)
Lemma threshold_not_below x : zeroOrNaN x -> (10e-7 <? abs x) = false.
Proof.
  unfold zeroOrNaN, isZero, isNaN.
  rewrite FloatAxioms.ltb_spec, FloatAxioms.abs_spec.
  assert (Hc : exists m e, Prim2SF 10e-7 = S754_finite false m e)
    by (vm_compute; eauto).
  destruct Hc as (m & e & ->).
  intros [(s & ->)| ->]; reflexivity.
Qed.

(** What [is_finite] says of the binary representation. *)
Lemma is_finite_spec x :
  is_finite x = true ->
  (exists s, Prim2SF x = S754_zero s)
  \/ (exists s m e, Prim2SF x = S754_finite s m e).
Proof.
  unfold is_finite, is_nan, is_infinity.
  rewrite !FloatAxioms.eqb_spec, FloatAxioms.abs_spec,
    FloatFacts.Prim2SF_infinity.
  destruct (Prim2SF x) as [s|s| |s m e]; try destruct s;
    unfold SFeqb, SFcompare, SFabs; cbn [negb orb];
    try discriminate; eauto 6.
Qed.

(** An infinity or a NaN is not within a finite limit. *)
Lemma infOrNaN_beyond_finite x limit :
  infOrNaN x -> is_finite limit = true -> (abs x <=? limit) = false.
Proof.
  unfold infOrNaN, isNaN. intros Hx Hl.
  rewrite FloatAxioms.leb_spec, FloatAxioms.abs_spec.
  destruct (is_finite_spec _ Hl) as [(s & ->)|(s & m & e & ->)];
    destruct Hx as [(sx & ->)| ->]; reflexivity.
Qed.

(** An infinity or a NaN above 1 is plus infinity, below -1 minus
    infinity; moved by 1 and multiplied by a zero or a NaN they give a
    NaN. *)
Lemma above_one_overshoot_NaN x y :
  infOrNaN x -> (1 <? x) = true -> zeroOrNaN y -> isNaN ((x - 1) * y).
Proof.
  unfold infOrNaN, zeroOrNaN, isZero, isNaN.
  rewrite FloatAxioms.ltb_spec, FloatAxioms.mul_spec, FloatAxioms.sub_spec,
    FloatFacts.Prim2SF_one.
  intros [(sx & ->)| ->]; [|discriminate].
  destruct sx; [discriminate|]. intros _ [(sy & ->)| ->]; reflexivity.
Qed.

Lemma below_minus_one_overshoot_NaN x y :
  infOrNaN x -> (x <? -1) = true -> zeroOrNaN y -> isNaN (- (x + 1) * y).
Proof.
  unfold infOrNaN, zeroOrNaN, isZero, isNaN.
  rewrite FloatAxioms.ltb_spec, FloatAxioms.mul_spec, FloatAxioms.opp_spec,
    FloatAxioms.add_spec, FloatFacts.Prim2SF_one,
    FloatFacts.Prim2SF_minus_one.
  intros [(sx & ->)| ->]; [|discriminate].
  destruct sx; [|discriminate]. intros _ [(sy & ->)| ->]; reflexivity.
Qed.

Lemma div_zeroOrNaN x y : zeroOrNaN x -> zeroOrNaN (x / y).
Proof.
  unfold zeroOrNaN, isZero, isNaN. rewrite FloatAxioms.div_spec.
  intros [(sx & ->)| ->]; by_cases y.
Qed.

Lemma mul_zero_r x y : isZero y -> zeroOrNaN (x * y).
Proof. intros H. apply mul_zeroOrNaN_r. left. exact H. Qed.

End FloatClasses.

(** ** A front strip of length zero *)

Section ZeroLengthStrip.

#[local] Open Scope float_scope.

Import FloatClasses.

Lemma zero_vector_components q :
  V3.neq q V3.Zero = false ->
  isZero (vx q) /\ isZero (vy q) /\ isZero (vz q).
Proof.
  unfold V3.neq, V3.Zero. cbn [vx vy vz]. intros H.
  apply orb_false_iff in H. destruct H as (H & Hz).
  apply orb_false_iff in H. destruct H as (Hx & Hy).
  apply negb_false_iff in Hx, Hy, Hz.
  repeat split; apply eqb_zero; assumption.
Qed.

Lemma dot_zero_l q r :
  V3.neq q V3.Zero = false -> zeroOrNaN (V3.dot q r).
Proof.
  intros H. destruct (zero_vector_components q H) as (Hx & Hy & Hz).
  unfold V3.dot. repeat apply add_zeroOrNaN; apply mul_zero_l; assumption.
Qed.

Lemma dot_zero_zero q :
  V3.neq q V3.Zero = false -> isZero (V3.dot q q).
Proof.
  intros H. destruct (zero_vector_components q H) as (Hx & Hy & Hz).
  unfold V3.dot. repeat apply add_zero_zero; apply mul_zero_zero; assumption.
Qed.

(** For a front axis of length zero [calcPerpProj] answers 1. *)
Lemma calcPerpProj_zero_axis a c q r :
  V3.neq q V3.Zero = false -> calcPerpProj a c q r = 1.
Proof.
  intros H. apply calcPerpProj_degenerate. apply threshold_not_below.
  apply sub_zeroOrNaN.
  - left. apply dot_zero_zero. exact H.
  - apply mul_zeroOrNaN_l. apply dot_zero_l. exact H.
Qed.

(** With a front axis of length zero the scaling factor of the recovery
    is a NaN, and the recovery fails. *)
Lemma recoverSpacePoint_zero_axis p cfg :
  V3.neq (sp_q p) V3.Zero = false -> fst (recoverSpacePoint p cfg) = false.
Proof.
  intros H.
  assert (Hsec : isNaN (secOnFirstScale p)).
  { unfold secOnFirstScale, qmagOf, V3.norm.
    apply div_zeroOrNaN_by_zero; [apply dot_zero_l; exact H|].
    apply mul_zero_zero; apply sqrt_zero; apply dot_zero_zero; exact H. }
  destruct (recoverSpacePoint_cases p cfg) as (Hfst & _).
  cbn zeta in Hfst. rewrite Hfst. clear Hfst.
  destruct (stripLengthGapTolerance cfg <=? 0); [reflexivity|].
  destruct (limitExtendedOf p cfg <? abs (sp_m p)); [reflexivity|].
  destruct (limitExtendedOf p cfg <? abs (nOf p)); [reflexivity|].
  destruct ((1 <? sp_m p) && (1 <? nOf p)).
  - rewrite (NaN_not_below ((nOf p - 1) * secOnFirstScale p))
      by (apply mul_NaN_r; exact Hsec).
    rewrite abs_NaN_not_below; [reflexivity|].
    apply sub_NaN_r. apply mul_NaN_r. exact Hsec.
  - destruct ((sp_m p <? -1) && (nOf p <? -1)); [|reflexivity].
    rewrite (NaN_not_below (- (nOf p + 1) * secOnFirstScale p))
      by (apply mul_NaN_r; exact Hsec).
    rewrite abs_NaN_not_below; [reflexivity|].
    apply add_NaN_r. apply mul_NaN_r. exact Hsec.
Qed.

(** X12. A candidate whose front strip has length zero (top end equal
    to bottom end) is never given a position, with or without the
    perpendicular projection, as long as the limit of the configuration
    is finite: the projection answers its sentinel, [m] is an infinity or
    a NaN, and the recovery fails on a scaling factor that is a NaN. *)
Theorem zero_length_front_strip_stays_unset dhCfg hits :
  V3.neq (frontAxis hits) V3.Zero = false ->
  is_finite (limitOf dhCfg) = true ->
  solveCandidate dhCfg hits = hits.
Proof.
  intros Hq Hlimit.
  destruct (V3.neq (spacePoint hits) V3.Zero) eqn:Hunset;
    [apply solveCandidate_skip; exact Hunset|].
  assert (Hvertex :
    snd (vertexSolve dhCfg
           (set_qr freshParameters (frontAxis hits) (backAxis hits))
           (frontEnds hits) (backEnds hits) hits) = hits).
  { rewrite vertexSolve_outcome. cbn zeta.
    destruct (vertexState_fields dhCfg hits)
      as (Hsq & _ & _ & _ & _ & _ & Hm & _ & Hl).
    cbn zeta in Hsq, Hm, Hl. fold (frontAxis hits) in Hsq, Hm.
    fold (limitOf dhCfg) in Hl.
    assert (Hres : resolveInLimit (vertexState dhCfg hits)
                   = (false, vertexState dhCfg hits)).
    { unfold resolveInLimit. rewrite Hl, Hm.
      rewrite infOrNaN_beyond_finite; [reflexivity| |exact Hlimit].
      apply div_by_zeroOrNaN. apply dot_zero_l. exact Hq. }
    rewrite Hres. cbn [fst snd].
    rewrite recoverSpacePoint_zero_axis; [reflexivity|].
    rewrite Hsq. exact Hq. }
  destruct (usePerpProj dhCfg) eqn:Hperp.
  - rewrite (solveCandidate_perp _ _ Hunset Hperp).
    unfold lambdaOf. rewrite (calcPerpProj_zero_axis _ _ _ _ Hq).
    change (1 <=? 0) with false. exact Hvertex.
  - rewrite (solveCandidate_vertex _ _ Hunset Hperp). exact Hvertex.
Qed.

End ZeroLengthStrip.

(** ** A back strip of length zero *)

Section ZeroLengthBackStrip.

#[local] Open Scope float_scope.

Import FloatClasses.

Lemma dot_zero_r q r :
  V3.neq r V3.Zero = false -> zeroOrNaN (V3.dot q r).
Proof.
  intros H. destruct (zero_vector_components r H) as (Hx & Hy & Hz).
  unfold V3.dot. repeat apply add_zeroOrNaN; apply mul_zero_r; assumption.
Qed.

Lemma dot_zeroOrNaN_r q v :
  zeroOrNaN (vx v) -> zeroOrNaN (vy v) -> zeroOrNaN (vz v) ->
  zeroOrNaN (V3.dot q v).
Proof.
  intros Hx Hy Hz. unfold V3.dot.
  repeat apply add_zeroOrNaN; apply mul_zeroOrNaN_r; assumption.
Qed.

Lemma cross_zero_l r t :
  V3.neq r V3.Zero = false ->
  zeroOrNaN (vx (V3.cross r t)) /\ zeroOrNaN (vy (V3.cross r t))
  /\ zeroOrNaN (vz (V3.cross r t)).
Proof.
  intros H. destruct (zero_vector_components r H) as (Hx & Hy & Hz).
  unfold V3.cross. cbn [vx vy vz].
  repeat split; apply sub_zeroOrNaN; apply mul_zero_l; assumption.
Qed.

(** X13. In vertex-based mode a candidate whose back strip has length
    zero is never given a position either, as long as the limit of the
    configuration is finite. *)
Theorem zero_length_back_strip_stays_unset dhCfg hits :
  usePerpProj dhCfg = false ->
  V3.neq (backAxis hits) V3.Zero = false ->
  is_finite (limitOf dhCfg) = true ->
  solveCandidate dhCfg hits = hits.
Proof.
  intros Hperp Hr Hlimit.
  destruct (V3.neq (spacePoint hits) V3.Zero) eqn:Hunset;
    [apply solveCandidate_skip; exact Hunset|].
  rewrite (solveCandidate_vertex _ _ Hunset Hperp), vertexSolve_outcome.
  cbn zeta.
  destruct (vertexState_fields dhCfg hits)
    as (Hsq & Hsr & _ & _ & _ & _ & Hm & Hn & Hl).
  cbn zeta in Hsq, Hsr, Hm, Hl. fold (backAxis hits) in Hsr, Hm.
  fold (limitOf dhCfg) in Hl.
  set (st := vertexState dhCfg hits) in *.
  assert (Hmclass : infOrNaN (sp_m st)).
  { rewrite Hm. apply div_by_zeroOrNaN.
    destruct (cross_zero_l (backAxis hits)
                (fst (backEnds hits) + snd (backEnds hits)
                 - 2 * vertex dhCfg)%v3 Hr) as (Hx & Hy & Hz).
    apply dot_zeroOrNaN_r; assumption. }
  assert (Hres : resolveInLimit st = (false, st)).
  { unfold resolveInLimit. rewrite Hl.
    rewrite (infOrNaN_beyond_finite _ _ Hmclass Hlimit). reflexivity. }
  rewrite Hres. cbn [fst snd].
  assert (Hnclass : infOrNaN (nOf st)).
  { unfold nOf. rewrite Hn. change (0 =? 0) with true. cbv iota.
    apply div_by_zeroOrNaN. rewrite Hsr. apply dot_zero_l. exact Hr. }
  assert (Hsec : zeroOrNaN (secOnFirstScale st)).
  { unfold secOnFirstScale. apply div_zeroOrNaN. rewrite Hsr.
    apply dot_zero_r. exact Hr. }
  assert (Hrec : fst (recoverSpacePoint st dhCfg) = false).
  { destruct (recoverSpacePoint_cases st dhCfg) as (Hfst & _).
    cbn zeta in Hfst. rewrite Hfst. clear Hfst.
    destruct (stripLengthGapTolerance dhCfg <=? 0); [reflexivity|].
    destruct (limitExtendedOf st dhCfg <? abs (sp_m st)); [reflexivity|].
    destruct (limitExtendedOf st dhCfg <? abs (nOf st)); [reflexivity|].
    destruct ((1 <? sp_m st) && (1 <? nOf st)) eqn:Eup.
    - apply andb_true_iff in Eup. destruct Eup as (_ & En).
      pose proof (above_one_overshoot_NaN _ _ Hnclass En Hsec) as Hnan.
      rewrite (NaN_not_below _ (sp_m st - 1) Hnan).
      rewrite abs_NaN_not_below; [reflexivity|].
      apply sub_NaN_r. exact Hnan.
    - destruct ((sp_m st <? -1) && (nOf st <? -1)) eqn:Edown; [|reflexivity].
      apply andb_true_iff in Edown. destruct Edown as (_ & En).
      pose proof (below_minus_one_overshoot_NaN _ _ Hnclass En Hsec) as Hnan.
      rewrite (NaN_not_below _ (- (sp_m st + 1)) Hnan).
      rewrite abs_NaN_not_below; [reflexivity|].
      apply add_NaN_r. exact Hnan. }
  rewrite Hrec. reflexivity.
Qed.

End ZeroLengthBackStrip.

(** ** Perpendicular strip axes *)

Section PerpendicularAxes.

#[local] Open Scope float_scope.

Import FloatClasses.

Lemma finite_nonzero_zeroOrNaN x : zeroOrNaN x -> finite_nonzero x = false.
Proof.
  unfold zeroOrNaN, isZero, isNaN, finite_nonzero, is_finite, is_nan,
    is_infinity, is_zero, zero.
  rewrite !FloatAxioms.eqb_spec, FloatAxioms.abs_spec,
    FloatFacts.Prim2SF_zero, FloatFacts.Prim2SF_infinity.
  intros [(s & ->)| ->]; [destruct s|]; reflexivity.
Qed.

Lemma is_finite_infOrNaN x : infOrNaN x -> is_finite x = false.
Proof.
  unfold infOrNaN, isNaN, is_finite, is_nan, is_infinity.
  rewrite !FloatAxioms.eqb_spec, FloatAxioms.abs_spec,
    FloatFacts.Prim2SF_infinity.
  intros [(s & ->)| ->]; [destruct s|]; reflexivity.
Qed.

Lemma sub_infOrNaN_r x y : infOrNaN y -> infOrNaN (x - y).
Proof.
  unfold infOrNaN, isNaN. rewrite FloatAxioms.sub_spec.
  intros [(sy & ->)| ->]; by_cases x; destruct sy; cbn; eauto.
Qed.

Lemma add_infOrNaN_r x y : infOrNaN y -> infOrNaN (x + y).
Proof.
  unfold infOrNaN, isNaN. rewrite FloatAxioms.add_spec.
  intros [(sy & ->)| ->]; by_cases x; destruct sy; cbn; eauto.
Qed.

Lemma abs_infOrNaN_not_below x limit : infOrNaN x -> (abs x <? limit) = false.
Proof.
  unfold infOrNaN, isNaN.
  rewrite FloatAxioms.ltb_spec, FloatAxioms.abs_spec.
  intros [(s & ->)| ->]; [|reflexivity].
  destruct (Prim2SF limit) as [sl|sl| |sl ml el]; try destruct sl;
    reflexivity.
Qed.

(** X17. With perpendicular strip axes, that is when the computed
    [q.r] is zero, every state that reaches a correction branch divides
    its overshoot by a zero or a NaN: the scaling factor is not a finite
    non-zero double, the corrected [n] is an infinity or a NaN, and the
    recovery fails. *)
Theorem perpendicular_axes_divide_by_zero p cfg :
  reachesCorrection p cfg = true ->
  (V3.dot (sp_q p) (sp_r p) =? 0) = true ->
  finite_nonzero (secOnFirstScale p) = false
  /\ is_finite (sp_n (snd (recoverSpacePoint p cfg))) = false
  /\ fst (recoverSpacePoint p cfg) = false.
Proof.
  intros Hreach Hqr.
  assert (Hsec : zeroOrNaN (secOnFirstScale p)).
  { unfold secOnFirstScale. apply div_zeroOrNaN. left.
    apply eqb_zero. exact Hqr. }
  unfold reachesCorrection in Hreach.
  apply andb_true_iff in Hreach. destruct Hreach as (Hreach & Hside).
  apply andb_true_iff in Hreach. destruct Hreach as (Hreach & Hn).
  apply andb_true_iff in Hreach. destruct Hreach as (Hg & Hm).
  apply negb_true_iff in Hg, Hm, Hn.
  destruct (recoverSpacePoint_cases p cfg) as (Hfst & _ & Hmn).
  cbn zeta in Hfst, Hmn.
  destruct (Hmn Hg Hm Hn) as (Hup & Hdown). clear Hmn.
  rewrite Hfst, Hg, Hm, Hn. clear Hfst.
  split; [apply finite_nonzero_zeroOrNaN; exact Hsec|].
  destruct ((1 <? sp_m p) && (1 <? nOf p)) eqn:E.
  - destruct (Hup eq_refl) as (_ & ->).
    split.
    + apply is_finite_infOrNaN, sub_infOrNaN_r, div_by_zeroOrNaN, Hsec.
    + rewrite (abs_infOrNaN_not_below (nOf p - _ / secOnFirstScale p)).
      * apply andb_false_r.
      * apply sub_infOrNaN_r, div_by_zeroOrNaN, Hsec.
  - cbn [orb] in Hside. rewrite Hside.
    destruct (Hdown eq_refl Hside) as (_ & ->).
    split.
    + apply is_finite_infOrNaN, add_infOrNaN_r, div_by_zeroOrNaN, Hsec.
    + rewrite (abs_infOrNaN_not_below (nOf p + _ / secOnFirstScale p)).
      * apply andb_false_r.
      * apply add_infOrNaN_r, div_by_zeroOrNaN, Hsec.
Qed.

End PerpendicularAxes.

Lemma perpendicular_axes_divide_by_zero_witness :
  let cfg := Fixture.config Fixture.vertexBelow 0 2 false in
  let p := snd (resolveInLimit (vertexState cfg Fixture.perpendicular)) in
  finite_nonzero (secOnFirstScale p) = false
  /\ is_finite (sp_n (snd (recoverSpacePoint p cfg))) = false
  /\ fst (recoverSpacePoint p cfg) = false.
Proof.
  intros cfg p.
  exact (perpendicular_axes_divide_by_zero p cfg eq_refl eq_refl).
Defined.

(** Candidates with a strip of length zero, for the examples. *)
Module Degenerate.

Definition pointFront : DoubleHitSpacePoint :=
  Fixture.candidate (mkV3 1 0 0) (mkV3 1 0 0) (mkV3 0.5 1 1) (mkV3 0.5 (-1) 1).

Definition pointBack : DoubleHitSpacePoint :=
  Fixture.candidate (mkV3 1 0 0) (mkV3 (-1) 0 0) (mkV3 0.5 1 1) (mkV3 0.5 1 1).

End Degenerate.

Lemma zero_length_front_strip_stays_unset_witness :
  solveCandidate (Fixture.config Fixture.vertexBelow 0 1 true)
                 Degenerate.pointFront
  = Degenerate.pointFront.
Proof.
  apply (zero_length_front_strip_stays_unset
           (Fixture.config Fixture.vertexBelow 0 1 true)
           Degenerate.pointFront); reflexivity.
Defined.

Lemma zero_length_back_strip_stays_unset_witness :
  solveCandidate (Fixture.config Fixture.vertexBelow 0 1 false)
                 Degenerate.pointBack
  = Degenerate.pointBack.
Proof.
  apply (zero_length_back_strip_stays_unset
           (Fixture.config Fixture.vertexBelow 0 1 false)
           Degenerate.pointBack); reflexivity.
Defined.

(** ** Perpendicular projection: the point stored *)

(** X14. In perpendicular-projection mode every unset candidate whose
    closest-approach parameter is not above zero gets the same kind of
    position, the top end of the front strip plus its axis, [a + 1 * q],
    whatever the value of the parameter is. *)
Theorem perp_proj_stores_top_end_plus_axis dhCfg hits :
  usePerpProj dhCfg = true ->
  V3.neq (spacePoint hits) V3.Zero = false ->
  (lambdaOf hits <=? 0)%float = true ->
  solveCandidate dhCfg hits
  = set_spacePoint hits (fst (frontEnds hits) + 1 * frontAxis hits)%v3.
Proof.
  intros Hperp Hunset Hl.
  rewrite (solveCandidate_perp _ _ Hunset Hperp), Hl. reflexivity.
Qed.

Lemma perp_proj_stores_top_end_plus_axis_witness :
  solveCandidate (Fixture.config V3.Zero 0 0 true) Fixture.perpAccepted
  = set_spacePoint Fixture.perpAccepted (mkV3 5 0 0).
Proof.
  apply (perp_proj_stores_top_end_plus_axis
           (Fixture.config V3.Zero 0 0 true) Fixture.perpAccepted);
    reflexivity.
Defined.

(** ** Hit Clusterer: the order of the hits *)

Lemma regular_ext nX nY (bins1 bins2 : Bins) :
  regular nX nY bins1 -> regular nX nY bins2 ->
  (forall x y, x < nX -> y < nY -> getBin bins1 x y = getBin bins2 x y) ->
  bins1 = bins2.
Proof.
  intros Hreg1 Hreg2 Hext.
  pose proof Hreg1 as (Hlen1 & _). pose proof Hreg2 as (Hlen2 & _).
  apply (nth_ext bins1 bins2 [] []); [congruence|].
  intros x Hx. rewrite Hlen1 in Hx.
  apply (nth_ext _ _ None None).
  - rewrite (regular_column nX nY bins1 x Hreg1 Hx),
      (regular_column nX nY bins2 x Hreg2 Hx). reflexivity.
  - intros y Hy. rewrite (regular_column nX nY bins1 x Hreg1 Hx) in Hy.
    apply (Hext x y Hx Hy).
Qed.

(** The matrix of hits of one surface in pairwise different bins holds
    every hit in its bin and nothing else. *)
Lemma sortHits_fill_cell surface nX nY hits x y :
  Forall (fun hit => surfaceAddr (referenceSurface hit) = surface) hits ->
  NoDup (map binOfHit hits) ->
  Forall (fun hit => searchLocalX hit < nX /\ searchLocalY hit < nY) hits ->
  forall cell,
  getBin (sortHits_fill surface hits (repeat (repeat None nY) nX)) x y = cell
  <-> match cell with
      | Some hit => In hit hits /\ binOfHit hit = (x, y)
      | None => forall hit, In hit hits -> binOfHit hit <> (x, y)
      end.
Proof.
  intros Hsur Hnd Hin cell.
  set (bins := sortHits_fill surface hits (repeat (repeat None nY) nX)).
  assert (Hplace : forall hit, In hit hits -> binOfHit hit = (x, y) ->
            getBin bins x y = Some hit).
  { intros hit Hhit Hbin. injection Hbin as <- <-.
    eapply sortHits_fill_places; try eassumption. apply regular_repeat. }
  assert (Hfrom : forall hit, getBin bins x y = Some hit ->
            In hit hits /\ binOfHit hit = (x, y)).
  { intros hit Hg. apply sortHits_fill_from in Hg.
    destruct Hg as [Hg|Hg]; [exact Hg|].
    rewrite getBin_repeat in Hg. discriminate. }
  clearbody bins. split.
  - intros <-. destruct (getBin bins x y) as [hit|] eqn:Hg.
    + apply Hfrom. reflexivity.
    + intros hit Hhit Hbin. pose proof (Hplace hit Hhit Hbin). discriminate.
  - destruct cell as [hit|].
    + intros (Hhit & Hbin). apply Hplace; assumption.
    + intros Hnone.
      destruct (getBin bins x y) as [hit|] eqn:Hg; [|reflexivity].
      exfalso. destruct (Hfrom hit eq_refl) as (Hhit & Hbin).
      exact (Hnone hit Hhit Hbin).
Qed.

(** X15. With clustering, the clusters do not depend on the order in
    which the hits of a surface are passed, as long as the hits lie in
    pairwise different bins of the segmentation of that one surface. *)
Theorem clusters_ignore_the_order_of_the_hits hit0 rest hit0' rest' :
  Permutation (hit0 :: rest) (hit0' :: rest') ->
  Forall (fun hit => referenceSurface hit = referenceSurface hit0)
         (hit0 :: rest) ->
  insideBinsOf hit0 (hit0 :: rest) ->
  NoDup (map binOfHit (hit0 :: rest)) ->
  clusterSpacePoints (hit0' :: rest') true
  = clusterSpacePoints (hit0 :: rest) true.
Proof.
  intros Hperm Hsame Hin Hnd.
  set (hits := hit0 :: rest) in *. set (hits' := hit0' :: rest') in *.
  assert (Hsame' : Forall (fun hit => referenceSurface hit
                                      = referenceSurface hit0) hits')
    by (eapply Permutation_Forall; eassumption).
  assert (Hsur0 : referenceSurface hit0' = referenceSurface hit0)
    by (exact (Forall_inv Hsame')).
  assert (Hbins : sortHits hits' = sortHits hits).
  { unfold sortHits, hits, hits'. fold hits hits'. rewrite Hsur0.
    set (surface := surfaceAddr (referenceSurface hit0)).
    set (nX := binsX (referenceSurface hit0)).
    set (nY := binsY (referenceSurface hit0)).
    assert (Hs : Forall (fun hit => surfaceAddr (referenceSurface hit)
                                    = surface) hits).
    { eapply Forall_impl; [|exact Hsame]. intros hit ->. reflexivity. }
    assert (Hs' : Forall (fun hit => surfaceAddr (referenceSurface hit)
                                     = surface) hits')
      by (eapply Permutation_Forall; eassumption).
    assert (Hin' : Forall (fun hit => searchLocalX hit < nX
                                      /\ searchLocalY hit < nY) hits')
      by (eapply Permutation_Forall; eassumption).
    assert (Hnd' : NoDup (map binOfHit hits')).
    { eapply Permutation_NoDup; [|exact Hnd].
      apply Permutation_map. exact Hperm. }
    apply (regular_ext nX nY).
    - apply sortHits_fill_one_surface; [exact Hs'|apply regular_repeat].
    - apply sortHits_fill_one_surface; [exact Hs|apply regular_repeat].
    - intros x y _ _.
      apply (sortHits_fill_cell surface nX nY hits' x y Hs' Hnd' Hin').
      destruct (getBin (sortHits_fill surface hits _) x y) as [hit|] eqn:Hg;
        apply (sortHits_fill_cell surface nX nY hits x y Hs Hnd Hin) in Hg.
      + destruct Hg as (Hhit & Hbin). split; [|exact Hbin].
        eapply Permutation_in; eassumption.
      + intros hit Hhit. apply Hg.
        eapply Permutation_in; [apply Permutation_sym|]; eassumption. }
  destruct rest as [|hit1 rest].
  - apply Permutation_length_1_inv in Hperm. rewrite Hperm. reflexivity.
  - destruct rest' as [|hit1' rest'].
    + apply Permutation_sym, Permutation_length_1_inv in Hperm.
      discriminate.
    + change (clusterSpacePoints hits' true)
        with (match sortHits hits' with
              | [] => []
              | column0 :: _ =>
                  clusters
                    (if length column0 <? length (sortHits hits')
                     then scanAlongX (sortHits hits') (length (sortHits hits'))
                            (length column0) (mkScan None None [])
                     else scanAlongY (sortHits hits') (length (sortHits hits'))
                            (length column0) (mkScan None None []))
              end).
      rewrite Hbins. reflexivity.
Qed.

Lemma clusters_ignore_the_order_of_the_hits_witness :
  clusterSpacePoints
    [Fixture.binHit 2 (Fixture.gridSurface 7 3 1) 1 0;
     Fixture.binHit 1 (Fixture.gridSurface 7 3 1) 0 0] true
  = clusterSpacePoints
      [Fixture.binHit 1 (Fixture.gridSurface 7 3 1) 0 0;
       Fixture.binHit 2 (Fixture.gridSurface 7 3 1) 1 0] true.
Proof.
  apply (clusters_ignore_the_order_of_the_hits
           (Fixture.binHit 1 (Fixture.gridSurface 7 3 1) 0 0)
           [Fixture.binHit 2 (Fixture.gridSurface 7 3 1) 1 0]
           (Fixture.binHit 2 (Fixture.gridSurface 7 3 1) 1 0)
           [Fixture.binHit 1 (Fixture.gridSurface 7 3 1) 0 0]).
  - apply perm_swap.
  - repeat constructor.
  - repeat constructor.
  - repeat constructor; cbn; intuition discriminate.
Defined.

(** ** Hit Clusterer: neighbouring hits are paired *)

Section Pairing.

Variable cell : nat -> nat -> option PlanarModuleCluster.
Variable nInner : nat.

(** What holds of the scan state when the cells before cell [a] of line
    [o] have been visited: the pair under construction starts with the
    hit of the cell visited last, and two hits in cells that follow each
    other in a line have been stored as a pair. *)
Record paired (o a : nat) (st : ScanState) : Prop := mkPaired {
  pd_first : 0 < a -> cl_first st = cell o (a - 1);
  pd_pairs : forall o' i' f s,
    o' < o \/ (o' = o /\ S i' < a) -> S i' < nInner ->
    cell o' i' = Some f -> cell o' (S i') = Some s ->
    In (f, Some s) (clusters st)
}.

Lemma scanCell_first isLast content st :
  cl_first (scanCell isLast content st) = content.
Proof.
  unfold scanCell.
  destruct content as [hit|], (cl_first st) as [f|] eqn:E;
    try reflexivity; [destruct isLast; reflexivity|exact E].
Qed.

Lemma scanCell_grows isLast content st c :
  In c (clusters st) -> In c (clusters (scanCell isLast content st)).
Proof.
  intros Hin. unfold scanCell.
  destruct content as [hit|], (cl_first st) as [f|]; cbn [clusters];
    try (apply in_or_app; left; exact Hin); try exact Hin.
  destruct isLast; cbn [clusters];
    [apply in_or_app; left; exact Hin|exact Hin].
Qed.

Lemma scanCell_closes isLast f s st :
  cl_first st = Some f ->
  In (f, Some s) (clusters (scanCell isLast (Some s) st)).
Proof.
  intros Hf. unfold scanCell. rewrite Hf. cbn [clusters].
  apply in_or_app. right. left. reflexivity.
Qed.

Lemma paired_step o a st :
  paired o a st ->
  paired o (S a) (scanCell (a =? nInner - 1) (cell o a) st).
Proof.
  intros [Hfirst Hpairs]. constructor.
  - intros _. rewrite scanCell_first. replace (S a - 1) with a by lia.
    reflexivity.
  - intros o' i' f s Hpos Hi Hf Hs.
    assert (Hcase : (o' < o \/ (o' = o /\ S i' < a)) \/ (o' = o /\ S i' = a))
      by lia.
    destruct Hcase as [Hold|(-> & <-)].
    + apply scanCell_grows. eapply Hpairs; eassumption.
    + rewrite Hs. apply scanCell_closes.
      rewrite Hfirst by lia. replace (S i' - 1) with i' by lia. exact Hf.
Qed.

Lemma paired_line o n :
  forall a st, paired o a st ->
  paired o (a + n)
    (fold_left (fun st i => scanCell (i =? nInner - 1) (cell o i) st)
               (seq a n) st).
Proof.
  induction n as [|n IH]; intros a st Hp.
  - cbn [seq fold_left]. replace (a + 0) with a by lia. exact Hp.
  - cbn [seq fold_left]. replace (a + S n) with (S a + n) by lia.
    apply IH. apply paired_step. exact Hp.
Qed.

Lemma paired_next_line o st :
  paired o nInner st -> paired (S o) 0 st.
Proof.
  intros [Hfirst Hpairs]. constructor; [lia|].
  intros o' i' f s Hpos Hi Hf Hs.
  apply (Hpairs o' i' f s); [lia|exact Hi|exact Hf|exact Hs].
Qed.

Lemma paired_lines n :
  forall o st, paired o 0 st ->
  paired (o + n) 0
    (fold_left (fun st o =>
       fold_left (fun st i => scanCell (i =? nInner - 1) (cell o i) st)
                 (seq 0 nInner) st) (seq o n) st).
Proof.
  induction n as [|n IH]; intros o st Hp.
  - cbn [seq fold_left]. replace (o + 0) with o by lia. exact Hp.
  - cbn [seq fold_left]. replace (o + S n) with (S o + n) by lia.
    apply IH. apply paired_next_line.
    exact (paired_line o nInner 0 st Hp).
Qed.

(** Two hits in cells that follow each other in a line of the walk are a
    cluster. *)
Lemma scanLines_pairs nOuter o i f s :
  o < nOuter -> S i < nInner ->
  cell o i = Some f -> cell o (S i) = Some s ->
  In (f, Some s)
     (clusters (scanLines cell nInner nOuter (mkScan None None []))).
Proof.
  intros Ho Hi Hf Hs.
  assert (Hstart : paired 0 0 (mkScan None None [])).
  { constructor; [lia|]. intros o' i' f' s' [H|(_ & H)]; lia. }
  destruct (paired_lines nOuter 0 _ Hstart) as [_ Hpairs].
  apply (Hpairs o i f s); [left; lia|exact Hi|exact Hf|exact Hs].
Qed.

End Pairing.

(** X16. With clustering, two hits of a call in neighbouring bins of one
    scan line (the second in the bin that follows the bin of the first)
    are always stored together as a cluster, when the hits of the call lie
    in pairwise different bins of the segmentation of one surface. *)
Theorem neighbouring_hits_are_paired hit0 rest first second :
  onSurfaceOf hit0 (hit0 :: rest) ->
  insideBinsOf hit0 (hit0 :: rest) ->
  NoDup (map binOfHit (hit0 :: rest)) ->
  In first (hit0 :: rest) -> In second (hit0 :: rest) ->
  (if binsY (referenceSurface hit0) <? binsX (referenceSurface hit0)
   then searchLocalX second = S (searchLocalX first)
        /\ searchLocalY second = searchLocalY first
   else searchLocalY second = S (searchLocalY first)
        /\ searchLocalX second = searchLocalX first) ->
  In (first, Some second) (clusterSpacePoints (hit0 :: rest) true).
Proof.
  intros Hsur Hin Hnd Hf Hs Hnext.
  set (hits := hit0 :: rest) in *.
  set (nX := binsX (referenceSurface hit0)) in *.
  set (nY := binsY (referenceSurface hit0)) in *.
  assert (Hplace : forall hit, In hit hits ->
            getBin (sortHits hits) (searchLocalX hit) (searchLocalY hit)
            = Some hit /\ searchLocalX hit < nX /\ searchLocalY hit < nY).
  { intros hit Hhit. split.
    - unfold sortHits, hits.
      eapply sortHits_fill_places; try eassumption. apply regular_repeat.
    - unfold insideBinsOf in Hin. rewrite Forall_forall in Hin.
      apply Hin. exact Hhit. }
  destruct (Hplace first Hf) as (Hgf & HfX & HfY).
  destruct (Hplace second Hs) as (Hgs & HsX & HsY).
  assert (Hreg : regular nX nY (sortHits hits)).
  { unfold sortHits, hits.
    apply sortHits_fill_one_surface; [exact Hsur|apply regular_repeat]. }
  destruct rest as [|hit1 rest].
  { (* a single hit has no neighbour *)
    exfalso. destruct Hf as [<-|[]]. destruct Hs as [<-|[]].
    destruct (nY <? nX); lia. }
  change (clusterSpacePoints hits true)
    with (match sortHits hits with
          | [] => []
          | column0 :: _ =>
              clusters
                (if length column0 <? length (sortHits hits)
                 then scanAlongX (sortHits hits) (length (sortHits hits))
                        (length column0) (mkScan None None [])
                 else scanAlongY (sortHits hits) (length (sortHits hits))
                        (length column0) (mkScan None None []))
          end).
  pose proof Hreg as (HnX & Hcols).
  destruct (sortHits hits) as [|column0 columns] eqn:Ebins.
  { cbn [length] in HnX. lia. }
  pose proof (Forall_inv Hcols) as HnY. cbv beta in HnY.
  rewrite <- Ebins in *. rewrite HnX, HnY.
  destruct (nY <? nX).
  - destruct Hnext as (HX & HY).
    change (scanAlongX (sortHits hits) nX nY (mkScan None None []))
      with (scanLines (fun o i => getBin (sortHits hits) i o) nX nY
                      (mkScan None None [])).
    apply (scanLines_pairs (fun o i => getBin (sortHits hits) i o) nX nY
             (searchLocalY first) (searchLocalX first)).
    + exact HfY.
    + rewrite <- HX. exact HsX.
    + exact Hgf.
    + rewrite <- HX, <- HY. exact Hgs.
  - destruct Hnext as (HY & HX).
    change (scanAlongY (sortHits hits) nX nY (mkScan None None []))
      with (scanLines (fun o i => getBin (sortHits hits) o i) nY nX
                      (mkScan None None [])).
    apply (scanLines_pairs (fun o i => getBin (sortHits hits) o i) nY nX
             (searchLocalX first) (searchLocalY first)).
    + exact HfX.
    + rewrite <- HY. exact HsY.
    + exact Hgf.
    + rewrite <- HX, <- HY. exact Hgs.
Qed.

Lemma neighbouring_hits_are_paired_witness :
  In (Fixture.binHit 1 (Fixture.gridSurface 7 3 1) 0 0,
      Some (Fixture.binHit 2 (Fixture.gridSurface 7 3 1) 1 0))
     (clusterSpacePoints
        [Fixture.binHit 1 (Fixture.gridSurface 7 3 1) 0 0;
         Fixture.binHit 2 (Fixture.gridSurface 7 3 1) 1 0] true).
Proof.
  apply (neighbouring_hits_are_paired
           (Fixture.binHit 1 (Fixture.gridSurface 7 3 1) 0 0)
           [Fixture.binHit 2 (Fixture.gridSurface 7 3 1) 1 0]).
  - repeat constructor.
  - repeat constructor.
  - repeat constructor; cbn; intuition discriminate.
  - left. reflexivity.
  - right. left. reflexivity.
  - split; reflexivity.
Defined.
